(** * PHC string codec and Argon2id password hasher

    A shallow embedding of the packages [password/hashing/phc] and
    [password/hashing/argon2], with the parts of the Go standard library
    they rely on ([regexp], [encoding/base64], [strings], [strconv],
    [crypto/subtle], [io]) modelled next to them.

    Go strings are byte sequences: they are modelled as [list ascii].
    Byte slices ([[]byte]) are modelled as [list byte].  Unsigned machine
    integers are modelled in [N], with wrap-around written out where the
    code converts or may overflow. *)

From Stdlib Require Import Strings.Ascii Strings.String Strings.Byte.
From Stdlib Require Import List Bool Arith NArith ZArith Lia ZifyNat.
Import ListNotations.

Set Implicit Arguments.

Local Open Scope N_scope.

(** ** Go values *)

Definition gostring := list ascii.
Definition bytes := list byte.

(** String literals are written with Rocq's [string] notation. *)
Definition str (s : string) : gostring := list_ascii_of_string s.

Definition code (c : ascii) : N := N_of_ascii c.

Definition string_eqb (a b : gostring) : bool :=
  if list_eq_dec ascii_dec a b then true else false.

(** [[]byte(s)] and [string(b)]: a copy with the same bytes. *)
Definition bytes_of_string (s : gostring) : bytes := map byte_of_ascii s.
Definition string_of_bytes (b : bytes) : gostring := map ascii_of_byte b.

(** [byte(x)]: conversion of an unsigned integer to [uint8] truncates. *)
Definition byte_of_N (n : N) : byte :=
  match Byte.of_N (n mod 256) with
  | Some b => b
  | None => x00
  end.

(** Outcome of a Go call that returns [(value, error)]: the value, the
    error, or a run-time panic (index out of range). *)
Inductive outcome (E A : Type) : Type :=
| Ok (a : A)
| Err (e : E)
| Panic.

Arguments Ok {E A} a.
Arguments Err {E A} e.
Arguments Panic {E A}.

Definition bind {E A B} (x : outcome E A) (f : A -> outcome E B) : outcome E B :=
  match x with
  | Ok a => f a
  | Err e => Err e
  | Panic => Panic
  end.

Definition map_err {E F A} (f : E -> F) (x : outcome E A) : outcome F A :=
  match x with
  | Ok a => Ok a
  | Err e => Err (f e)
  | Panic => Panic
  end.

Notation "x <- a ;; b" := (bind a (fun x => b))
  (at level 61, a at next level, right associativity).

(** ** Package regexp: leftmost-first matching

    The package documentation defines the match that [FindStringSubmatch]
    returns as the one a backtracking search finds first.  [runs r st]
    lists, in the order of that search, every state the search can be in
    after matching [r] from [st]: greedy operators list the longer
    alternative before the shorter one. *)
Module Regexp.

Inductive re : Type :=
| Eps
| Chr (c : ascii)
| Class (p : ascii -> bool)
| Cat (a b : re)
| Opt (a : re)              (* a? *)
| Star (a : re)             (* a* *)
| Group (i : nat) (a : re)  (* capturing group number i *)
| Bot                       (* ^ without the m flag: beginning of text *)
| Eot.                      (* $ without the m flag: end of text *)

(** a+ *)
Definition Plus (a : re) : re := Cat a (Star a).

(** a{0,n}, as the package's simplifier expands it: (a(a(...)?)?)? *)
Fixpoint UpTo (a : re) (n : nat) : re :=
  match n with
  | O => Eps
  | S n' => Opt (Cat a (UpTo a n'))
  end.

(** a{1,n} *)
Definition Rep1 (a : re) (n : nat) : re := Cat a (UpTo a (pred n)).

(** A literal string. *)
Fixpoint Lit (s : gostring) : re :=
  match s with
  | [] => Eps
  | c :: s' => Cat (Chr c) (Lit s')
  end.

(** Search state: offset in the text, text left to read, submatches. *)
Record state : Type := mkState {
  pos : nat;
  rest : gostring;
  caps : list gostring
}.

Fixpoint set_cap (i : nat) (v : gostring) (l : list gostring) : list gostring :=
  match i, l with
  | _, [] => []
  | O, _ :: t => v :: t
  | S i', h :: t => h :: set_cap i' v t
  end.

Definition advance (st : state) (s' : gostring) : state :=
  mkState (S (pos st)) s' (caps st).

(** Text read between [st] and a later state [st']. *)
Definition consumed (st st' : state) : gostring :=
  firstn (pos st' - pos st) (rest st).

(** Repetition: try one more round of the body first, then stop.  A round
    that reads nothing is not repeated. *)
Fixpoint iter (step : state -> list state) (fuel : nat) (st : state) : list state :=
  match fuel with
  | O => [st]
  | S fuel' =>
      flat_map (fun st' =>
                  if (length (rest st') <? length (rest st))%nat
                  then iter step fuel' st' else [])
               (step st) ++ [st]
  end.

Fixpoint runs (r : re) (st : state) : list state :=
  match r with
  | Eps => [st]
  | Chr c =>
      match rest st with
      | x :: s' => if Ascii.eqb x c then [advance st s'] else []
      | [] => []
      end
  | Class p =>
      match rest st with
      | x :: s' => if p x then [advance st s'] else []
      | [] => []
      end
  | Cat a b => flat_map (runs b) (runs a st)
  | Opt a => runs a st ++ [st]
  | Star a => iter (runs a) (length (rest st)) st
  | Group i a =>
      map (fun st' => mkState (pos st') (rest st')
                              (set_cap i (consumed st st') (caps st')))
          (runs a st)
  | Bot => match pos st with O => [st] | S _ => [] end
  | Eot => match rest st with [] => [st] | _ :: _ => [] end
  end.

(** Number of capturing groups. *)
Fixpoint groups (r : re) : nat :=
  match r with
  | Cat a b => Nat.max (groups a) (groups b)
  | Opt a | Star a => groups a
  | Group i a => Nat.max i (groups a)
  | _ => O
  end.

(** Search for a match starting at offset [p], then at the following
    offsets. *)
Fixpoint search (r : re) (p : nat) (s : gostring) : option (list gostring) :=
  let st := mkState p s (repeat [] (S (groups r))) in
  match runs r st with
  | st' :: _ => Some (set_cap 0 (consumed st st') (caps st'))
  | [] =>
      match s with
      | [] => None
      | _ :: s' => search r (S p) s'
      end
  end.

(** [FindStringSubmatch]: [None] is Go's [nil]; the list holds the whole
    match and then the text of each group, empty when the group did not
    take part in the match. *)
Definition FindStringSubmatch (r : re) (s : gostring) : option (list gostring) :=
  search r 0 s.

End Regexp.

(** ** Errors

    One type for the [error] values of the program: the sentinel and
    structured errors of the standard library, and the errors the two
    packages build with [errors.New] and [fmt.Errorf("...: %w", err)]
    (one constructor per message, carrying what the message is built
    from). *)
Inductive num_err : Type :=
| ErrSyntax   (* strconv.ErrSyntax *)
| ErrRange.   (* strconv.ErrRange *)

Inductive error : Type :=
| EOF                                     (* io.EOF *)
| ErrUnexpectedEOF                        (* io.ErrUnexpectedEOF *)
| Custom (msg : gostring)                 (* an error of a caller-supplied function *)
| CorruptInputError (offset : N)          (* base64.CorruptInputError *)
| NumError (num : gostring) (e : num_err) (* strconv.NumError of ParseUint *)
| NotValidFormat (text : gostring)        (* "phc: not a valid format: " + Quote(text) *)
| SaltDecodingError (e : error)           (* "phc: salt decoding error: %w" *)
| HashDecodingError (e : error)           (* "phc: hash decoding error: %w" *)
| SaltGenerationError (e : error)         (* "salt generation error: %w" *)
| PHCDecodeError (e : error)              (* "PHC decode error: %w" *)
| UnsupportedHashingFunction (id : gostring)  (* "unsupported hashing function: " + ID *)
| UnsupportedVersion (v : gostring)       (* "unsupported argon2id version: " + Version *)
| InvalidParameterCount (n : nat)         (* "invalid parameter count: " + Itoa(len) *)
| ParametersOrder                         (* "parameters should be in the order: m, t, p" *)
| MemoryParameterError (e : error)        (* "memory parameter decode error: %w" *)
| TimeParameterError (e : error)          (* "time parameter decode error: %w" *)
| ParallelismParameterError (e : error)   (* "parallelims parameter decode error: %w" *)
| HashTooLong (n : nat).                  (* "hash is too long: %d" *)

Abbreviation result := (outcome error).

(** ** Package encoding/base64: [RawStdEncoding]

    The standard alphabet, no padding character ([NoPadding]) and the
    default, non-strict decoding: the branches of the package that handle
    padding or the strict mode are not reachable with this encoding and
    are left out. *)
Module Base64.

Definition encodeStd : gostring :=
  str "ABCDEFGHIJKLMNOPQRSTUVWXYZabcdefghijklmnopqrstuvwxyz0123456789+/".

(** [enc.encode[i]] *)
Definition encode (i : N) : ascii := nth (N.to_nat i) encodeStd zero.

Fixpoint index_from (c : ascii) (l : gostring) (i : N) : N :=
  match l with
  | [] => 0xff
  | x :: l' => if Ascii.eqb x c then i else index_from c l' (i + 1)
  end.

(** [enc.decodeMap[c]]: the index of [c] in the alphabet, 0xff for a
    byte outside of it. *)
Definition decodeMap (c : ascii) : N := index_from c encodeStd 0.

Definition sextet (val : N) (shift : N) : ascii :=
  encode (N.land (N.shiftr val shift) 0x3F).

(** [Encode], returned as a string by [EncodeToString]: full groups of
    three bytes, then the remaining one or two bytes without padding. *)
Fixpoint EncodeToString (src : bytes) : gostring :=
  match src with
  | b0 :: b1 :: b2 :: src' =>
      let val := N.lor (N.lor (N.shiftl (Byte.to_N b0) 16)
                              (N.shiftl (Byte.to_N b1) 8))
                       (Byte.to_N b2) in
      sextet val 18 :: sextet val 12 :: sextet val 6 :: sextet val 0
        :: EncodeToString src'
  | [b0; b1] =>
      let val := N.lor (N.shiftl (Byte.to_N b0) 16)
                       (N.shiftl (Byte.to_N b1) 8) in
      [sextet val 18; sextet val 12; sextet val 6]
  | [b0] =>
      let val := N.shiftl (Byte.to_N b0) 16 in
      [sextet val 18; sextet val 12]
  | [] => []
  end.

(** The end of [decodeQuantum]: [dbuf] holds the [dlen] values read (up
    to four, missing ones zero); [dlen - 1] bytes are written. *)
Definition quantum (dbuf : list N) : bytes :=
  let d := fun j => nth j dbuf 0 in
  let val := N.lor (N.lor (N.lor (N.shiftl (d 0%nat) 18)
                                 (N.shiftl (d 1%nat) 12))
                          (N.shiftl (d 2%nat) 6))
                   (d 3%nat) in
  let b0 := byte_of_N (N.shiftr val 16) in
  let b1 := byte_of_N (N.shiftr val 8) in
  let b2 := byte_of_N val in
  match length dbuf with
  | 4%nat => [b0; b1; b2]
  | 3%nat => [b0; b1]
  | 2%nat => [b0]
  | _ => []
  end.

Definition is_newline (c : ascii) : bool :=
  Ascii.eqb c "010"%char || Ascii.eqb c "013"%char.

(** [Decode]: the loop over [decodeQuantum].  [si] is the offset in the
    source and [dbuf] the values of the quantum being read.  Line breaks
    are skipped; any other byte outside the alphabet is an error at its
    offset; input that ends one value into a quantum is an error. *)
Fixpoint decode (src : gostring) (si : N) (dbuf : list N) : result bytes :=
  match src with
  | [] =>
      match dbuf with
      | [] => Ok []
      | [_] => Err (CorruptInputError (si - 1))
      | _ => Ok (quantum dbuf)
      end
  | c :: src' =>
      let out := decodeMap c in
      if negb (out =? 0xff) then
        let dbuf' := dbuf ++ [out] in
        if (length dbuf' =? 4)%nat
        then tl <- decode src' (si + 1) [] ;; Ok (quantum dbuf' ++ tl)
        else decode src' (si + 1) dbuf'
      else if is_newline c then decode src' (si + 1) dbuf
      else Err (CorruptInputError si)
  end.

Definition DecodeString (s : gostring) : result bytes := decode s 0 [].

(** A text in canonical form: the bits of its last byte that no decoded
    byte takes (four after a single byte, two after two bytes) are
    zero. *)
Fixpoint canonical (s : gostring) : bool :=
  match s with
  | _ :: _ :: _ :: _ :: s' => canonical s'
  | [_; _; c2] => N.land (decodeMap c2) 0x3 =? 0
  | [_; c1] => N.land (decodeMap c1) 0xF =? 0
  | _ => true
  end.

End Base64.

(** ** Package strings *)
Module Strings.

(** [Split(s, sep)] for a separator of one byte, the only kind the
    program uses: the pieces of [s] between the occurrences of [sep];
    one piece, [s] itself, when [sep] does not occur. *)
Fixpoint Split (s : gostring) (sep : ascii) : list gostring :=
  match s with
  | [] => [[]]
  | c :: s' =>
      if Ascii.eqb c sep then [] :: Split s' sep
      else match Split s' sep with
           | piece :: pieces => (c :: piece) :: pieces
           | [] => [[c]]
           end
  end.

End Strings.

(** ** Package strconv *)
Module Strconv.

Definition maxUint64 : N := 18446744073709551615.

(** [lower(c)]: [c | ('x' - 'X')] *)
Definition lower (c : N) : N := N.lor c 0x20.

(** The digit a byte stands for, in the [switch] of [ParseUint]. *)
Definition digit (c : ascii) : option N :=
  let c := code c in
  if (48 <=? c) && (c <=? 57) then Some (c - 48)
  else if (97 <=? lower c) && (lower c <=? 122) then Some (lower c - 97 + 10)
  else None.

(** The loop of [ParseUint] in base 10, on 64-bit unsigned integers. *)
Fixpoint parse_loop (s : gostring) (n maxVal : N) : num_err + N :=
  match s with
  | [] => inr n
  | c :: s' =>
      match digit c with
      | None => inl ErrSyntax
      | Some d =>
          if 10 <=? d then inl ErrSyntax
          else if maxUint64 / 10 + 1 <=? n then inl ErrRange
          else
            let n := (n * 10) mod 2 ^ 64 in
            let n1 := (n + d) mod 2 ^ 64 in
            if (n1 <? n) || (maxVal <? n1) then inl ErrRange
            else parse_loop s' n1 maxVal
      end
  end.

(** [ParseUint(s, 10, bitSize)] for [1 <= bitSize <= 64]. *)
Definition ParseUint (s : gostring) (bitSize : N) : result N :=
  match s with
  | [] => Err (NumError s ErrSyntax)
  | _ =>
      match parse_loop s 0 (N.shiftl 1 bitSize - 1) with
      | inr n => Ok n
      | inl e => Err (NumError s e)
      end
  end.

(** The digit loop of [formatBits] in base 10, one digit a round; the
    buffer of the package holds 65 bytes, 20 rounds print any 64-bit
    value. *)
Fixpoint formatBits (fuel : nat) (u : N) (a : gostring) : gostring :=
  match fuel with
  | O => a
  | S fuel' =>
      if u <? 10 then ascii_of_N (u + 48) :: a
      else formatBits fuel' (u / 10) (ascii_of_N (u mod 10 + 48) :: a)
  end.

(** [FormatUint(i, 10)] *)
Definition FormatUint (i : N) : gostring := formatBits 20 i [].

(** [Itoa(i)] *)
Definition Itoa (i : Z) : gostring :=
  if (i <? 0)%Z then "-"%char :: FormatUint (Z.to_N (- i))
  else FormatUint (Z.to_N i).

End Strconv.

(** ** Package crypto/subtle *)
Module Subtle.

(** [ConstantTimeByteEq(x, y)]: [int((uint32(x^y) - 1) >> 31)] *)
Definition ConstantTimeByteEq (x y : N) : N :=
  N.shiftr ((N.lxor x y + (2 ^ 32 - 1)) mod 2 ^ 32) 31.

(** What a run lets an observer of its timing see: the outcome of
    every condition the code tests and the index of every slice element
    it reads.  The arithmetic on the values read is straight-line code
    and adds nothing. *)
Inductive leak : Type :=
| Branch (taken : bool)
| Load (slice index : nat).

(** A run: the value computed and what the run shows, in order. *)
Definition run (A : Type) : Type := (A * list leak)%type.

Definition ret {A} (a : A) : run A := (a, []).

Definition then_run {A B} (m : run A) (k : A -> run B) : run B :=
  (fst (k (fst m)), snd m ++ snd (k (fst m))).

Notation "x <~ a ;; b" := (then_run a (fun x => b))
  (at level 61, a at next level, right associativity).

(** A condition the code tests. *)
Definition branch (b : bool) : run bool := (b, [Branch b]).

(** The read [x[i]], [x] being the slice number [slice] of the call.
    The reads of [ConstantTimeCompare] are in range. *)
Definition load (slice : nat) (x : bytes) (i : nat) : run N :=
  (Byte.to_N (nth i x x00), [Load slice i]).

(** The loop [for i := 0; i < len(x); i++ { v |= x[i] ^ y[i] }] of
    [ConstantTimeCompare] from index [i]; [fuel] bounds the number of
    rounds, [len(x)] is enough. *)
Fixpoint accumulate_run (fuel i : nat) (v : N) (x y : bytes) : run N :=
  more <~ branch (i <? length x)%nat ;;
  if more then
    match fuel with
    | O => ret v
    | S fuel' =>
        xi <~ load 0 x i ;;
        yi <~ load 1 y i ;;
        accumulate_run fuel' (S i) (N.lor v (N.lxor xi yi)) x y
    end
  else ret v.

(** A run of [ConstantTimeCompare(x, y)]: the test [len(x) != len(y)],
    the loop, then [ConstantTimeByteEq(v, 0)]. *)
Definition ConstantTimeCompare_run (x y : bytes) : run N :=
  differ <~ branch (negb (length x =? length y)%nat) ;;
  if differ then ret 0
  else
    v <~ accumulate_run (length x) 0 0 x y ;;
    ret (ConstantTimeByteEq v 0).

(** [ConstantTimeCompare(x, y)]: the value of the run. *)
Definition ConstantTimeCompare (x y : bytes) : N :=
  fst (ConstantTimeCompare_run x y).

(** [ConstantTimeCopy(v, x, y)]: the new contents of [x], each byte
    [x[i]&xmask | y[i]&ymask] with [xmask = byte(v-1)] and
    [ymask = byte(^(v-1))]; the call panics ([None]) when the two lengths
    differ. *)
Definition ConstantTimeCopy (v : N) (x y : bytes) : option bytes :=
  if negb (length x =? length y)%nat then None
  else
    let xmask := (v + 255) mod 256 in
    let ymask := N.lxor xmask 255 in
    Some (map (fun xy => byte_of_N (N.lor (N.land (Byte.to_N (fst xy)) xmask)
                                          (N.land (Byte.to_N (snd xy)) ymask)))
              (combine x y)).

End Subtle.

(** ** Package io *)
Module IO.

(** A reader, as the bytes it still has to deliver: end of file after
    the last one. *)
Definition Reader := bytes.

(** [ReadFull(r, buf)] with [len(buf) = n]: exactly [n] bytes, or [EOF]
    when nothing could be read and [ErrUnexpectedEOF] when the reader ran
    dry part way.  The reader is returned as the call leaves it. *)
Definition ReadFull (r : Reader) (n : nat) : result bytes * Reader :=
  if (n <=? length r)%nat then (Ok (firstn n r), skipn n r)
  else match r with
       | [] => (Err EOF, [])
       | _ => (Err ErrUnexpectedEOF, [])
       end.

End IO.

(** ** Package phc *)
Module PHC.
Import Regexp.

(** The struct [Parameter] ([Parameter] is a reserved word here). *)
Record PHCParameter : Type := mkParameter {
  Name : gostring;
  Value : gostring
}.

Record Format : Type := mkFormat {
  ID : gostring;
  Version : gostring;
  Params : list PHCParameter;
  Salt : bytes;
  Hash : bytes
}.

(** The zero value of [Format]. *)
Definition zero_Format : Format := mkFormat [] [] [] [] [].

Definition in_range (lo hi c : ascii) : bool :=
  (code lo <=? code c) && (code c <=? code hi).

(** [[a-z0-9-]] *)
Definition name_char (c : ascii) : bool :=
  in_range "a" "z" c || in_range "0" "9" c || Ascii.eqb c "-"%char.

(** [[0-9]] *)
Definition digit_char (c : ascii) : bool := in_range "0" "9" c.

(** [[a-zA-Z0-9/+.-]] *)
Definition value_char (c : ascii) : bool :=
  in_range "a" "z" c || in_range "A" "Z" c || in_range "0" "9" c
  || Ascii.eqb c "/"%char || Ascii.eqb c "+"%char
  || Ascii.eqb c "."%char || Ascii.eqb c "-"%char.

Declare Scope re_scope.
Delimit Scope re_scope with re.
Infix "++" := Cat (right associativity, at level 60) : re_scope.

(** [[a-z0-9-]+=[a-zA-Z0-9/+.-]+] *)
Definition re_param : re :=
  (Plus (Class name_char) ++ Chr "="%char ++ Plus (Class value_char))%re.

(** [\$([a-z0-9-]{1,32})] *)
Definition re_id : re :=
  (Chr "$"%char ++ Group 1 (Rep1 (Class name_char) 32))%re.

(** [(?:\$v=([0-9]+))?] *)
Definition re_version : re :=
  Opt (Lit (str "$v=") ++ Group 2 (Plus (Class digit_char)))%re.

(** [(?:\$( param (?:, param )* ))?] where param is [re_param] *)
Definition re_params : re :=
  Opt (Chr "$"%char ++ Group 3 (re_param ++ Star (Chr ","%char ++ re_param)))%re.

(** [(?:\$([a-zA-Z0-9/+.-]+)(?:\$([a-zA-Z0-9/+.-]+))?)?] *)
Definition re_salt_hash : re :=
  Opt (Chr "$"%char ++ Group 4 (Plus (Class value_char))
       ++ Opt (Chr "$"%char ++ Group 5 (Plus (Class value_char))))%re.

(** The pattern [format]. *)
Definition format : re :=
  (Bot ++ re_id ++ re_version ++ re_params ++ re_salt_hash ++ Eot)%re.

(** The loop over [split]: each piece is cut at the equals signs, the
    first two parts are the name and the value.  A piece with no equals
    sign makes [kv[1]] panic. *)
Fixpoint parse_params (split : list gostring) : result (list PHCParameter) :=
  match split with
  | [] => Ok []
  | param :: split' =>
      match Strings.Split param "="%char with
      | kv0 :: kv1 :: _ =>
          ps <- parse_params split' ;; Ok (mkParameter kv0 kv1 :: ps)
      | _ => Panic
      end
  end.

(** The body of [UnmarshalText] up to the assignment to the receiver:
    the value of [ret], or the error returned. *)
Definition UnmarshalText_ret (text : bytes) : result Format :=
  match FindStringSubmatch format (string_of_bytes text) with
  | None => Err (NotValidFormat (string_of_bytes text))
  | Some submatches =>
      let sub := fun i => nth i submatches [] in
      params <- (if (0 <? length (sub 3%nat))%nat
                 then parse_params (Strings.Split (sub 3%nat) ","%char)
                 else Ok []) ;;
      if (0 <? length (sub 4%nat))%nat then
        salt <- map_err SaltDecodingError (Base64.DecodeString (sub 4%nat)) ;;
        if (0 <? length (sub 5%nat))%nat then
          hash <- map_err HashDecodingError (Base64.DecodeString (sub 5%nat)) ;;
          Ok (mkFormat (sub 1%nat) (sub 2%nat) params salt hash)
        else Ok (mkFormat (sub 1%nat) (sub 2%nat) params salt [])
      else Ok (mkFormat (sub 1%nat) (sub 2%nat) params [] [])
  end.

(** [f.UnmarshalText(text)]: the receiver after the call, and what the
    call returns ([Ok tt] is a nil error). *)
Definition UnmarshalText (f : Format) (text : bytes) : Format * result unit :=
  match UnmarshalText_ret text with
  | Ok ret => (ret, Ok tt)
  | Err e => (f, Err e)
  | Panic => (f, Panic)
  end.

Definition Decode (raw : gostring) : result Format :=
  match UnmarshalText zero_Format (bytes_of_string raw) with
  | (f, Ok _) => Ok f
  | (_, Err e) => Err e
  | (_, Panic) => Panic
  end.

(** The loop of [String] over the parameters, from index [i]. *)
Fixpoint write_params (i : nat) (ps : list PHCParameter) : gostring :=
  match ps with
  | [] => []
  | param :: ps' =>
      (if (0 <? i)%nat then [","%char] else [])
      ++ Name param ++ ["="%char] ++ Value param ++ write_params (S i) ps'
  end.

(** [f.String()]: what the builder holds at the end. *)
Definition String (f : Format) : gostring :=
  ["$"%char] ++ ID f
  ++ (if string_eqb (Version f) [] then [] else str "$v=" ++ Version f)
  ++ (if (0 <? length (Params f))%nat
      then ["$"%char] ++ write_params 0 (Params f) else [])
  ++ (if (0 <? length (Salt f))%nat
      then ["$"%char] ++ Base64.EncodeToString (Salt f)
           ++ (if (0 <? length (Hash f))%nat
               then ["$"%char] ++ Base64.EncodeToString (Hash f) else [])
      else []).

Definition MarshalText (f : Format) : result bytes :=
  Ok (bytes_of_string (String f)).

End PHC.

(** ** Package argon2 *)
Module Argon2.
Import PHC.

Definition argon2ID : gostring := str "argon2id".

(** [argon2.Version] of golang.org/x/crypto/argon2. *)
Definition Version : Z := 0x13.

Definition MaxUint32 : N := 4294967295.

(** A salt generator is a closure over a source of randomness; the state
    of that source is passed in and out. *)
Definition SaltGenerator : Type := IO.Reader -> result bytes * IO.Reader.

(** [NewSaltGenerator(length, randSource)]: the closure, applied to the
    state of [randSource].  [make([]byte, length)] panics on a negative
    length. *)
Definition NewSaltGenerator (length : Z) : SaltGenerator :=
  fun randSource =>
    if (length <? 0)%Z then (Panic, randSource)
    else IO.ReadFull randSource (Z.to_nat length).

(** The struct [Parameters] ([Parameters] is a reserved word here):
    two [uint32], one [uint8], one [uint32]. *)
Record Argon2Parameters : Type := mkParameters {
  Memory : N;
  Time : N;
  Parallelism : N;
  KeyLength : N
}.

(** The struct [hasher]; [None] is the nil function of the zero value. *)
Record hasher : Type := mkHasher {
  params : Argon2Parameters;
  salt : option SaltGenerator
}.

Definition Option : Type := hasher -> hasher.

Definition WithParameters (p : Argon2Parameters) : Option :=
  fun h => mkHasher p (salt h).

Definition WithSaltGenerator (g : option SaltGenerator) : Option :=
  fun h => mkHasher (params h) g.

Definition defaultOptions : list Option :=
  [ WithParameters (mkParameters (46 * 1024) 1 1 32);
    WithSaltGenerator (Some (NewSaltGenerator 16)) ].

(** [New(opts...)]: the default options, then [opts], applied in order to
    the zero value. *)
Definition New (opts : list Option) : hasher :=
  fold_left (fun h opt => opt h) (defaultOptions ++ opts)
            (mkHasher (mkParameters 0 0 0 0) None).

Section KDF.

(** [argon2.IDKey(password, salt, time, memory, threads, keyLen)], the
    key derivation function of golang.org/x/crypto/argon2: an external
    function of these six arguments, which returns the key or panics
    ([None]); the library panics when [time] or [threads] is less
    than 1.  No caller recovers from the panic. *)
Variable IDKey : bytes -> bytes -> N -> N -> N -> N -> option bytes.

Definition params_list (p : Argon2Parameters) : list PHCParameter :=
  [ mkParameter (str "m") (Strconv.FormatUint (Memory p));
    mkParameter (str "t") (Strconv.FormatUint (Time p));
    mkParameter (str "p") (Strconv.FormatUint (Parallelism p)) ].

(** [h.Hash(password)], with the state of the randomness source. *)
Definition Hash (h : hasher) (password : gostring) (rnd : IO.Reader)
  : result gostring * IO.Reader :=
  match salt h with
  | None => (Panic, rnd)
  | Some generate =>
      match generate rnd with
      | (Err err, rnd') => (Err (SaltGenerationError err), rnd')
      | (Panic, rnd') => (Panic, rnd')
      | (Ok salt, rnd') =>
          match IDKey (bytes_of_string password) salt
                      (Time (params h)) (Memory (params h))
                      (Parallelism (params h)) (KeyLength (params h)) with
          | None => (Panic, rnd')
          | Some derived =>
              let phc := mkFormat argon2ID (Strconv.Itoa Version)
                                  (params_list (params h)) salt derived in
              (Ok (String phc), rnd')
          end
      end
  end.

Definition EncodeWithSalt (password salt : bytes) (p : Argon2Parameters)
  : result Format :=
  match Subtle.ConstantTimeCopy 1 (repeat x00 (length salt)) salt with
  | None => Panic
  | Some copyedSalt =>
      match IDKey password copyedSalt (Time p) (Memory p)
                  (Parallelism p) (KeyLength p) with
      | None => Panic
      | Some hash =>
          Ok (mkFormat argon2ID (Strconv.Itoa Version) (params_list p)
                       copyedSalt hash)
      end
  end.

Definition Decode (encoded : gostring) : result (Format * Argon2Parameters) :=
  decoded <- map_err PHCDecodeError (PHC.Decode encoded) ;;
  if negb (string_eqb (ID decoded) argon2ID) then
    Err (UnsupportedHashingFunction (ID decoded))
  else if negb (string_eqb (PHC.Version decoded) (Strconv.Itoa Version)) then
    Err (UnsupportedVersion (PHC.Version decoded))
  else
    match Params decoded with
    | [p0; p1; p2] =>
        if negb (string_eqb (Name p0) (str "m"))
           || negb (string_eqb (Name p1) (str "t"))
           || negb (string_eqb (Name p2) (str "p"))
        then Err ParametersOrder
        else
          memory <- map_err MemoryParameterError
                            (Strconv.ParseUint (Value p0) 32) ;;
          time <- map_err TimeParameterError
                          (Strconv.ParseUint (Value p1) 32) ;;
          parallelism <- map_err ParallelismParameterError
                                 (Strconv.ParseUint (Value p2) 8) ;;
          if MaxUint32 <? N.of_nat (length (PHC.Hash decoded)) then
            Err (HashTooLong (length (PHC.Hash decoded)))
          else
            Ok (decoded,
                mkParameters (memory mod 2 ^ 32) (time mod 2 ^ 32)
                             (parallelism mod 2 ^ 8)
                             (N.of_nat (length (PHC.Hash decoded)) mod 2 ^ 32))
    | ps => Err (InvalidParameterCount (length ps))
    end.

(** [h.IsSame(password, hash)] *)
Definition IsSame (h : hasher) (password hash : gostring) : result bool :=
  dp <- Decode hash ;;
  newlyEncoded <- EncodeWithSalt (bytes_of_string password)
                                 (PHC.Salt (fst dp)) (snd dp) ;;
  Ok (Subtle.ConstantTimeCompare (PHC.Hash (fst dp)) (PHC.Hash newlyEncoded)
      =? 1).

End KDF.

End Argon2.

Unset Implicit Arguments.

(** * Vocabulary of the proofs *)

(** ** The search as a relation *)
Module RegexpSem.
Import Regexp.

(** [st'] is [st] after reading some text [p]. *)
Definition extends (st st' : state) : Prop :=
  exists p, rest st = p ++ rest st' /\ pos st' = (pos st + length p)%nat.

(** The relation the search computes: [matches r st st'] when matching
    [r] from [st] can end in [st']. *)
Inductive matches : re -> state -> state -> Prop :=
| M_eps st : matches Eps st st
| M_chr c st s : rest st = c :: s -> matches (Chr c) st (advance st s)
| M_class p st x s :
    rest st = x :: s -> p x = true -> matches (Class p) st (advance st s)
| M_cat a b st st1 st2 :
    matches a st st1 -> matches b st1 st2 -> matches (Cat a b) st st2
| M_opt_take a st st1 : matches a st st1 -> matches (Opt a) st st1
| M_opt_skip a st : matches (Opt a) st st
| M_star_stop a st : matches (Star a) st st
| M_star_more a st st1 st2 :
    matches a st st1 -> (length (rest st1) < length (rest st))%nat ->
    matches (Star a) st1 st2 -> matches (Star a) st st2
| M_group i a st st1 :
    matches a st st1 ->
    matches (Group i a) st
            (mkState (pos st1) (rest st1)
                     (set_cap i (consumed st st1) (caps st1)))
| M_bot st : pos st = O -> matches Bot st st
| M_eot st : rest st = [] -> matches Eot st st.

(** [leads r st st']: the search for [r] from [st] ends first in [st']. *)
Definition leads (r : re) (st st' : state) : Prop :=
  exists others, runs r st = st' :: others.

(** [st] after reading [p], with [s] left. *)
Definition skip (st : state) (p s : gostring) : state :=
  mkState (pos st + length p) s (caps st).

(** [s] does not start with a character of the class. *)
Definition stops (cls : ascii -> bool) (s : gostring) : Prop :=
  match s with
  | [] => True
  | x :: _ => cls x = false
  end.

End RegexpSem.

(** ** The grammar of encoded strings *)
Module Grammar.
Import Regexp RegexpSem PHC Base64.

Definition param_text (p : PHCParameter) : gostring :=
  Name p ++ "="%char :: Value p.

Definition nonempty {A} (l : list A) : bool :=
  match l with [] => false | _ :: _ => true end.

(** A parameter the grammar admits. *)
Definition valid_param (p : PHCParameter) : bool :=
  nonempty (Name p) && forallb name_char (Name p)
  && nonempty (Value p) && forallb value_char (Value p).

(** The text of the salt and hash part. *)
Definition render_salt_hash (s64 h64 : gostring) : gostring :=
  match s64 with
  | [] => []
  | _ => "$"%char :: s64 ++ match h64 with [] => [] | _ => "$"%char :: h64 end
  end.

Definition render_params (ps : list PHCParameter) : gostring :=
  match ps with
  | [] => []
  | _ => "$"%char :: write_params 0 ps
  end.

Definition render_version (ver : gostring) : gostring :=
  match ver with
  | [] => []
  | _ => str "$v=" ++ ver
  end.

Definition render (id ver : gostring) (ps : list PHCParameter)
           (s64 h64 : gostring) : gostring :=
  "$"%char :: id ++ render_version ver ++ render_params ps
  ++ render_salt_hash s64 h64.

(** A group takes part in the match when its text is not empty. *)
Definition put (i : nat) (v : gostring) (l : list gostring) : list gostring :=
  match v with
  | [] => l
  | _ => set_cap i v l
  end.

Definition capture (i : nat) (v : gostring) (st : state) : state :=
  mkState (pos st) (rest st) (set_cap i v (caps st)).

Definition KE : re := Cat re_salt_hash Eot.
Definition KP : re := Cat re_params KE.
Definition KV : re := Cat re_version KP.

(** The text that follows a segment: nothing, or the next dollar sign. *)
Definition boundary (s : gostring) : Prop :=
  match s with
  | [] => True
  | x :: _ => x = "$"%char
  end.

(** The one encoding that reads two ways: no version and a single
    parameter named v with a value of digits only. *)
Definition ambiguous (ver : gostring) (ps : list PHCParameter) : bool :=
  match ver, ps with
  | [], [p] => string_eqb (Name p) (str "v") && forallb digit_char (Value p)
  | _, _ => false
  end.

Definition submatches (id ver : gostring) (ps : list PHCParameter)
           (s64 h64 : gostring) : list gostring :=
  [render id ver ps s64 h64; id; ver; write_params 0 ps; s64; h64].

(** What [UnmarshalText] does with the submatches. *)
Definition build (submatches : list gostring) : result Format :=
  let sub := fun i => nth i submatches [] in
  params <- (if (0 <? length (sub 3%nat))%nat
             then parse_params (Strings.Split (sub 3%nat) ","%char)
             else Ok []) ;;
  if (0 <? length (sub 4%nat))%nat then
    salt <- map_err SaltDecodingError (DecodeString (sub 4%nat)) ;;
    if (0 <? length (sub 5%nat))%nat then
      hash <- map_err HashDecodingError (DecodeString (sub 5%nat)) ;;
      Ok (mkFormat (sub 1%nat) (sub 2%nat) params salt hash)
    else Ok (mkFormat (sub 1%nat) (sub 2%nat) params salt [])
  else Ok (mkFormat (sub 1%nat) (sub 2%nat) params [] []).

(** A record the grammar can carry. *)
Definition valid_Format (f : Format) : bool :=
  nonempty (ID f) && (length (ID f) <=? 32)%nat && forallb name_char (ID f)
  && forallb digit_char (Version f)
  && forallb valid_param (Params f)
  && (nonempty (Salt f) || negb (nonempty (Hash f))).

(** Submatch [i] of a text. *)
Definition segment (i : nat) (s : gostring) : gostring :=
  match FindStringSubmatch format s with
  | Some submatches => nth i submatches []
  | None => []
  end.

End Grammar.

Module Enumerations.

(** The values of six bits. *)
Definition sextets : list N := map N.of_nat (seq 0 64).

(** The decimal digits. *)
Definition digits : list N := map N.of_nat (seq 0 10).

End Enumerations.

(** ** The parameter binder and sample values *)
Module Argon2Spec.
Import PHC Argon2 Grammar.

(** Field values within the width of their Go type. *)
Definition uint_Parameters (p : Argon2Parameters) : bool :=
  (Memory p <? 2 ^ 32) && (Time p <? 2 ^ 32) && (Parallelism p <? 2 ^ 8)
  && (KeyLength p <? 2 ^ 32).

(** [Decode] after the checks of the identifier and of the version: the
    parameter list and the length of the hash. *)
Definition bind_params (decoded : Format) : result (Format * Argon2Parameters) :=
  match Params decoded with
  | [p0; p1; p2] =>
      if negb (string_eqb (Name p0) (str "m"))
         || negb (string_eqb (Name p1) (str "t"))
         || negb (string_eqb (Name p2) (str "p"))
      then Err ParametersOrder
      else
        memory <- map_err MemoryParameterError
                          (Strconv.ParseUint (Value p0) 32) ;;
        time <- map_err TimeParameterError
                        (Strconv.ParseUint (Value p1) 32) ;;
        parallelism <- map_err ParallelismParameterError
                               (Strconv.ParseUint (Value p2) 8) ;;
        if MaxUint32 <? N.of_nat (length (PHC.Hash decoded)) then
          Err (HashTooLong (length (PHC.Hash decoded)))
        else
          Ok (decoded,
              mkParameters (memory mod 2 ^ 32) (time mod 2 ^ 32)
                           (parallelism mod 2 ^ 8)
                           (N.of_nat (length (PHC.Hash decoded)) mod 2 ^ 32))
  | ps => Err (InvalidParameterCount (length ps))
  end.

(** The errors of the parameter list, in the words of the
    specification: a wrong count, wrong names or a wrong order, a value
    that does not parse at its width. *)
Definition schema_error (ps : list PHCParameter) : Prop :=
  length ps <> 3%nat
  \/ map Name ps <> [str "m"; str "t"; str "p"]
  \/ (exists p0 e, nth_error ps 0 = Some p0
                   /\ Strconv.ParseUint (Value p0) 32 = Err e)
  \/ (exists p1 e, nth_error ps 1 = Some p1
                   /\ Strconv.ParseUint (Value p1) 32 = Err e)
  \/ (exists p2 e, nth_error ps 2 = Some p2
                   /\ Strconv.ParseUint (Value p2) 8 = Err e).

(** [p] holds what the record [f] encodes: the three values of its
    parameter list and the length of its hash. *)
Definition decoded_from (f : Format) (p : Argon2Parameters) : Prop :=
  exists vm vt vp,
    Params f = [mkParameter (str "m") vm; mkParameter (str "t") vt;
                mkParameter (str "p") vp]
    /\ Strconv.ParseUint vm 32 = Ok (Memory p)
    /\ Strconv.ParseUint vt 32 = Ok (Time p)
    /\ Strconv.ParseUint vp 8 = Ok (Parallelism p)
    /\ KeyLength p = N.of_nat (length (PHC.Hash f)).

(** The record [Hash] encodes for a salt and a derived key. *)
Definition hashed_Format (p : Argon2Parameters) (salt derived : bytes) : Format :=
  mkFormat argon2ID (str "19")
           [mkParameter (str "m") (Strconv.FormatUint (Memory p));
            mkParameter (str "t") (Strconv.FormatUint (Time p));
            mkParameter (str "p") (Strconv.FormatUint (Parallelism p))]
           salt derived.

(** A key derivation function that returns on every input. *)
Definition KDF : Type := bytes -> bytes -> N -> N -> N -> N -> bytes.

(** A key derivation function that may panic ([None]), as the code
    calls it. *)
Definition PartialKDF : Type :=
  bytes -> bytes -> N -> N -> N -> N -> option bytes.

(** The call of a function that returns on every input. *)
Definition returning (IDKey : KDF) : PartialKDF :=
  fun password salt time memory threads keyLen =>
    Some (IDKey password salt time memory threads keyLen).

(** A key derivation function to run examples with: [keyLen] bytes, the
    bytes of the password, of the salt and of the three costs in turn. *)
Definition sample_KDF : KDF :=
  fun password salt time memory threads keyLen =>
  firstn (N.to_nat keyLen)
         (password ++ salt
          ++ [byte_of_N time; byte_of_N memory; byte_of_N threads]
          ++ repeat x00 (N.to_nat keyLen)).

(** [sample_KDF] behind the two checks of the library, which panics
    when the number of rounds or the degree of parallelism is less
    than 1. *)
Definition guarded_KDF : PartialKDF :=
  fun password salt time memory threads keyLen =>
    if (time <? 1) || (threads <? 1) then None
    else Some (sample_KDF password salt time memory threads keyLen).

(** A text with the identifier argon2id, the version 19 and the
    parameter list m=8,t=0,p=1. *)
Definition zero_time_text : gostring :=
  str "$argon2id$v=19$m=8,t=0,p=1$c2FsdA$aGFzaA".

(** The key [IsSame] derives again from a decoded record. *)
Definition rederived (IDKey : KDF) (password : gostring) (f : Format)
           (p : Argon2Parameters) : bytes :=
  IDKey (bytes_of_string password) (PHC.Salt f) (Time p) (Memory p)
        (Parallelism p) (KeyLength p).

(** The canonical example of the format. *)
Definition sample_text : gostring :=
  str "$argon2id$v=19$m=65536,t=2,p=1$c29tZXNhbHQ$CTFhFdXPJO1aFaMaO6Mm5c8y7cJHAph8ArZWb2GRPPc".

(** No version, one parameter named v with a value of digits. *)
Definition v_only : Format :=
  mkFormat (str "argon2id") [] [mkParameter (str "v") (str "19")] [] [].

(** What [sample_text] decodes to. *)
Definition sample_record : Format :=
  mkFormat (str "argon2id") (str "19")
           [mkParameter (str "m") (str "65536");
            mkParameter (str "t") (str "2");
            mkParameter (str "p") (str "1")]
           (bytes_of_string (str "somesalt"))
           [x09; x31; x61; x15; xd5; xcf; x24; xed; x5a; x15; xa3; x1a;
            x3b; xa3; x26; xe5; xcf; x32; xed; xc2; x47; x02; x98; x7c;
            x02; xb6; x56; x6f; x61; x91; x3c; xf7].

(** A well-formed argon2id record around a given hash. *)
Definition record_with_hash (hash : bytes) : Format :=
  mkFormat argon2ID (str "19")
           [mkParameter (str "m") (str "1"); mkParameter (str "t") (str "1");
            mkParameter (str "p") (str "1")]
           [x00] hash.

(** A hash of 2^32 bytes, one more than a 32-bit length holds. *)
Definition long_hash : bytes := repeat x00 (N.to_nat 4294967296).

Definition long_record : Format := record_with_hash long_hash.

End Argon2Spec.

(** ** The value of the comparison loop *)
Module SubtleSpec.

(** The value [v] after the loop [v |= x[i] ^ y[i]] over two slices of
    the same length. *)
Fixpoint accumulate (v : N) (x y : bytes) : N :=
  match x, y with
  | xi :: x', yi :: y' =>
      accumulate (N.lor v (N.lxor (Byte.to_N xi) (Byte.to_N yi))) x' y'
  | _, _ => v
  end.

End SubtleSpec.

(** ** The base64 segments *)
Module Segments.
Import Base64.

(** A byte of the standard alphabet. *)
Definition alphabet_char (c : ascii) : bool := negb (decodeMap c =? 0xff).

(** A text of bytes of the alphabet that does not end one byte into a
    group of four. *)
Definition base64_text (s : gostring) : bool :=
  forallb alphabet_char s && negb (length s mod 4 =? 1)%nat.

End Segments.

(** ** Sample values *)
Module Samples.
Import PHC.

Definition sample_text_short : gostring := str "$scrypt$ln=15,r=8$c2FsdA$aGFzaA".

(** What [sample_text_short] decodes to. *)
Definition sample_record_short : Format :=
  mkFormat (str "scrypt") []
           [mkParameter (str "ln") (str "15"); mkParameter (str "r") (str "8")]
           (bytes_of_string (str "salt")) (bytes_of_string (str "hash")).

End Samples.
(** * Facts about the regular-expression search *)
Module RegexpFacts.
Import Regexp RegexpSem.

Lemma extends_refl st : extends st st.
Proof. exists []. simpl. split; [reflexivity | lia]. Qed.

Lemma extends_trans a b c : extends a b -> extends b c -> extends a c.
Proof.
  intros [p [Hp Hq]] [p' [Hp' Hq']]. exists (p ++ p').
  rewrite Hp, Hp', app_assoc, length_app. split; [reflexivity | lia].
Qed.

Lemma extends_length a b : extends a b -> (length (rest b) <= length (rest a))%nat.
Proof. intros [p [Hp _]]. rewrite Hp, length_app. lia. Qed.

Lemma consumed_app st st' p :
  rest st = p ++ rest st' -> pos st' = (pos st + length p)%nat ->
  consumed st st' = p.
Proof.
  intros Hr Hp. unfold consumed. rewrite Hr, Hp.
  replace (pos st + length p - pos st)%nat with (length p + 0)%nat by lia.
  rewrite firstn_app_2. simpl. apply app_nil_r.
Qed.

Lemma iter_matches a :
  (forall st st', In st' (runs a st) -> matches a st st') ->
  forall fuel st st', In st' (iter (runs a) fuel st) -> matches (Star a) st st'.
Proof.
  intros IH. induction fuel as [|fuel IHf]; intros st st' Hin; simpl in Hin.
  - destruct Hin as [<- | []]. apply M_star_stop.
  - apply in_app_or in Hin. destruct Hin as [Hin | [<- | []]]; [|apply M_star_stop].
    apply in_flat_map in Hin. destruct Hin as [st1 [H1 H2]].
    destruct (Nat.ltb_spec (length (rest st1)) (length (rest st))) as [Hlt|]; [|destruct H2].
    eapply M_star_more; eauto.
Qed.

Lemma runs_matches r : forall st st', In st' (runs r st) -> matches r st st'.
Proof.
  induction r; intros st st' Hin; simpl in Hin.
  - destruct Hin as [<- | []]. constructor.
  - destruct (rest st) as [|x s] eqn:E; [destruct Hin|].
    destruct (Ascii.eqb_spec x c); [|destruct Hin].
    destruct Hin as [<- | []]. subst. now constructor.
  - destruct (rest st) as [|x s] eqn:E; [destruct Hin|].
    destruct (p x) eqn:Ep; [|destruct Hin].
    destruct Hin as [<- | []]. econstructor; eauto.
  - apply in_flat_map in Hin. destruct Hin as [st1 [H1 H2]].
    econstructor; eauto.
  - apply in_app_or in Hin. destruct Hin as [Hin | [<- | []]].
    + apply M_opt_take. auto.
    + apply M_opt_skip.
  - eapply iter_matches; eauto.
  - apply in_map_iff in Hin. destruct Hin as [st1 [<- H1]].
    constructor. auto.
  - destruct (pos st) eqn:E; [|destruct Hin].
    destruct Hin as [<- | []]. now constructor.
  - destruct (rest st) eqn:E; [|destruct Hin].
    destruct Hin as [<- | []]. now constructor.
Qed.

Lemma matches_extends r st st' : matches r st st' -> extends st st'.
Proof.
  induction 1; try apply extends_refl; try assumption;
    try (eapply extends_trans; eassumption).
  - exists [c]. simpl. split; [assumption | lia].
  - exists [x]. simpl. split; [assumption | lia].
Qed.

Lemma runs_extends r st st' : In st' (runs r st) -> extends st st'.
Proof. intros H. eapply matches_extends, runs_matches, H. Qed.

(** *** The first result of the search *)

Lemma runs_cat a b st : runs (Cat a b) st = flat_map (runs b) (runs a st).
Proof. reflexivity. Qed.

Lemma runs_opt a st : runs (Opt a) st = runs a st ++ [st].
Proof. reflexivity. Qed.

Lemma runs_star a st : runs (Star a) st = iter (runs a) (length (rest st)) st.
Proof. reflexivity. Qed.

Lemma runs_group i a st :
  runs (Group i a) st =
  map (fun st' => mkState (pos st') (rest st')
                          (set_cap i (consumed st st') (caps st')))
      (runs a st).
Proof. reflexivity. Qed.

Lemma leads_eps st : leads Eps st st.
Proof. now exists []. Qed.

Lemma leads_chr c st s : rest st = c :: s -> leads (Chr c) st (advance st s).
Proof. intros H. exists []. simpl. rewrite H, Ascii.eqb_refl. reflexivity. Qed.

Lemma leads_class p st x s :
  rest st = x :: s -> p x = true -> leads (Class p) st (advance st s).
Proof. intros H Hp. exists []. simpl. rewrite H, Hp. reflexivity. Qed.

Lemma leads_cat a b st st1 st2 :
  leads a st st1 -> leads b st1 st2 -> leads (Cat a b) st st2.
Proof.
  intros [oa Ha] [ob Hb]. unfold leads. rewrite runs_cat, Ha. simpl.
  rewrite Hb. eexists. reflexivity.
Qed.

Lemma leads_opt_take a st st1 : leads a st st1 -> leads (Opt a) st st1.
Proof.
  intros [oa Ha]. unfold leads. rewrite runs_opt, Ha. eexists. reflexivity.
Qed.

Lemma leads_opt_skip a st : runs a st = [] -> leads (Opt a) st st.
Proof.
  intros Ha. unfold leads. rewrite runs_opt, Ha. eexists. reflexivity.
Qed.

Lemma flat_map_nil {A B} (f : A -> list B) l :
  (forall x, In x l -> f x = []) -> flat_map f l = [].
Proof.
  induction l as [|x l IH]; intros H; simpl; [reflexivity|].
  rewrite (H x (or_introl eq_refl)), IH; [reflexivity|].
  intros y Hy. apply H. now right.
Qed.

(** An optional part the rest of the pattern cannot follow is left out. *)
Lemma leads_cat_opt_skip a k st st' :
  (forall st1, In st1 (runs a st) -> runs k st1 = []) ->
  leads k st st' -> leads (Cat (Opt a) k) st st'.
Proof.
  intros Hfail [ok Hk]. unfold leads.
  rewrite runs_cat, runs_opt, flat_map_app. simpl.
  rewrite (flat_map_nil _ _ Hfail), Hk. eexists. reflexivity.
Qed.

Lemma leads_group i a st st1 :
  leads a st st1 ->
  leads (Group i a) st
        (mkState (pos st1) (rest st1) (set_cap i (consumed st st1) (caps st1))).
Proof.
  intros [oa Ha]. unfold leads. rewrite runs_group, Ha. eexists. reflexivity.
Qed.

Lemma leads_bot st : pos st = O -> leads Bot st st.
Proof. intros H. exists []. simpl. now rewrite H. Qed.

Lemma leads_eot st : rest st = [] -> leads Eot st st.
Proof. intros H. exists []. simpl. now rewrite H. Qed.

Lemma iter_fuel step : forall fuel1 fuel2 st,
  (length (rest st) <= fuel1)%nat -> (length (rest st) <= fuel2)%nat ->
  iter step fuel1 st = iter step fuel2 st.
Proof.
  induction fuel1 as [|f1 IH]; intros [|f2] st H1 H2; simpl; try reflexivity.
  - assert (E : flat_map (fun st' => if (length (rest st') <? length (rest st))%nat
                                     then iter step f2 st' else []) (step st) = []).
    { apply flat_map_nil. intros x _.
      destruct (Nat.ltb_spec (length (rest x)) (length (rest st))); [lia | reflexivity]. }
    now rewrite E.
  - assert (E : flat_map (fun st' => if (length (rest st') <? length (rest st))%nat
                                     then iter step f1 st' else []) (step st) = []).
    { apply flat_map_nil. intros x _.
      destruct (Nat.ltb_spec (length (rest x)) (length (rest st))); [lia | reflexivity]. }
    now rewrite E.
  - f_equal. apply flat_map_ext. intros x.
    destruct (Nat.ltb_spec (length (rest x)) (length (rest st))); [|reflexivity].
    apply IH; lia.
Qed.

(** One more round of a repetition, when the round reads something. *)
Lemma leads_star_more a st st1 st2 :
  leads a st st1 -> (length (rest st1) < length (rest st))%nat ->
  leads (Star a) st1 st2 -> leads (Star a) st st2.
Proof.
  intros [oa Ha] Hlt [os Hs]. unfold leads. rewrite runs_star in *.
  destruct (length (rest st)) as [|n] eqn:E; [lia|].
  simpl. rewrite Ha. simpl. rewrite E.
  assert (Hlt' : (length (rest st1) <? S n)%nat = true)
    by (apply Nat.ltb_lt; lia).
  rewrite Hlt'. rewrite (iter_fuel (runs a) n (length (rest st1)) st1) by lia.
  rewrite Hs. eexists. reflexivity.
Qed.

Lemma leads_star_stop a st : runs a st = [] -> leads (Star a) st st.
Proof.
  intros Ha. unfold leads. rewrite runs_star.
  destruct (length (rest st)); simpl.
  - now exists [].
  - rewrite Ha. now exists [].
Qed.

(** The search returns the first result at the first offset that has one. *)
Lemma search_found r p s st' :
  leads r (mkState p s (repeat [] (S (groups r)))) st' ->
  search r p s
  = Some (set_cap 0 (consumed (mkState p s (repeat [] (S (groups r)))) st')
                  (caps st')).
Proof.
  intros [others H]. destruct s; unfold search; fold search; now rewrite H.
Qed.

(** *** Runs of one character class *)

Lemma skip_nil st : skip st [] (rest st) = st.
Proof. destruct st. unfold skip. simpl. f_equal. lia. Qed.

Lemma skip_cons st x p s :
  skip (advance st (p ++ s)) p s = skip st (x :: p) s.
Proof. unfold skip, advance. simpl. f_equal. lia. Qed.

Lemma skip_skip st p q s t : skip (skip st p t) q s = skip st (p ++ q) s.
Proof. unfold skip. simpl. rewrite length_app. f_equal. lia. Qed.

Lemma runs_class_stops cls st :
  stops cls (rest st) -> runs (Class cls) st = [].
Proof.
  unfold stops. simpl. destruct (rest st) as [|x s]; [reflexivity|].
  now intros ->.
Qed.

Lemma leads_star_class cls p : forall s st,
  forallb cls p = true -> stops cls s -> rest st = p ++ s ->
  leads (Star (Class cls)) st (skip st p s).
Proof.
  induction p as [|x p IH]; intros s st Hp Hs Hr; simpl in *.
  - subst s. rewrite skip_nil. apply leads_star_stop.
    now apply runs_class_stops.
  - apply andb_prop in Hp. destruct Hp as [Hx Hp].
    apply leads_star_more with (st1 := advance st (p ++ s)).
    + now apply leads_class with (x := x).
    + rewrite Hr. simpl. lia.
    + rewrite <- skip_cons. now apply IH.
Qed.

Lemma leads_plus_class cls x p s st :
  forallb cls (x :: p) = true -> stops cls s -> rest st = (x :: p) ++ s ->
  leads (Plus (Class cls)) st (skip st (x :: p) s).
Proof.
  intros Hp Hs Hr. simpl in Hp. apply andb_prop in Hp. destruct Hp as [Hx Hp].
  unfold Plus. apply leads_cat with (st1 := advance st (p ++ s)).
  - now apply leads_class with (x := x).
  - rewrite <- skip_cons. now apply leads_star_class.
Qed.

Lemma leads_upto_class cls n : forall p s st,
  (length p <= n)%nat ->
  forallb cls p = true -> stops cls s -> rest st = p ++ s ->
  leads (UpTo (Class cls) n) st (skip st p s).
Proof.
  induction n as [|n IH]; intros p s st Hn Hp Hs Hr; simpl.
  - destruct p; [|simpl in Hn; lia]. simpl in Hr. subst s.
    rewrite skip_nil. apply leads_eps.
  - destruct p as [|x p]; simpl in *.
    + subst s. rewrite skip_nil. apply leads_opt_skip.
      rewrite runs_cat, runs_class_stops by assumption. reflexivity.
    + apply andb_prop in Hp. destruct Hp as [Hx Hp].
      apply leads_opt_take.
      apply leads_cat with (st1 := advance st (p ++ s)).
      * now apply leads_class with (x := x).
      * rewrite <- skip_cons. apply IH; auto. lia.
Qed.

Lemma leads_rep1_class cls n x p s st :
  (length (x :: p) <= n)%nat ->
  forallb cls (x :: p) = true -> stops cls s -> rest st = (x :: p) ++ s ->
  leads (Rep1 (Class cls) n) st (skip st (x :: p) s).
Proof.
  intros Hn Hp Hs Hr. simpl in Hp, Hn.
  apply andb_prop in Hp. destruct Hp as [Hx Hp].
  unfold Rep1. apply leads_cat with (st1 := advance st (p ++ s)).
  - now apply leads_class with (x := x).
  - rewrite <- skip_cons. apply leads_upto_class; auto. lia.
Qed.

Lemma leads_lit l : forall s st,
  rest st = l ++ s -> leads (Lit l) st (skip st l s).
Proof.
  induction l as [|c l IH]; intros s st Hr; simpl in *.
  - subst s. rewrite skip_nil. apply leads_eps.
  - apply leads_cat with (st1 := advance st (l ++ s)).
    + now apply leads_chr.
    + rewrite <- skip_cons. now apply IH.
Qed.

(** The converse direction: what a match of such a run has read. *)
Lemma matches_cat_inv a b st st' :
  matches (Cat a b) st st' ->
  exists st1, matches a st st1 /\ matches b st1 st'.
Proof. inversion 1; subst. eauto. Qed.

Lemma matches_opt_inv a st st' :
  matches (Opt a) st st' -> matches a st st' \/ st' = st.
Proof. inversion 1; subst; auto. Qed.

Lemma matches_group_inv i a st st' :
  matches (Group i a) st st' ->
  exists st1, matches a st st1 /\
    st' = mkState (pos st1) (rest st1) (set_cap i (consumed st st1) (caps st1)).
Proof. inversion 1; subst. eauto. Qed.

Lemma matches_eps_inv st st' : matches Eps st st' -> st' = st.
Proof. inversion 1; subst; auto. Qed.

Lemma matches_bot_inv st st' : matches Bot st st' -> st' = st /\ pos st = O.
Proof. inversion 1; subst; auto. Qed.

Lemma matches_eot_inv st st' : matches Eot st st' -> st' = st /\ rest st = [].
Proof. inversion 1; subst; auto. Qed.

Lemma matches_class_inv cls st st' :
  matches (Class cls) st st' ->
  exists x, cls x = true /\ rest st = x :: rest st' /\ st' = skip st [x] (rest st').
Proof.
  inversion 1; subst. exists x. simpl. repeat split; auto.
  unfold skip, advance. simpl. f_equal. lia.
Qed.

Lemma matches_chr_inv c st st' :
  matches (Chr c) st st' ->
  rest st = c :: rest st' /\ st' = skip st [c] (rest st').
Proof.
  inversion 1; subst. simpl. split; auto.
  unfold skip, advance. simpl. f_equal. lia.
Qed.

Lemma matches_star_class cls st st' :
  matches (Star (Class cls)) st st' ->
  exists p, forallb cls p = true /\ rest st = p ++ rest st'
            /\ st' = skip st p (rest st').
Proof.
  intros H. remember (Star (Class cls)) as r eqn:Er.
  induction H; inversion Er; subst.
  - exists []. simpl. now rewrite skip_nil.
  - clear IHmatches1. destruct (IHmatches2 eq_refl) as [p [Hp [Hr Hs]]].
    apply matches_class_inv in H. destruct H as [x [Hx [Hrx Hsx]]].
    exists (x :: p). simpl. rewrite Hx, Hp, Hrx, Hr. repeat split.
    rewrite Hs, Hsx. rewrite skip_skip. reflexivity.
Qed.

Lemma matches_plus_class cls st st' :
  matches (Plus (Class cls)) st st' ->
  exists x p, forallb cls (x :: p) = true /\ rest st = (x :: p) ++ rest st'
              /\ st' = skip st (x :: p) (rest st').
Proof.
  unfold Plus. intros H. apply matches_cat_inv in H. destruct H as [st1 [H3 H5]].
  apply matches_class_inv in H3. destruct H3 as [x [Hx [Hrx Hsx]]].
  apply matches_star_class in H5. destruct H5 as [p [Hp [Hr Hs]]].
  exists x, p. simpl. rewrite Hx, Hp, Hrx, Hr. repeat split.
  rewrite Hs, Hsx, skip_skip. reflexivity.
Qed.

Lemma matches_upto_class cls n : forall st st',
  matches (UpTo (Class cls) n) st st' ->
  exists p, (length p <= n)%nat /\ forallb cls p = true
            /\ rest st = p ++ rest st' /\ st' = skip st p (rest st').
Proof.
  induction n as [|n IH]; intros st st' H; simpl in H.
  - apply matches_eps_inv in H. subst. exists []. simpl. rewrite skip_nil. auto.
  - apply matches_opt_inv in H. destruct H as [H | ->].
    + apply matches_cat_inv in H. destruct H as [st1 [H4 H6]].
      apply matches_class_inv in H4. destruct H4 as [x [Hx [Hrx Hsx]]].
      apply IH in H6. destruct H6 as [p [Hn [Hp [Hr Hs]]]].
      exists (x :: p). simpl. rewrite Hx, Hp, Hrx, Hr. repeat split; [lia|].
      rewrite Hs, Hsx, skip_skip. reflexivity.
    + exists []. simpl. rewrite skip_nil. repeat split; auto. lia.
Qed.

Lemma matches_rep1_class cls n st st' :
  matches (Rep1 (Class cls) n) st st' ->
  exists x p, (length (x :: p) <= S (pred n))%nat /\ forallb cls (x :: p) = true
              /\ rest st = (x :: p) ++ rest st'
              /\ st' = skip st (x :: p) (rest st').
Proof.
  unfold Rep1. intros H. apply matches_cat_inv in H. destruct H as [st1 [H3 H5]].
  apply matches_class_inv in H3. destruct H3 as [x [Hx [Hrx Hsx]]].
  apply matches_upto_class in H5. destruct H5 as [p [Hn [Hp [Hr Hs]]]].
  exists x, p. simpl. rewrite Hx, Hp, Hrx, Hr. repeat split; [lia|].
  rewrite Hs, Hsx, skip_skip. reflexivity.
Qed.

Lemma matches_lit l : forall st st',
  matches (Lit l) st st' ->
  rest st = l ++ rest st' /\ st' = skip st l (rest st').
Proof.
  induction l as [|c l IH]; intros st st' H; simpl in H.
  - apply matches_eps_inv in H. subst. simpl. now rewrite skip_nil.
  - apply matches_cat_inv in H. destruct H as [st1 [H3 H5]].
    apply matches_chr_inv in H3. destruct H3 as [Hrx Hsx].
    apply IH in H5. destruct H5 as [Hr Hs].
    simpl. rewrite Hrx, Hr. split; [reflexivity|].
    rewrite Hs, Hsx, skip_skip. reflexivity.
Qed.

End RegexpFacts.

(** * Facts about the PHC grammar *)
Module PHCFacts.
Import Regexp RegexpSem RegexpFacts PHC Grammar.

(** *** Characters *)

Ltac all_ascii x :=
  destruct x as [[] [] [] [] [] [] [] []]; vm_compute; try reflexivity;
  try discriminate; try (intros; discriminate); auto.

Lemma digit_is_value x : digit_char x = true -> value_char x = true.
Proof. all_ascii x. Qed.

Lemma name_is_value x : name_char x = true -> value_char x = true.
Proof. all_ascii x. Qed.

Lemma value_not_dollar x : value_char x = true -> x <> "$"%char.
Proof. all_ascii x. Qed.

Lemma value_not_equals x : value_char x = true -> x <> "="%char.
Proof. all_ascii x. Qed.

Lemma value_not_comma x : value_char x = true -> x <> ","%char.
Proof. all_ascii x. Qed.

Lemma forallb_impl {A} (f g : A -> bool) l :
  (forall x, f x = true -> g x = true) ->
  forallb f l = true -> forallb g l = true.
Proof.
  intros H. induction l as [|x l IH]; simpl; [reflexivity|].
  intros Hl. apply andb_prop in Hl. destruct Hl as [Hx Hl].
  now rewrite (H x Hx), IH.
Qed.

Lemma forallb_not_in {A} (f : A -> bool) l c :
  f c = false -> forallb f l = true -> ~ In c l.
Proof.
  intros Hc Hl Hin. rewrite forallb_forall in Hl. apply Hl in Hin. congruence.
Qed.

(** *** The segments of an encoded string *)

Lemma write_params_succ ps : forall i, write_params (S i) ps = write_params 1 ps.
Proof.
  induction ps as [|p ps IH]; intros i; simpl; [reflexivity|].
  now rewrite (IH (S i)), (IH 1%nat).
Qed.

Lemma write_params_0 p ps :
  write_params 0 (p :: ps) = param_text p ++ write_params 1 ps.
Proof. unfold param_text. simpl. now rewrite <- app_assoc. Qed.

Lemma write_params_1 p ps :
  write_params 1 (p :: ps) = ","%char :: param_text p ++ write_params 1 ps.
Proof.
  unfold param_text. simpl. now rewrite write_params_succ, <- app_assoc.
Qed.

Lemma advance_skip st c s : advance st s = skip st [c] s.
Proof. unfold advance, skip. simpl. f_equal. lia. Qed.

Lemma leads_chr_skip c st s :
  rest st = c :: s -> leads (Chr c) st (skip st [c] s).
Proof. intros H. rewrite <- advance_skip. now apply leads_chr. Qed.

Lemma consumed_skip st p s : rest st = p ++ s -> consumed st (skip st p s) = p.
Proof. intros H. apply consumed_app; simpl; auto. Qed.

Lemma leads_group_skip i a st p s :
  rest st = p ++ s -> leads a st (skip st p s) ->
  leads (Group i a) st (capture i p (skip st p s)).
Proof.
  intros Hr Ha. apply leads_group with (i := i) in Ha.
  now rewrite consumed_skip in Ha.
Qed.

Lemma format_eq : format = Cat Bot (Cat re_id KV).
Proof. reflexivity. Qed.

Lemma stops_nil cls : stops cls [].
Proof. exact I. Qed.

Lemma stops_dollar s : stops value_char ("$"%char :: s).
Proof. reflexivity. Qed.

Lemma runs_chr_nil c st : rest st = [] -> runs (Chr c) st = [].
Proof. intros H. simpl. now rewrite H. Qed.

Lemma runs_chr_other c x s st :
  rest st = x :: s -> x <> c -> runs (Chr c) st = [].
Proof.
  intros H Hx. simpl. rewrite H.
  destruct (Ascii.eqb_spec x c); [contradiction | reflexivity].
Qed.

(** *** Completeness: the salt and hash part *)
Lemma leads_salt_hash s64 h64 st :
  forallb value_char s64 = true -> forallb value_char h64 = true ->
  (s64 = [] -> h64 = []) ->
  rest st = render_salt_hash s64 h64 ->
  exists st', leads KE st st' /\ rest st' = []
              /\ caps st' = put 5 h64 (put 4 s64 (caps st)).
Proof.
  intros Hs Hh Hsh Hr. unfold KE, re_salt_hash.
  destruct s64 as [|x s64].
  - rewrite (Hsh eq_refl). simpl in Hr. exists st. repeat split; auto.
    apply leads_cat with (st1 := st).
    + apply leads_opt_skip. rewrite runs_cat, runs_chr_nil by assumption.
      reflexivity.
    + now apply leads_eot.
  - destruct h64 as [|y h64]; simpl in Hr.
    + eexists. split.
      { eapply leads_cat.
        - apply leads_opt_take.
          eapply leads_cat; [apply leads_chr_skip; eassumption|].
          eapply leads_cat.
          + apply leads_group_skip with (p := x :: s64) (s := []);
              [simpl; now rewrite app_nil_r|].
            apply leads_plus_class; auto using stops_nil;
              try (simpl; now rewrite app_nil_r).
          + apply leads_opt_skip. rewrite runs_cat, runs_chr_nil; reflexivity.
        - apply leads_eot. reflexivity. }
      split; reflexivity.
    + eexists. split.
      { eapply leads_cat.
        - apply leads_opt_take.
          eapply leads_cat; [apply leads_chr_skip; eassumption|].
          eapply leads_cat.
          + apply leads_group_skip
              with (p := x :: s64) (s := "$"%char :: y :: h64); [reflexivity|].
            apply leads_plus_class; auto using stops_dollar.
          + apply leads_opt_take.
            eapply leads_cat; [apply leads_chr_skip; reflexivity|].
            apply leads_group_skip with (p := y :: h64) (s := []);
              [simpl; now rewrite app_nil_r|].
            apply leads_plus_class; auto using stops_nil;
              try (simpl; now rewrite app_nil_r).
        - apply leads_eot. reflexivity. }
      split; reflexivity.
Qed.

Lemma boundary_salt_hash s64 h64 : boundary (render_salt_hash s64 h64).
Proof. destruct s64; simpl; auto. Qed.

Lemma boundary_params ps s : boundary s -> boundary (render_params ps ++ s).
Proof. destruct ps; simpl; auto. Qed.

Lemma boundary_stops cls s :
  cls "$"%char = false -> boundary s -> stops cls s.
Proof. destruct s as [|x s]; simpl; auto. now intros H ->. Qed.

Lemma no_equals_salt_hash s64 h64 :
  forallb value_char s64 = true -> forallb value_char h64 = true ->
  ~ In "="%char (render_salt_hash s64 h64).
Proof.
  intros Hs Hh. unfold render_salt_hash.
  assert (Es : ~ In "="%char s64)
    by (apply forallb_not_in with (f := value_char); auto).
  assert (Eh : ~ In "="%char h64)
    by (apply forallb_not_in with (f := value_char); auto).
  destruct s64 as [|x s64]; [auto|].
  intros [H | H]; [discriminate|].
  apply in_app_or in H. destruct H as [H | H]; [auto|].
  destruct h64 as [|y h64]; [auto|].
  destruct H as [H | H]; [discriminate | auto].
Qed.

(** *** Completeness: the parameters *)
Lemma leads_param p s st :
  valid_param p = true -> stops value_char s ->
  rest st = param_text p ++ s ->
  leads re_param st (skip st (param_text p) s).
Proof.
  unfold valid_param, param_text. destruct p as [n v]. simpl.
  intros Hv Hs Hr.
  apply andb_prop in Hv. destruct Hv as [Hv Hvv].
  apply andb_prop in Hv. destruct Hv as [Hv Hvn].
  apply andb_prop in Hv. destruct Hv as [Hnn Hn].
  destruct n as [|n0 n]; [discriminate|].
  destruct v as [|v0 v]; [discriminate|].
  rewrite <- app_assoc in Hr. unfold re_param.
  replace (skip st ((n0 :: n) ++ "="%char :: v0 :: v) s)
    with (skip (skip (skip st (n0 :: n) ("="%char :: (v0 :: v) ++ s))
                     ["="%char] ((v0 :: v) ++ s))
               (v0 :: v) s)
    by (rewrite !skip_skip; reflexivity).
  eapply leads_cat.
  { apply leads_plus_class with (s := "="%char :: (v0 :: v) ++ s);
      [exact Hn | reflexivity | exact Hr]. }
  eapply leads_cat.
  { apply leads_chr_skip. reflexivity. }
  apply (leads_plus_class value_char v0 v s
           (skip (skip st (n0 :: n) ("="%char :: (v0 :: v) ++ s))
                 ["="%char] ((v0 :: v) ++ s)));
    [exact Hvv | exact Hs | reflexivity].
Qed.

Lemma stops_params_tail ps s :
  boundary s -> stops value_char (write_params 1 ps ++ s).
Proof.
  destruct ps as [|p ps].
  - simpl. now apply boundary_stops.
  - rewrite write_params_1. reflexivity.
Qed.

Lemma leads_params_tail ps : forall s st,
  forallb valid_param ps = true -> boundary s ->
  rest st = write_params 1 ps ++ s ->
  leads (Star (Chr ","%char ++ re_param)%re) st (skip st (write_params 1 ps) s).
Proof.
  induction ps as [|p ps IH]; intros s st Hv Hs Hr.
  - simpl in *. subst s. rewrite skip_nil. apply leads_star_stop.
    rewrite runs_cat. destruct (rest st) as [|x r] eqn:E.
    + now rewrite runs_chr_nil.
    + simpl in Hs. subst x.
      rewrite (runs_chr_other ","%char "$"%char r st);
        [reflexivity | assumption | discriminate].
  - simpl in Hv. apply andb_prop in Hv. destruct Hv as [Hp Hv].
    rewrite write_params_1 in *. simpl in Hr. rewrite <- app_assoc in Hr.
    eapply leads_star_more.
    + eapply leads_cat; [apply leads_chr_skip; eassumption|].
      apply (leads_param p (write_params 1 ps ++ s));
        [assumption | | reflexivity].
      now apply stops_params_tail.
    + simpl. rewrite Hr. simpl. rewrite !length_app. lia.
    + replace (skip st (","%char :: param_text p ++ write_params 1 ps) s)
        with (skip (skip (skip st [","%char]
                               (param_text p ++ write_params 1 ps ++ s))
                         (param_text p) (write_params 1 ps ++ s))
                   (write_params 1 ps) s)
        by (rewrite !skip_skip; reflexivity).
      now apply IH.
Qed.

Lemma matches_param_equals st st' :
  matches re_param st st' -> In "="%char (rest st).
Proof.
  unfold re_param. intros H.
  apply matches_cat_inv in H. destruct H as [st1 [H1 H2]].
  apply matches_plus_class in H1. destruct H1 as [x [p [_ [Hr _]]]].
  apply matches_cat_inv in H2. destruct H2 as [st2 [H2 _]].
  apply matches_chr_inv in H2. destruct H2 as [Hr2 _].
  rewrite Hr, Hr2. apply in_or_app. right. now left.
Qed.

Lemma leads_params ps s64 h64 st :
  forallb valid_param ps = true ->
  forallb value_char s64 = true -> forallb value_char h64 = true ->
  (s64 = [] -> h64 = []) ->
  rest st = render_params ps ++ render_salt_hash s64 h64 ->
  exists st', leads KP st st' /\ rest st' = []
              /\ caps st' = put 5 h64 (put 4 s64 (put 3 (write_params 0 ps) (caps st))).
Proof.
  intros Hp Hs Hh Hsh Hr. unfold KP, re_params.
  destruct ps as [|p ps].
  - simpl in Hr.
    destruct (leads_salt_hash s64 h64 st Hs Hh Hsh Hr) as [st' [Hl [Hr' Hc]]].
    exists st'. repeat split; auto.
    apply leads_cat_opt_skip; [|assumption].
    intros st1 Hin. exfalso. apply runs_matches in Hin.
    apply matches_cat_inv in Hin. destruct Hin as [st2 [H1 H2]].
    apply matches_chr_inv in H1. destruct H1 as [Hr1 Hs1].
    apply matches_group_inv in H2. destruct H2 as [st3 [H2 _]].
    apply matches_cat_inv in H2. destruct H2 as [st4 [H2 _]].
    apply matches_param_equals in H2.
    apply (no_equals_salt_hash s64 h64 Hs Hh).
    rewrite <- Hr, Hr1. right. rewrite Hs1 in H2. exact H2.
  - simpl in Hp. apply andb_prop in Hp. destruct Hp as [Hp Hps].
    unfold render_params in Hr. rewrite write_params_0 in *.
    simpl in Hr. rewrite <- app_assoc in Hr.
    set (T := render_salt_hash s64 h64) in *.
    assert (HT : boundary T) by apply boundary_salt_hash.
    set (st3 := capture 3 (param_text p ++ write_params 1 ps)
                        (skip (skip st ["$"%char]
                                    (param_text p ++ write_params 1 ps ++ T))
                              (param_text p ++ write_params 1 ps) T)).
    destruct (leads_salt_hash s64 h64 st3 Hs Hh Hsh eq_refl)
      as [st' [Hl [Hr' Hc]]].
    exists st'. split; [|split; [assumption|]].
    + eapply leads_cat; [|exact Hl].
      apply leads_opt_take.
      eapply leads_cat; [apply leads_chr_skip; eassumption|].
      apply leads_group_skip; [simpl; now rewrite <- app_assoc|].
      eapply leads_cat.
      * apply (leads_param p (write_params 1 ps ++ T));
          [assumption | | reflexivity].
        now apply stops_params_tail.
      * replace (skip (skip st ["$"%char] (param_text p ++ write_params 1 ps ++ T))
                      (param_text p ++ write_params 1 ps) T)
          with (skip (skip (skip st ["$"%char] (param_text p ++ write_params 1 ps ++ T))
                           (param_text p) (write_params 1 ps ++ T))
                     (write_params 1 ps) T)
          by now rewrite skip_skip.
        now apply leads_params_tail.
    + rewrite Hc. unfold st3. simpl.
      unfold param_text. destruct p as [n v]. simpl.
      unfold valid_param in Hp. simpl in Hp.
      destruct n; [discriminate|]. reflexivity.
Qed.

(** *** Completeness: the version *)

Lemma string_eqb_eq a b : string_eqb a b = true <-> a = b.
Proof.
  unfold string_eqb. destruct (list_eq_dec ascii_dec a b); split; auto.
  discriminate.
Qed.

Lemma string_eqb_refl a : string_eqb a a = true.
Proof. now apply string_eqb_eq. Qed.

Lemma KP_rejects st x s : rest st = x :: s -> x <> "$"%char -> runs KP st = [].
Proof.
  intros Hr Hx. unfold KP, re_params, KE, re_salt_hash.
  rewrite runs_cat, runs_opt, runs_cat, (runs_chr_other "$"%char x s st Hr Hx).
  cbn [flat_map app].
  rewrite runs_cat, runs_opt, runs_cat, (runs_chr_other "$"%char x s st Hr Hx).
  cbn [flat_map app]. simpl. now rewrite Hr.
Qed.

Lemma boundary_not_digit s c t :
  boundary s -> s = c :: t -> digit_char c = false.
Proof. intros Hb ->. simpl in Hb. now subst c. Qed.

Lemma version_branch_fails ps s64 h64 st st1 :
  forallb valid_param ps = true ->
  forallb value_char s64 = true -> forallb value_char h64 = true ->
  ambiguous [] ps = false ->
  rest st = render_params ps ++ render_salt_hash s64 h64 ->
  In st1 (runs (Lit (str "$v=") ++ Group 2 (Plus (Class digit_char)))%re st) ->
  runs KP st1 = [].
Proof.
  intros Hp Hs Hh Hamb Hr Hin. apply runs_matches in Hin.
  apply matches_cat_inv in Hin. destruct Hin as [st2 [H1 H2]].
  apply matches_lit in H1. destruct H1 as [Hr1 Hs1].
  apply matches_group_inv in H2. destruct H2 as [st3 [H2 Hs3]].
  apply matches_plus_class in H2. destruct H2 as [x [d [Hd [Hr2 _]]]].
  assert (HY : rest st1 = rest st3) by (rewrite Hs3; reflexivity).
  rewrite <- HY in Hr2. clear Hs3 HY st3.
  rewrite Hr2 in Hr1. clear Hr2 Hs1 st2. rewrite Hr in Hr1. clear Hr.
  simpl in Hr1.
  destruct ps as [|q ps].
  - (* no parameter: the text is the salt, which holds no equals sign *)
    exfalso. simpl in Hr1. unfold render_salt_hash in Hr1.
    destruct s64 as [|c0 s64]; [discriminate|].
    injection Hr1 as _ E. simpl in Hs.
    destruct s64 as [|c1 s64].
    + destruct h64; discriminate.
    + simpl in E. injection E as E1 _. subst c1.
      apply andb_prop in Hs. destruct Hs as [_ Hs].
      simpl in Hs. discriminate.
  - simpl in Hp. apply andb_prop in Hp. destruct Hp as [Hq Hps].
    unfold render_params in Hr1. rewrite write_params_0 in Hr1.
    unfold valid_param in Hq. unfold param_text in Hr1.
    destruct q as [n v]. simpl in Hq, Hr1.
    rewrite <- !app_assoc in Hr1. simpl in Hr1.
    set (R := write_params 1 ps ++ render_salt_hash s64 h64) in *.
    assert (HR : boundary R \/ exists t, R = ","%char :: t).
    { unfold R. destruct ps as [|q' ps'].
      - left. apply boundary_salt_hash.
      - right. rewrite write_params_1. eexists. reflexivity. }
    apply andb_prop in Hq. destruct Hq as [Hq Hvv].
    apply andb_prop in Hq. destruct Hq as [Hq Hvn].
    apply andb_prop in Hq. destruct Hq as [Hnn Hn].
    destruct n as [|n0 n]; [discriminate|].
    simpl in Hr1. injection Hr1 as En E.
    assert (En' : n = []).
    { destruct n as [|n1 n]; [reflexivity|]. exfalso.
      simpl in E. injection E as E1 _. subst n1.
      simpl in Hn. rewrite andb_comm in Hn. discriminate. }
    subst n n0. simpl in E. injection E as E.
    change (v ++ R = (x :: d) ++ rest st1) in E.
    assert (Hamb' : ps = [] -> forallb digit_char v = false).
    { intros ->. simpl in Hamb. exact Hamb. }
    clear Hamb.
    apply app_eq_app in E. destruct E as [l [[Ev EY] | [Ed ER]]].
    + destruct l as [|c l].
      * rewrite app_nil_r in Ev. simpl in EY. subst v.
        destruct HR as [HR | [t HR]].
        -- exfalso. unfold R in HR. destruct ps as [|q' ps'].
           ++ rewrite Hamb' in Hd by reflexivity. discriminate.
           ++ rewrite write_params_1 in HR. simpl in HR. discriminate.
        -- apply KP_rejects with (x := ","%char) (s := t);
             [congruence | discriminate].
      * apply KP_rejects with (x := c) (s := l ++ R); [exact EY|].
        apply value_not_dollar. subst v. rewrite forallb_app in Hvv.
        apply andb_prop in Hvv. destruct Hvv as [_ Hvv]. simpl in Hvv.
        apply andb_prop in Hvv. tauto.
    + destruct l as [|c l].
      * rewrite app_nil_r in Ed. simpl in ER. subst v.
        destruct HR as [HR | [t HR]].
        -- exfalso. unfold R in HR. destruct ps as [|q' ps'].
           ++ rewrite Hamb' in Hd by reflexivity. discriminate.
           ++ rewrite write_params_1 in HR. simpl in HR. discriminate.
        -- apply KP_rejects with (x := ","%char) (s := t);
             [congruence | discriminate].
      * exfalso.
        assert (Hc : digit_char c = true).
        { change (forallb digit_char (x :: d) = true) in Hd. rewrite Ed in Hd.
          rewrite forallb_app in Hd. apply andb_prop in Hd.
          destruct Hd as [_ Hd]. simpl in Hd. apply andb_prop in Hd. tauto. }
        destruct HR as [HR | [t HR]].
        -- rewrite (boundary_not_digit R c (l ++ rest st1) HR ER) in Hc. discriminate.
        -- rewrite ER in HR. injection HR as HR _. subst c. discriminate.
Qed.

Lemma leads_version ver ps s64 h64 st :
  forallb digit_char ver = true ->
  forallb valid_param ps = true ->
  forallb value_char s64 = true -> forallb value_char h64 = true ->
  (s64 = [] -> h64 = []) ->
  ambiguous ver ps = false ->
  rest st = render_version ver ++ render_params ps ++ render_salt_hash s64 h64 ->
  exists st', leads KV st st' /\ rest st' = []
              /\ caps st' = put 5 h64 (put 4 s64 (put 3 (write_params 0 ps)
                                                      (put 2 ver (caps st)))).
Proof.
  intros Hv Hp Hs Hh Hsh Hamb Hr. unfold KV, re_version.
  destruct ver as [|x ver].
  - simpl in Hr.
    destruct (leads_params ps s64 h64 st Hp Hs Hh Hsh Hr) as [st' [Hl [Hr' Hc]]].
    exists st'. repeat split; auto.
    apply leads_cat_opt_skip; [|assumption].
    intros st1 Hin.
    exact (version_branch_fails ps s64 h64 st st1 Hp Hs Hh Hamb Hr Hin).
  - set (T := render_params ps ++ render_salt_hash s64 h64) in *.
    set (st2 := capture 2 (x :: ver)
                        (skip (skip st (str "$v=") ((x :: ver) ++ T)) (x :: ver) T)).
    destruct (leads_params ps s64 h64 st2 Hp Hs Hh Hsh eq_refl)
      as [st' [Hl [Hr' Hc]]].
    exists st'. split; [|split; [assumption|exact Hc]].
    eapply leads_cat; [|exact Hl].
    apply leads_opt_take.
    eapply leads_cat; [apply leads_lit; exact Hr|].
    apply leads_group_skip; [reflexivity|].
    apply (leads_plus_class digit_char x ver T
             (skip st (str "$v=") ((x :: ver) ++ T))); [exact Hv| |reflexivity].
    apply boundary_stops; [reflexivity|].
    unfold T. apply boundary_params, boundary_salt_hash.
Qed.

(** *** Completeness of the pattern *)
Lemma set_cap_same i : forall l, nth i l [] = [] -> set_cap i [] l = l.
Proof.
  induction i as [|i IH]; intros [|h t] H; simpl in *; try reflexivity.
  - now subst h.
  - now rewrite IH.
Qed.

Lemma put_set_cap i v l : nth i l [] = [] -> put i v l = set_cap i v l.
Proof.
  intros H. destruct v; simpl; [|reflexivity]. now rewrite set_cap_same.
Qed.

Lemma nth_set_cap_other i j v : forall l,
  i <> j -> nth i (set_cap j v l) [] = nth i l [].
Proof.
  revert i. induction j as [|j IH]; intros [|i] [|h t] H; simpl;
    try reflexivity; try contradiction.
  apply IH. congruence.
Qed.

Lemma nth_put_other i j v l : i <> j -> nth i (put j v l) [] = nth i l [].
Proof.
  intros H. destruct v; simpl; [reflexivity|]. now apply nth_set_cap_other.
Qed.

Theorem format_complete id ver ps s64 h64 :
  nonempty id = true -> (length id <= 32)%nat ->
  forallb name_char id = true ->
  forallb digit_char ver = true ->
  forallb valid_param ps = true ->
  forallb value_char s64 = true -> forallb value_char h64 = true ->
  (s64 = [] -> h64 = []) ->
  ambiguous ver ps = false ->
  FindStringSubmatch format (render id ver ps s64 h64)
  = Some (submatches id ver ps s64 h64).
Proof.
  intros Hne Hlen Hid Hv Hp Hs Hh Hsh Hamb.
  destruct id as [|i0 id]; [discriminate|].
  set (text := render (i0 :: id) ver ps s64 h64).
  set (T := render_version ver ++ render_params ps ++ render_salt_hash s64 h64).
  set (st0 := mkState 0 text (repeat [] (S (groups format)))).
  set (st1 := capture 1 (i0 :: id)
                      (skip (skip st0 ["$"%char] ((i0 :: id) ++ T)) (i0 :: id) T)).
  destruct (leads_version ver ps s64 h64 st1 Hv Hp Hs Hh Hsh Hamb eq_refl)
    as [st' [Hl [Hr' Hc]]].
  assert (L : leads format st0 st').
  { rewrite format_eq. apply leads_cat with (st1 := st0).
    { now apply leads_bot. }
    eapply leads_cat; [|exact Hl]. unfold re_id.
    eapply leads_cat; [apply leads_chr_skip; reflexivity|].
    apply leads_group_skip; [reflexivity|].
    apply (leads_rep1_class name_char 32 i0 id T
             (skip st0 ["$"%char] ((i0 :: id) ++ T))); [exact Hlen|exact Hid| |reflexivity].
    apply boundary_stops; [reflexivity|].
    unfold T. destruct ver; simpl; [|reflexivity].
    apply boundary_params, boundary_salt_hash. }
  assert (Hin : In st' (runs format st0))
    by (destruct L as [others L]; rewrite L; now left).
  apply runs_extends in Hin. destruct Hin as [p [Hp1 Hp2]].
  unfold FindStringSubmatch. rewrite (search_found format 0 text st' L).
  fold st0. rewrite (consumed_app st0 st' p Hp1 Hp2).
  rewrite Hr', app_nil_r in Hp1. simpl in Hp1. subst p.
  rewrite Hc. unfold st1. simpl caps.
  rewrite !put_set_cap;
    rewrite ?nth_put_other, ?nth_set_cap_other by discriminate;
    reflexivity.
Qed.

End PHCFacts.

(** * Soundness of the pattern: what an accepted text looks like *)
Module PHCSound.
Import Regexp RegexpSem RegexpFacts PHC Grammar PHCFacts.

Lemma put_nonempty i v l : v <> [] -> put i v l = set_cap i v l.
Proof. destruct v; [contradiction | reflexivity]. Qed.

Lemma matches_group_plus_class i cls st st' :
  matches (Group i (Plus (Class cls))) st st' ->
  exists x p, forallb cls (x :: p) = true /\ rest st = (x :: p) ++ rest st'
              /\ st' = capture i (x :: p) (skip st (x :: p) (rest st')).
Proof.
  intros H. apply matches_group_inv in H. destruct H as [st1 [H ->]].
  apply matches_plus_class in H. destruct H as [x [p [Hp [Hr Hs]]]].
  remember (rest st1) as r eqn:Er. clear Er. subst st1.
  exists x, p. cbn [rest skip]. repeat split; auto.
  rewrite consumed_skip by exact Hr. reflexivity.
Qed.

Lemma matches_param st st' :
  matches re_param st st' ->
  exists p, valid_param p = true /\ rest st = param_text p ++ rest st'
            /\ st' = skip st (param_text p) (rest st').
Proof.
  unfold re_param. intros H.
  apply matches_cat_inv in H. destruct H as [st1 [H1 H]].
  apply matches_cat_inv in H. destruct H as [st2 [H2 H3]].
  apply matches_plus_class in H1. destruct H1 as [n0 [n [Hn [Hr1 Hs1]]]].
  apply matches_chr_inv in H2. destruct H2 as [Hr2 Hs2].
  apply matches_plus_class in H3. destruct H3 as [v0 [v [Hv [Hr3 Hs3]]]].
  exists (mkParameter (n0 :: n) (v0 :: v)). unfold valid_param, param_text.
  cbn [Name Value nonempty]. rewrite Hn, Hv. split; [reflexivity|].
  split.
  - rewrite Hr1, Hr2, Hr3. rewrite <- app_assoc. reflexivity.
  - rewrite Hs3, Hs2, Hs1. rewrite !skip_skip. reflexivity.
Qed.

Lemma matches_params_tail st st' :
  matches (Star (Chr ","%char ++ re_param)%re) st st' ->
  exists ps, forallb valid_param ps = true
             /\ rest st = write_params 1 ps ++ rest st'
             /\ st' = skip st (write_params 1 ps) (rest st').
Proof.
  intros H. remember (Star (Chr ","%char ++ re_param)%re) as r eqn:Er.
  induction H; inversion Er; subst.
  - exists []. simpl. now rewrite skip_nil.
  - clear IHmatches1. destruct (IHmatches2 eq_refl) as [ps [Hv [Hr Hs]]].
    apply matches_cat_inv in H. destruct H as [sa [Ha Hb]].
    apply matches_chr_inv in Ha. destruct Ha as [Hra Hsa].
    apply matches_param in Hb. destruct Hb as [p [Hp [Hrb Hsb]]].
    exists (p :: ps). simpl forallb. rewrite Hp, Hv. split; [reflexivity|].
    rewrite write_params_1. split.
    + rewrite Hra, Hrb, Hr. simpl. now rewrite <- app_assoc.
    + rewrite Hs, Hsb, Hsa. rewrite !skip_skip. reflexivity.
Qed.

Lemma sound_salt_hash st st' :
  matches KE st st' ->
  exists s64 h64,
    forallb value_char s64 = true /\ forallb value_char h64 = true
    /\ (s64 = [] -> h64 = [])
    /\ rest st = render_salt_hash s64 h64 /\ rest st' = []
    /\ caps st' = put 5 h64 (put 4 s64 (caps st)).
Proof.
  unfold KE, re_salt_hash. intros H.
  apply matches_cat_inv in H. destruct H as [st1 [H He]].
  apply matches_eot_inv in He. destruct He as [-> He].
  apply matches_opt_inv in H. destruct H as [H | ->].
  - apply matches_cat_inv in H. destruct H as [sa [Ha H]].
    apply matches_chr_inv in Ha. destruct Ha as [Hra Hsa].
    apply matches_cat_inv in H. destruct H as [sb [Hb H]].
    apply matches_group_plus_class in Hb.
    destruct Hb as [x [p [Hp [Hrb Hsb]]]].
    apply matches_opt_inv in H. destruct H as [H | ->].
    + apply matches_cat_inv in H. destruct H as [sc [Hc Hd]].
      apply matches_chr_inv in Hc. destruct Hc as [Hrc Hsc].
      apply matches_group_plus_class in Hd.
      destruct Hd as [y [q [Hq [Hrd Hsd]]]].
      exists (x :: p), (y :: q). repeat split; auto; try discriminate.
      * rewrite Hra, Hrb, Hrc, Hrd, He. simpl. now rewrite app_nil_r.
      * rewrite Hsd, Hsc, Hsb, Hsa. reflexivity.
    + exists (x :: p), []. repeat split; auto.
      * rewrite Hra, Hrb, He. reflexivity.
      * rewrite Hsb, Hsa. reflexivity.
  - exists [], []. repeat split; auto.
Qed.

Lemma sound_params st st' :
  matches KP st st' ->
  exists ps s64 h64,
    forallb valid_param ps = true
    /\ forallb value_char s64 = true /\ forallb value_char h64 = true
    /\ (s64 = [] -> h64 = [])
    /\ rest st = render_params ps ++ render_salt_hash s64 h64 /\ rest st' = []
    /\ caps st' = put 5 h64 (put 4 s64 (put 3 (write_params 0 ps) (caps st))).
Proof.
  unfold KP, re_params. intros H.
  apply matches_cat_inv in H. destruct H as [st1 [H Hk]].
  apply sound_salt_hash in Hk.
  destruct Hk as [s64 [h64 [Hs [Hh [Hsh [Hr [Hr' Hc]]]]]]].
  apply matches_opt_inv in H. destruct H as [H | ->].
  - apply matches_cat_inv in H. destruct H as [sa [Ha H]].
    apply matches_chr_inv in Ha. destruct Ha as [Hra Hsa].
    apply matches_group_inv in H. destruct H as [sb [H Hsb]].
    apply matches_cat_inv in H. destruct H as [sc [Hp Ht]].
    apply matches_param in Hp. destruct Hp as [p [Hp [Hrp Hsp]]].
    apply matches_params_tail in Ht. destruct Ht as [ps [Hv [Hrt Hst]]].
    assert (Hsb' : sb = skip sa (write_params 0 (p :: ps)) (rest sb)).
    { rewrite Hst at 1. rewrite Hsp. rewrite skip_skip.
      now rewrite write_params_0. }
    assert (Hrsa : rest sa = write_params 0 (p :: ps) ++ rest sb).
    { rewrite Hrp, Hrt, write_params_0. now rewrite <- app_assoc. }
    rewrite Hsb' in Hsb. rewrite consumed_skip in Hsb by exact Hrsa.
    exists (p :: ps), s64, h64. simpl forallb. rewrite Hp, Hv.
    repeat split; auto.
    + rewrite Hra, Hrsa. unfold render_params.
      replace (rest sb) with (rest st1) by (rewrite Hsb; reflexivity).
      now rewrite Hr.
    + rewrite Hc, Hsb. cbn [caps skip]. rewrite Hsa. cbn [caps skip].
      rewrite (put_nonempty 3 (write_params 0 (p :: ps))); [reflexivity|].
      rewrite write_params_0. unfold param_text, valid_param in *.
      destruct (Name p); [discriminate|]. discriminate.
  - exists [], s64, h64. repeat split; auto.
Qed.

Lemma sound_version st st' :
  matches KV st st' ->
  exists ver ps s64 h64,
    forallb digit_char ver = true
    /\ forallb valid_param ps = true
    /\ forallb value_char s64 = true /\ forallb value_char h64 = true
    /\ (s64 = [] -> h64 = [])
    /\ rest st = render_version ver ++ render_params ps
                 ++ render_salt_hash s64 h64
    /\ rest st' = []
    /\ caps st' = put 5 h64 (put 4 s64 (put 3 (write_params 0 ps)
                                            (put 2 ver (caps st)))).
Proof.
  unfold KV, re_version. intros H.
  apply matches_cat_inv in H. destruct H as [st1 [H Hk]].
  apply sound_params in Hk.
  destruct Hk as [ps [s64 [h64 [Hp [Hs [Hh [Hsh [Hr [Hr' Hc]]]]]]]]].
  apply matches_opt_inv in H. destruct H as [H | ->].
  - apply matches_cat_inv in H. destruct H as [sa [Ha Hb]].
    apply matches_lit in Ha. destruct Ha as [Hra Hsa].
    apply matches_group_plus_class in Hb.
    destruct Hb as [x [d [Hd [Hrb Hsb]]]].
    exists (x :: d), ps, s64, h64. repeat split; auto.
    + rewrite Hra, Hrb, Hr. reflexivity.
    + rewrite Hc, Hsb, Hsa. reflexivity.
  - exists [], ps, s64, h64. repeat split; auto.
Qed.

(** The pattern is anchored: no match starts after the first byte. *)
Lemma search_anchored : forall s p, search format (S p) s = None.
Proof.
  induction s as [|c s IH]; intros p; unfold search; fold search;
    rewrite format_eq, runs_cat; simpl runs at 2; simpl flat_map;
    [reflexivity | rewrite <- format_eq; apply IH].
Qed.

Theorem format_sound s sub :
  FindStringSubmatch format s = Some sub ->
  exists id ver ps s64 h64,
    nonempty id = true /\ (length id <= 32)%nat
    /\ forallb name_char id = true
    /\ forallb digit_char ver = true
    /\ forallb valid_param ps = true
    /\ forallb value_char s64 = true /\ forallb value_char h64 = true
    /\ (s64 = [] -> h64 = [])
    /\ s = render id ver ps s64 h64
    /\ sub = submatches id ver ps s64 h64.
Proof.
  unfold FindStringSubmatch. intros H.
  set (st0 := mkState 0 s (repeat [] (S (groups format)))).
  assert (E : exists st' others, runs format st0 = st' :: others
              /\ sub = set_cap 0 (consumed st0 st') (caps st')).
  { destruct s as [|c s]; unfold search in H; fold search in H; fold st0 in H;
      destruct (runs format st0) as [|st' others] eqn:Er.
    - discriminate.
    - injection H as <-. eauto.
    - rewrite search_anchored in H. discriminate.
    - injection H as <-. eauto. }
  destruct E as [st' [others [Er ->]]].
  assert (Hin : In st' (runs format st0)) by (rewrite Er; now left).
  pose proof (runs_extends _ _ _ Hin) as [w [Hw1 Hw2]].
  apply runs_matches in Hin. rewrite format_eq in Hin.
  apply matches_cat_inv in Hin. destruct Hin as [s1 [Hb Hin]].
  apply matches_bot_inv in Hb. destruct Hb as [-> _].
  apply matches_cat_inv in Hin. destruct Hin as [s2 [Hi Hk]].
  unfold re_id in Hi.
  apply matches_cat_inv in Hi. destruct Hi as [sa [Ha Hg]].
  apply matches_chr_inv in Ha. destruct Ha as [Hra Hsa].
  apply matches_group_inv in Hg. destruct Hg as [sb [Hg Hs2]].
  apply matches_rep1_class in Hg. destruct Hg as [x [p [Hlen [Hp [Hrb Hsb]]]]].
  rewrite Hsb in Hs2 at 1 2 3.
  rewrite consumed_skip in Hs2 by exact Hrb.
  apply sound_version in Hk.
  destruct Hk as [ver [ps [s64 [h64 [Hv [Hps [Hs [Hh [Hsh [Hr [Hr' Hc]]]]]]]]]]].
  exists (x :: p), ver, ps, s64, h64.
  assert (Htext : s = render (x :: p) ver ps s64 h64).
  { change s with (rest st0). rewrite Hra, Hrb. unfold render.
    replace (rest sb) with (rest s2) by (rewrite Hs2; reflexivity).
    rewrite Hr. reflexivity. }
  repeat split; auto.
  rewrite (consumed_app st0 st' w Hw1 Hw2).
  rewrite Hr', app_nil_r in Hw1. simpl in Hw1. subst w.
  assert (Hcb : caps sb = caps st0) by (rewrite Hsb, Hsa; reflexivity).
  rewrite Hc, Hs2. cbn [caps]. rewrite Hcb. unfold st0. cbn [caps].
  rewrite !put_set_cap;
    rewrite ?nth_put_other, ?nth_set_cap_other by discriminate;
    try reflexivity.
  unfold submatches. rewrite <- Htext. reflexivity.
Qed.

End PHCSound.

(** * Facts about the base64 codec *)
Module Base64Facts.
Import Base64 Enumerations.

Ltac Zify.zify_post_hook ::= Z.to_euclidean_division_equations.

(** *** Shifts and masks as arithmetic *)
Lemma land_mul_pow2_low a b k : b < 2 ^ k -> N.land (a * 2 ^ k) b = 0.
Proof.
  intros Hb. apply N.bits_inj. intros n. rewrite N.land_spec, N.bits_0.
  destruct (N.lt_ge_cases n k) as [Hn | Hn].
  - now rewrite N.mul_pow2_bits_low.
  - rewrite <- (N.mod_small b (2 ^ k)) by exact Hb.
    rewrite N.mod_pow2_bits_high by exact Hn. apply andb_false_r.
Qed.

Lemma lor_disjoint x a b k : x = a * 2 ^ k -> b < 2 ^ k -> N.lor x b = x + b.
Proof.
  intros -> Hb. pose proof (land_mul_pow2_low a b k Hb) as H.
  rewrite <- N.lxor_lor by exact H. symmetry. now apply N.add_nocarry_lxor.
Qed.

Lemma val3_eq n0 n1 n2 :
  n0 < 256 -> n1 < 256 -> n2 < 256 ->
  N.lor (N.lor (N.shiftl n0 16) (N.shiftl n1 8)) n2
  = n0 * 65536 + n1 * 256 + n2.
Proof.
  intros H0 H1 H2. rewrite !N.shiftl_mul_pow2.
  rewrite (lor_disjoint (n0 * 2 ^ 16) n0 (n1 * 2 ^ 8) 16) by (simpl; lia).
  rewrite (lor_disjoint _ (n0 * 2 ^ 8 + n1) n2 8) by (simpl; lia).
  simpl. lia.
Qed.

Lemma val2_eq n0 n1 :
  n0 < 256 -> n1 < 256 ->
  N.lor (N.shiftl n0 16) (N.shiftl n1 8) = n0 * 65536 + n1 * 256.
Proof.
  intros H0 H1. rewrite !N.shiftl_mul_pow2.
  rewrite (lor_disjoint (n0 * 2 ^ 16) n0 (n1 * 2 ^ 8) 16) by (simpl; lia).
  simpl. lia.
Qed.

Lemma dval_eq d0 d1 d2 d3 :
  d0 < 64 -> d1 < 64 -> d2 < 64 -> d3 < 64 ->
  N.lor (N.lor (N.lor (N.shiftl d0 18) (N.shiftl d1 12)) (N.shiftl d2 6)) d3
  = d0 * 262144 + d1 * 4096 + d2 * 64 + d3.
Proof.
  intros H0 H1 H2 H3. rewrite !N.shiftl_mul_pow2.
  rewrite (lor_disjoint (d0 * 2 ^ 18) d0 (d1 * 2 ^ 12) 18) by (simpl; lia).
  rewrite (lor_disjoint _ (d0 * 2 ^ 6 + d1) (d2 * 2 ^ 6) 12) by (simpl; lia).
  rewrite (lor_disjoint _ (d0 * 2 ^ 12 + d1 * 2 ^ 6 + d2) d3 6) by (simpl; lia).
  simpl. lia.
Qed.

Lemma sextet_eq val k : sextet val k = encode ((val / 2 ^ k) mod 64).
Proof.
  unfold sextet. rewrite N.shiftr_div_pow2.
  change 0x3F with (N.ones 6). now rewrite N.land_ones.
Qed.

Lemma byte_of_to_N b : byte_of_N (Byte.to_N b) = b.
Proof.
  unfold byte_of_N. pose proof (Byte.to_N_bounded b).
  rewrite N.mod_small by lia. now rewrite Byte.of_to_N.
Qed.

Lemma byte_of_N_eq n b : n mod 256 = Byte.to_N b -> byte_of_N n = b.
Proof. intros H. unfold byte_of_N. now rewrite H, Byte.of_to_N. Qed.

Lemma to_N_byte_of_N n : Byte.to_N (byte_of_N n) = n mod 256.
Proof.
  unfold byte_of_N. destruct (Byte.of_N (n mod 256)) as [b|] eqn:E.
  - now apply Byte.to_of_N.
  - exfalso. apply Byte.of_N_None_iff in E.
    pose proof (N.mod_upper_bound n 256). lia.
Qed.

(** *** The alphabet *)

Lemma in_sextets i : i < 64 -> In i sextets.
Proof.
  intros H. unfold sextets. rewrite <- (N2Nat.id i). apply in_map.
  apply in_seq. lia.
Qed.

Lemma alphabet_check :
  forallb (fun i => (decodeMap (encode i) =? i)
                    && PHC.value_char (encode i)) sextets = true.
Proof. vm_compute. reflexivity. Qed.

Lemma decodeMap_encode i : i < 64 -> decodeMap (encode i) = i.
Proof.
  intros H. pose proof alphabet_check as A. rewrite forallb_forall in A.
  specialize (A i (in_sextets i H)). apply andb_prop in A.
  now apply N.eqb_eq.
Qed.

Lemma encode_value_char i : i < 64 -> PHC.value_char (encode i) = true.
Proof.
  intros H. pose proof alphabet_check as A. rewrite forallb_forall in A.
  specialize (A i (in_sextets i H)). apply andb_prop in A. tauto.
Qed.

Lemma encode_decodeMap c :
  decodeMap c <> 0xff -> decodeMap c < 64 /\ encode (decodeMap c) = c.
Proof.
  destruct c as [[] [] [] [] [] [] [] []]; vm_compute;
    try (intros H; exfalso; apply H; reflexivity);
    intros _; split; reflexivity.
Qed.

Lemma decodeMap_value_newline c :
  PHC.value_char c = true -> is_newline c = false.
Proof.
  destruct c as [[] [] [] [] [] [] [] []]; vm_compute; try reflexivity;
    discriminate.
Qed.

(** *** One quantum *)
Lemma recompose w :
  w < 16777216 ->
  (w / 2 ^ 18) mod 64 * 262144 + (w / 2 ^ 12) mod 64 * 4096
  + (w / 2 ^ 6) mod 64 * 64 + (w / 2 ^ 0) mod 64 = w.
Proof. intros H. change (2 ^ 18) with 262144. change (2 ^ 12) with 4096.
  change (2 ^ 6) with 64. change (2 ^ 0) with 1. lia. Qed.

Lemma sextet_lt w k : (w / 2 ^ k) mod 64 < 64.
Proof. apply N.mod_upper_bound. discriminate. Qed.

Lemma quantum4 d0 d1 d2 d3 :
  d0 < 64 -> d1 < 64 -> d2 < 64 -> d3 < 64 ->
  quantum [d0; d1; d2; d3]
  = let v := d0 * 262144 + d1 * 4096 + d2 * 64 + d3 in
    [byte_of_N (v / 65536); byte_of_N (v / 256); byte_of_N v].
Proof.
  intros H0 H1 H2 H3. unfold quantum. cbn [nth length].
  rewrite dval_eq by assumption. rewrite !N.shiftr_div_pow2. reflexivity.
Qed.

Lemma quantum3 d0 d1 d2 :
  d0 < 64 -> d1 < 64 -> d2 < 64 ->
  quantum [d0; d1; d2]
  = let v := d0 * 262144 + d1 * 4096 + d2 * 64 in
    [byte_of_N (v / 65536); byte_of_N (v / 256)].
Proof.
  intros H0 H1 H2. unfold quantum. cbn [nth length].
  rewrite dval_eq by (assumption || reflexivity).
  rewrite !N.shiftr_div_pow2, N.add_0_r. reflexivity.
Qed.

Lemma quantum2 d0 d1 :
  d0 < 64 -> d1 < 64 ->
  quantum [d0; d1]
  = let v := d0 * 262144 + d1 * 4096 in [byte_of_N (v / 65536)].
Proof.
  intros H0 H1. unfold quantum. cbn [nth length].
  rewrite dval_eq by (assumption || reflexivity).
  rewrite !N.shiftr_div_pow2, !N.add_0_r. reflexivity.
Qed.

(** *** The decoder on bytes of the alphabet *)
Lemma decode_valid c s si q :
  decodeMap c <> 0xff ->
  decode (c :: s) si q
  = if (length (q ++ [decodeMap c]) =? 4)%nat
    then tl <- decode s (si + 1) [] ;; Ok (quantum (q ++ [decodeMap c]) ++ tl)
    else decode s (si + 1) (q ++ [decodeMap c]).
Proof.
  intros H. cbn [decode]. apply N.eqb_neq in H. now rewrite H.
Qed.

Lemma decode_encode_char i s si q :
  i < 64 ->
  decode (encode i :: s) si q
  = if (length (q ++ [i]) =? 4)%nat
    then tl <- decode s (si + 1) [] ;; Ok (quantum (q ++ [i]) ++ tl)
    else decode s (si + 1) (q ++ [i]).
Proof.
  intros H. rewrite decode_valid; rewrite (decodeMap_encode i H);
    [reflexivity | lia].
Qed.

Lemma list_ind3 {A} (P : list A -> Prop) :
  P [] -> (forall a, P [a]) -> (forall a b, P [a; b]) ->
  (forall a b c l, P l -> P (a :: b :: c :: l)) ->
  forall l, P l.
Proof.
  intros H0 H1 H2 H3.
  assert (H : forall l, P l /\ (forall a, P (a :: l))
                        /\ (forall a b, P (a :: b :: l))).
  { induction l as [|x l [IH0 [IH1 IH2]]]; repeat split; auto. }
  intros l. apply H.
Qed.

Lemma list_ind4 {A} (P : list A -> Prop) :
  P [] -> (forall a, P [a]) -> (forall a b, P [a; b]) ->
  (forall a b c, P [a; b; c]) ->
  (forall a b c d l, P l -> P (a :: b :: c :: d :: l)) ->
  forall l, P l.
Proof.
  intros H0 H1 H2 H3 H4.
  assert (H : forall l, P l /\ (forall a, P (a :: l))
                        /\ (forall a b, P (a :: b :: l))
                        /\ (forall a b c, P (a :: b :: c :: l))).
  { induction l as [|x l [IH0 [IH1 [IH2 IH3]]]]; repeat split; auto. }
  intros l. apply H.
Qed.

(** Decoding what was encoded gives the bytes back. *)
Theorem decode_EncodeToString : forall src si,
  decode (EncodeToString src) si [] = Ok src.
Proof.
  induction src as [| b0 | b0 b1 | b0 b1 b2 src IH] using list_ind3; intros si.
  - reflexivity.
  - pose proof (Byte.to_N_bounded b0) as B0.
    cbn [EncodeToString]. rewrite !sextet_eq, N.shiftl_mul_pow2.
    rewrite !decode_encode_char by apply sextet_lt. cbn [app length Nat.eqb].
    cbn [decode]. rewrite quantum2 by apply sextet_lt. cbv zeta.
    f_equal. f_equal. apply byte_of_N_eq.
    change (2 ^ 16) with 65536. change (2 ^ 18) with 262144.
    change (2 ^ 12) with 4096. lia.
  - pose proof (Byte.to_N_bounded b0) as B0.
    pose proof (Byte.to_N_bounded b1) as B1.
    cbn [EncodeToString]. rewrite val2_eq by lia. rewrite !sextet_eq.
    rewrite !decode_encode_char by apply sextet_lt. cbn [app length Nat.eqb].
    cbn [decode]. rewrite quantum3 by apply sextet_lt. cbv zeta.
    change (2 ^ 18) with 262144. change (2 ^ 12) with 4096.
    change (2 ^ 6) with 64.
    f_equal. f_equal; [|f_equal]; apply byte_of_N_eq; lia.
  - pose proof (Byte.to_N_bounded b0) as B0.
    pose proof (Byte.to_N_bounded b1) as B1.
    pose proof (Byte.to_N_bounded b2) as B2.
    cbn [EncodeToString]. rewrite val3_eq by lia. rewrite !sextet_eq.
    rewrite !decode_encode_char by apply sextet_lt. cbn [app length Nat.eqb].
    rewrite IH. cbn [bind]. rewrite quantum4 by apply sextet_lt. cbv zeta.
    rewrite recompose by lia.
    f_equal. cbn [app]. f_equal; [|f_equal; [|f_equal]]; apply byte_of_N_eq; lia.
Qed.

Corollary DecodeString_EncodeToString src :
  DecodeString (EncodeToString src) = Ok src.
Proof. apply decode_EncodeToString. Qed.

Lemma EncodeToString_value_char : forall src,
  forallb PHC.value_char (EncodeToString src) = true.
Proof.
  induction src as [| b0 | b0 b1 | b0 b1 b2 src IH] using list_ind3;
    cbn [EncodeToString forallb]; rewrite ?sextet_eq;
    rewrite ?encode_value_char by apply sextet_lt; auto.
Qed.

Lemma EncodeToString_nil src : EncodeToString src = [] -> src = [].
Proof. destruct src as [|b0 [|b1 [|b2 src]]]; [reflexivity|discriminate..]. Qed.

(** *** Encoding what was decoded *)

Lemma decode_invalid c s si q :
  decodeMap c = 0xff -> is_newline c = false ->
  decode (c :: s) si q = Err (CorruptInputError si).
Proof. intros H Hn. cbn [decode]. now rewrite H, Hn. Qed.

Ltac valid_char H c :=
  let E := fresh "E" in
  destruct (N.eq_dec (decodeMap c) 0xff) as [E | E];
  [ rewrite decode_invalid in H by assumption; discriminate
  | rewrite (decode_valid c) in H by exact E;
    let L := fresh "L" in
    let C := fresh "C" in
    destruct (encode_decodeMap c E) as [L C] ].

Lemma land_low a k : N.land a (N.ones k) = 0 -> a mod 2 ^ k = 0.
Proof. now rewrite N.land_ones. Qed.

Theorem EncodeToString_decode : forall s si b,
  forallb (fun c => negb (is_newline c)) s = true ->
  decode s si [] = Ok b ->
  canonical s = true ->
  EncodeToString b = s.
Proof.
  induction s as [| c0 | c0 c1 | c0 c1 c2 | c0 c1 c2 c3 s IH] using list_ind4;
    intros si b Hn H Hc; cbn [forallb] in Hn;
    repeat match type of Hn with
           | _ && _ = true =>
               let A := fresh "N" in
               apply andb_prop in Hn; destruct Hn as [A Hn];
               apply negb_true_iff in A
           end.
  - cbn in H. injection H as <-. reflexivity.
  - valid_char H c0. cbn in H. discriminate.
  - valid_char H c0. cbn [app length Nat.eqb] in H.
    valid_char H c1. cbn [app length Nat.eqb decode] in H.
    rewrite quantum2 in H by assumption. cbv zeta in H. injection H as <-.
    cbn [canonical] in Hc. apply N.eqb_eq in Hc.
    change 0xF with (N.ones 4) in Hc. apply land_low in Hc.
    change (2 ^ 4) with 16 in Hc.
    cbn [EncodeToString]. rewrite !sextet_eq, N.shiftl_mul_pow2.
    rewrite to_N_byte_of_N.
    change (2 ^ 16) with 65536. change (2 ^ 18) with 262144.
    change (2 ^ 12) with 4096.
    transitivity [encode (decodeMap c0); encode (decodeMap c1)];
      [|now rewrite C, C0].
    f_equal; [|f_equal]; f_equal; lia.
  - valid_char H c0. cbn [app length Nat.eqb] in H.
    valid_char H c1. cbn [app length Nat.eqb] in H.
    valid_char H c2. cbn [app length Nat.eqb decode] in H.
    rewrite quantum3 in H by assumption. cbv zeta in H. injection H as <-.
    cbn [canonical] in Hc. apply N.eqb_eq in Hc.
    change 0x3 with (N.ones 2) in Hc. apply land_low in Hc.
    change (2 ^ 2) with 4 in Hc.
    cbn [EncodeToString].
    rewrite val2_eq by (rewrite to_N_byte_of_N; apply N.mod_upper_bound; discriminate).
    rewrite !sextet_eq, !to_N_byte_of_N.
    change (2 ^ 18) with 262144. change (2 ^ 12) with 4096.
    change (2 ^ 6) with 64.
    transitivity [encode (decodeMap c0); encode (decodeMap c1);
                  encode (decodeMap c2)];
      [|now rewrite C, C0, C1].
    f_equal; [|f_equal; [|f_equal]]; f_equal; lia.
  - valid_char H c0. cbn [app length Nat.eqb] in H.
    valid_char H c1. cbn [app length Nat.eqb] in H.
    valid_char H c2. cbn [app length Nat.eqb] in H.
    valid_char H c3. cbn [app length Nat.eqb] in H.
    destruct (decode s (si + 1 + 1 + 1 + 1) []) as [tl | |] eqn:Et;
      cbn [bind] in H; try discriminate.
    rewrite quantum4 in H by assumption. cbv zeta in H. injection H as <-.
    cbn [canonical] in Hc. cbn [app EncodeToString].
    rewrite (IH _ tl Hn Et Hc).
    rewrite val3_eq by (rewrite to_N_byte_of_N; apply N.mod_upper_bound; discriminate).
    rewrite !sextet_eq, !to_N_byte_of_N.
    change (2 ^ 18) with 262144. change (2 ^ 12) with 4096.
    change (2 ^ 6) with 64. change (2 ^ 0) with 1.
    transitivity (encode (decodeMap c0) :: encode (decodeMap c1)
                  :: encode (decodeMap c2) :: encode (decodeMap c3) :: s);
      [|now rewrite C, C0, C1, C2].
    f_equal; [|f_equal; [|f_equal; [|f_equal]]]; f_equal; lia.
Qed.

End Base64Facts.

(** * The codec: decoding and encoding *)
Module CodecFacts.
Import Regexp RegexpSem RegexpFacts PHC Grammar PHCFacts PHCSound.
Import Base64 Base64Facts.

(** *** Splitting the parameter text *)
Lemma Split_no_sep sep : forall s, ~ In sep s -> Strings.Split s sep = [s].
Proof.
  induction s as [|c s IH]; intros H; simpl; [reflexivity|].
  destruct (Ascii.eqb_spec c sep) as [->|Hc].
  - exfalso. apply H. now left.
  - rewrite IH; [reflexivity|]. intros Hin. apply H. now right.
Qed.

Lemma Split_app sep t : forall s,
  ~ In sep s -> Strings.Split (s ++ sep :: t) sep = s :: Strings.Split t sep.
Proof.
  induction s as [|c s IH]; intros H; simpl.
  - now rewrite Ascii.eqb_refl.
  - destruct (Ascii.eqb_spec c sep) as [->|Hc].
    + exfalso. apply H. now left.
    + rewrite IH; [reflexivity|]. intros Hin. apply H. now right.
Qed.

Lemma name_not_equals x : name_char x = true -> x <> "="%char.
Proof. intros H. apply value_not_equals. now apply name_is_value. Qed.

Lemma name_not_comma x : name_char x = true -> x <> ","%char.
Proof. intros H. apply value_not_comma. now apply name_is_value. Qed.

Lemma forallb_neq (f : ascii -> bool) c l :
  (forall x, f x = true -> x <> c) -> forallb f l = true -> ~ In c l.
Proof.
  intros Hf Hl Hin. rewrite forallb_forall in Hl.
  apply (Hf c (Hl c Hin)). reflexivity.
Qed.

Lemma valid_param_parts p :
  valid_param p = true ->
  forallb name_char (Name p) = true /\ forallb value_char (Value p) = true.
Proof.
  unfold valid_param. intros H.
  apply andb_prop in H. destruct H as [H Hv].
  apply andb_prop in H. destruct H as [H _].
  apply andb_prop in H. destruct H as [_ Hn]. auto.
Qed.

Lemma param_text_no_comma p :
  valid_param p = true -> ~ In ","%char (param_text p).
Proof.
  intros H. destruct (valid_param_parts p H) as [Hn Hv].
  unfold param_text. intros Hin. apply in_app_or in Hin.
  destruct Hin as [Hin | [Hin | Hin]].
  - revert Hin. apply (forallb_neq name_char); auto using name_not_comma.
  - discriminate.
  - revert Hin. apply (forallb_neq value_char); auto using value_not_comma.
Qed.

Lemma Split_params_tail : forall ps a,
  forallb valid_param ps = true -> ~ In ","%char a ->
  Strings.Split (a ++ write_params 1 ps) ","%char = a :: map param_text ps.
Proof.
  induction ps as [|p ps IH]; intros a Hv Ha.
  - simpl. rewrite app_nil_r. now apply Split_no_sep.
  - simpl in Hv. apply andb_prop in Hv. destruct Hv as [Hp Hv].
    rewrite write_params_1, Split_app by exact Ha.
    rewrite IH; auto using param_text_no_comma.
Qed.

Lemma Split_params p ps :
  forallb valid_param (p :: ps) = true ->
  Strings.Split (write_params 0 (p :: ps)) ","%char = map param_text (p :: ps).
Proof.
  intros Hv. simpl in Hv. apply andb_prop in Hv. destruct Hv as [Hp Hv].
  rewrite write_params_0. apply Split_params_tail; auto using param_text_no_comma.
Qed.

Lemma Split_param p :
  valid_param p = true ->
  Strings.Split (param_text p) "="%char = [Name p; Value p].
Proof.
  intros H. destruct (valid_param_parts p H) as [Hn Hv].
  unfold param_text. rewrite Split_app.
  - rewrite Split_no_sep; [reflexivity|].
    apply (forallb_neq value_char); auto using value_not_equals.
  - apply (forallb_neq name_char); auto using name_not_equals.
Qed.

Lemma parse_params_texts : forall ps,
  forallb valid_param ps = true -> parse_params (map param_text ps) = Ok ps.
Proof.
  induction ps as [|p ps IH]; intros Hv; [reflexivity|].
  simpl in Hv. apply andb_prop in Hv. destruct Hv as [Hp Hv].
  cbn [map parse_params]. rewrite (Split_param p Hp), (IH Hv).
  destruct p. reflexivity.
Qed.

(** *** From the submatches to the record *)

Lemma UnmarshalText_ret_eq text :
  UnmarshalText_ret text
  = match FindStringSubmatch format (string_of_bytes text) with
    | None => Err (NotValidFormat (string_of_bytes text))
    | Some submatches => build submatches
    end.
Proof. reflexivity. Qed.

Lemma string_of_bytes_of_string s : string_of_bytes (bytes_of_string s) = s.
Proof.
  unfold string_of_bytes, bytes_of_string. rewrite map_map.
  rewrite <- (map_id s) at 2. apply map_ext. apply ascii_of_byte_of_ascii.
Qed.

Lemma Decode_eq raw :
  PHC.Decode raw
  = match FindStringSubmatch format raw with
    | None => Err (NotValidFormat raw)
    | Some submatches => build submatches
    end.
Proof.
  unfold PHC.Decode, UnmarshalText. rewrite UnmarshalText_ret_eq.
  rewrite string_of_bytes_of_string.
  destruct (FindStringSubmatch format raw) as [sub|]; [|reflexivity].
  destruct (build sub); reflexivity.
Qed.

Lemma params_of_text ps :
  forallb valid_param ps = true ->
  (if (0 <? length (write_params 0 ps))%nat
   then parse_params (Strings.Split (write_params 0 ps) ","%char)
   else Ok []) = Ok ps.
Proof.
  intros Hv. destruct ps as [|p ps]; [reflexivity|].
  rewrite (Split_params p ps Hv), (parse_params_texts _ Hv).
  destruct (0 <? length (write_params 0 (p :: ps)))%nat eqn:E; [reflexivity|].
  exfalso. simpl in Hv. apply andb_prop in Hv. destruct Hv as [Hp _].
  unfold valid_param in Hp. rewrite write_params_0 in E. unfold param_text in E.
  destruct (Name p); [discriminate|]. discriminate.
Qed.

(** The text of a record, by segments. *)
Lemma String_render id ver ps salt hash :
  String (mkFormat id ver ps salt hash)
  = render id ver ps (EncodeToString salt) (EncodeToString hash).
Proof.
  unfold String, render. cbn [ID Version Params Salt Hash].
  cbn [app]. f_equal. f_equal. f_equal; [|f_equal].
  - destruct ver; reflexivity.
  - destruct ps; reflexivity.
  - destruct salt as [|b0 salt]; [reflexivity|].
    assert (Es : exists x t, EncodeToString (b0 :: salt) = x :: t)
      by (destruct salt as [|b1 [|b2 salt]]; cbn [EncodeToString]; eauto).
    destruct Es as [x [t Es]]. rewrite Es. cbn [length Nat.ltb Nat.leb].
    unfold render_salt_hash. cbn [app]. f_equal. f_equal.
    destruct hash as [|h0 hash]; [reflexivity|].
    assert (Eh : exists y u, EncodeToString (h0 :: hash) = y :: u)
      by (destruct hash as [|h1 [|h2 hash]]; cbn [EncodeToString]; eauto).
    destruct Eh as [y [u Eh]]. rewrite Eh. reflexivity.
Qed.

Lemma segment_of_bytes b :
  (if (0 <? length (EncodeToString b))%nat
   then map_err SaltDecodingError (DecodeString (EncodeToString b))
   else Ok []) = Ok b.
Proof.
  rewrite DecodeString_EncodeToString.
  destruct (EncodeToString b) eqn:E; [|reflexivity].
  now rewrite (EncodeToString_nil b E).
Qed.

Theorem Decode_String_valid f :
  valid_Format f = true ->
  ambiguous (Version f) (Params f) = false ->
  PHC.Decode (String f) = Ok f.
Proof.
  destruct f as [id ver ps salt hash]. unfold valid_Format.
  cbn [ID Version Params Salt Hash]. intros Hv Hamb.
  repeat (apply andb_prop in Hv; let H := fresh "V" in destruct Hv as [Hv H]).
  assert (Hsh : salt = [] -> hash = []).
  { intros ->. destruct hash; [reflexivity | discriminate]. }
  apply Nat.leb_le in V3.
  rewrite (String_render id ver ps salt hash), Decode_eq.
  rewrite format_complete; auto using EncodeToString_value_char.
  - unfold build, submatches. cbn [nth].
    rewrite (params_of_text ps V0). cbn [bind].
    destruct (EncodeToString salt) as [|x t] eqn:Es.
    + apply EncodeToString_nil in Es. subst salt. now rewrite (Hsh eq_refl).
    + cbn [length Nat.ltb Nat.leb]. rewrite <- Es.
      rewrite DecodeString_EncodeToString. cbn [map_err bind].
      destruct (EncodeToString hash) as [|y u] eqn:Eh.
      * apply EncodeToString_nil in Eh. now subst hash.
      * cbn [length Nat.ltb Nat.leb]. rewrite <- Eh.
        now rewrite DecodeString_EncodeToString.
  - intros Es. apply EncodeToString_nil in Es. now rewrite (Hsh Es).
Qed.

(** *** Texts the decoder accepts *)

Lemma value_chars_no_newline s :
  forallb value_char s = true ->
  forallb (fun c => negb (is_newline c)) s = true.
Proof.
  apply forallb_impl. intros x Hx. now rewrite (decodeMap_value_newline x Hx).
Qed.

End CodecFacts.

(** * Facts about strconv and crypto/subtle *)
Module StrconvFacts.
Import Strconv Enumerations.

Ltac Zify.zify_post_hook ::= Z.to_euclidean_division_equations.

Lemma in_digits u : u < 10 -> In u digits.
Proof.
  intros H. unfold digits. rewrite <- (N2Nat.id u). apply in_map.
  apply in_seq. lia.
Qed.

Lemma digit_check :
  forallb (fun u => match digit (ascii_of_N (u + 48)) with
                    | Some d => d =? u
                    | None => false
                    end
                    && PHC.digit_char (ascii_of_N (u + 48))
                    && (negb (Ascii.eqb (ascii_of_N (u + 48)) "0"%char)
                        || (u =? 0)))
          digits = true.
Proof. vm_compute. reflexivity. Qed.

Lemma digit_facts u :
  u < 10 ->
  digit (ascii_of_N (u + 48)) = Some u
  /\ PHC.digit_char (ascii_of_N (u + 48)) = true
  /\ (ascii_of_N (u + 48) = "0"%char -> u = 0).
Proof.
  intros H. pose proof digit_check as A. rewrite forallb_forall in A.
  specialize (A u (in_digits u H)).
  apply andb_prop in A. destruct A as [A A3].
  apply andb_prop in A. destruct A as [A1 A2].
  destruct (digit (ascii_of_N (u + 48))) as [d|]; [|discriminate].
  apply N.eqb_eq in A1. subst d. repeat split; auto.
  intros E. rewrite E in A3. simpl in A3. now apply N.eqb_eq.
Qed.

(** One round of the parsing loop on a digit that fits. *)
Lemma parse_loop_digit u s n maxVal :
  u < 10 -> n * 10 + u <= maxVal -> maxVal < 2 ^ 64 ->
  parse_loop (ascii_of_N (u + 48) :: s) n maxVal
  = parse_loop s (n * 10 + u) maxVal.
Proof.
  intros Hu Hn Hm. cbn [parse_loop].
  destruct (digit_facts u Hu) as [-> _].
  change (2 ^ 64) with 18446744073709551616 in *.
  unfold maxUint64.
  destruct (N.leb_spec 10 u); [lia|].
  destruct (N.leb_spec (18446744073709551615 / 10 + 1) n); [lia|].
  rewrite (N.mod_small (n * 10)) by lia.
  rewrite (N.mod_small (n * 10 + u)) by lia.
  destruct (N.ltb_spec (n * 10 + u) (n * 10)); [lia|].
  destruct (N.ltb_spec maxVal (n * 10 + u)); [lia|]. reflexivity.
Qed.

(** Parsing what [formatBits] wrote in front of [a]. *)
Lemma parse_formatBits : forall fuel u a n,
  u < 10 ^ N.of_nat fuel ->
  exists k, forall maxVal,
    n * 10 ^ k + u <= maxVal -> maxVal < 2 ^ 64 ->
    parse_loop (formatBits fuel u a) n maxVal
    = parse_loop a (n * 10 ^ k + u) maxVal.
Proof.
  induction fuel as [|fuel IH]; intros u a n Hu.
  - simpl in Hu. exists 0. intros maxVal H1 H2. simpl.
    replace (n * 1 + u) with n by lia. reflexivity.
  - cbn [formatBits]. destruct (N.ltb_spec u 10) as [Hlt | Hge].
    + exists 1. intros maxVal H1 H2. change (10 ^ 1) with 10 in *.
      now apply parse_loop_digit.
    + assert (Hq : u / 10 < 10 ^ N.of_nat fuel).
      { rewrite Nat2N.inj_succ, N.pow_succ_r' in Hu. lia. }
      destruct (IH (u / 10) (ascii_of_N (u mod 10 + 48) :: a) n Hq) as [k Hk].
      exists (N.succ k). intros maxVal H1 H2.
      rewrite N.pow_succ_r' in H1 |- *.
      assert (Hr : u mod 10 < 10) by (apply N.mod_upper_bound; discriminate).
      assert (E : n * (10 * 10 ^ k) + u
                  = (n * 10 ^ k + u / 10) * 10 + u mod 10).
      { pose proof (N.div_mod u 10). lia. }
      rewrite Hk by lia. rewrite parse_loop_digit by lia.
      now rewrite E.
Qed.

Lemma formatBits_cons fuel u a :
  exists c t, formatBits (S fuel) u a = c :: t.
Proof.
  revert u a. induction fuel as [|fuel IH]; intros u a; cbn [formatBits].
  - destruct (u <? 10); eauto.
  - destruct (u <? 10); [eauto|]. apply IH.
Qed.

Lemma pow10_20 i : i < 2 ^ 64 -> i < 10 ^ N.of_nat 20.
Proof.
  change (2 ^ 64) with 18446744073709551616.
  change (10 ^ N.of_nat 20) with 100000000000000000000. lia.
Qed.

(** [ParseUint] reads back what [FormatUint] wrote. *)
Theorem ParseUint_FormatUint i bitSize :
  i < 2 ^ bitSize -> bitSize <= 64 ->
  ParseUint (FormatUint i) bitSize = Ok i.
Proof.
  intros Hi Hb. unfold ParseUint, FormatUint.
  assert (Hp : 2 ^ bitSize <= 2 ^ 64) by (apply N.pow_le_mono_r; lia).
  destruct (formatBits_cons 19 i []) as [c [t E]].
  destruct (parse_formatBits 20 i [] 0 (pow10_20 i ltac:(lia))) as [k Hk].
  rewrite N.shiftl_1_l.
  specialize (Hk (2 ^ bitSize - 1) ltac:(lia) ltac:(lia)).
  rewrite E in *. rewrite Hk. simpl. reflexivity.
Qed.

Lemma formatBits_digits : forall fuel u a,
  forallb PHC.digit_char a = true ->
  forallb PHC.digit_char (formatBits fuel u a) = true.
Proof.
  induction fuel as [|fuel IH]; intros u a Ha; cbn [formatBits]; [exact Ha|].
  destruct (N.ltb_spec u 10) as [Hlt | Hge].
  - cbn [forallb]. destruct (digit_facts u Hlt) as [_ [-> _]]. exact Ha.
  - apply IH. cbn [forallb].
    assert (Hr : u mod 10 < 10) by (apply N.mod_upper_bound; discriminate).
    destruct (digit_facts _ Hr) as [_ [-> _]]. exact Ha.
Qed.

Lemma formatBits_head : forall fuel u a t,
  u < 10 ^ N.of_nat fuel ->
  formatBits fuel u a = "0"%char :: t -> 0 < u -> False.
Proof.
  induction fuel as [|fuel IH]; intros u a t Hu E Hpos.
  - simpl in Hu. lia.
  - cbn [formatBits] in E. destruct (N.ltb_spec u 10) as [Hlt | Hge].
    + injection E as E _. destruct (digit_facts u Hlt) as [_ [_ Hz]].
      apply Hz in E. lia.
    + apply IH in E; auto.
      * rewrite Nat2N.inj_succ, N.pow_succ_r' in Hu. lia.
      * lia.
Qed.

(** The text of [FormatUint]: decimal digits, with no leading zero
    unless the value is zero. *)
Theorem FormatUint_canonical i :
  i < 2 ^ 64 ->
  FormatUint i <> []
  /\ forallb PHC.digit_char (FormatUint i) = true
  /\ (0 < i -> hd "0"%char (FormatUint i) <> "0"%char).
Proof.
  intros Hi. unfold FormatUint.
  destruct (formatBits_cons 19 i []) as [c [t E]].
  repeat split.
  - rewrite E. discriminate.
  - now apply formatBits_digits.
  - intros Hpos Hh. rewrite E in Hh. simpl in Hh. subst c.
    exact (formatBits_head 20 i [] t (pow10_20 i Hi) E Hpos).
Qed.

Lemma Itoa_Version : Itoa Argon2.Version = str "19".
Proof. reflexivity. Qed.

End StrconvFacts.

Module SubtleFacts.
Import Subtle SubtleSpec.

Lemma byte_lt b : Byte.to_N b < 2 ^ 8.
Proof. pose proof (Byte.to_N_bounded b). change (2 ^ 8) with 256. lia. Qed.

Lemma to_N_inj a b : Byte.to_N a = Byte.to_N b -> a = b.
Proof.
  intros H. pose proof (Byte.of_to_N a) as Ha. rewrite H, Byte.of_to_N in Ha.
  now injection Ha.
Qed.

Lemma lt_pow2_log2 a n : a < 2 ^ n -> a = 0 \/ N.log2 a < n.
Proof.
  intros H. destruct (N.eq_dec a 0) as [->|Hne]; [now left | right].
  apply N.log2_lt_pow2; lia.
Qed.

Lemma lor_lt a b n : a < 2 ^ n -> b < 2 ^ n -> N.lor a b < 2 ^ n.
Proof.
  intros Ha Hb.
  destruct (N.eq_dec (N.lor a b) 0) as [->|Hne].
  - apply N.neq_0_lt_0, N.pow_nonzero. discriminate.
  - apply N.log2_lt_pow2; [lia|].
    pose proof (N.log2_lor a b) as H.
    destruct (lt_pow2_log2 a n Ha) as [->|La];
      destruct (lt_pow2_log2 b n Hb) as [->|Lb];
      rewrite ?N.lor_0_l, ?N.lor_0_r in *; lia.
Qed.

Lemma lxor_lt a b n : a < 2 ^ n -> b < 2 ^ n -> N.lxor a b < 2 ^ n.
Proof.
  intros Ha Hb.
  destruct (N.eq_dec (N.lxor a b) 0) as [->|Hne].
  - apply N.neq_0_lt_0, N.pow_nonzero. discriminate.
  - apply N.log2_lt_pow2; [lia|].
    pose proof (N.log2_lxor a b) as H.
    destruct (lt_pow2_log2 a n Ha) as [->|La];
      destruct (lt_pow2_log2 b n Hb) as [->|Lb];
      rewrite ?N.lxor_0_l, ?N.lxor_0_r in *; lia.
Qed.

Lemma accumulate_lt : forall x y v,
  v < 2 ^ 8 -> accumulate v x y < 2 ^ 8.
Proof.
  induction x as [|xi x IH]; intros [|yi y] v Hv; cbn [accumulate]; auto.
  apply IH. apply lor_lt; [exact Hv|]. apply lxor_lt; apply byte_lt.
Qed.

Lemma accumulate_zero : forall x y v,
  length x = length y ->
  (accumulate v x y = 0 <-> v = 0 /\ x = y).
Proof.
  induction x as [|xi x IH]; intros [|yi y] v Hl; cbn [accumulate];
    try discriminate.
  - tauto.
  - injection Hl as Hl. rewrite (IH y _ Hl), N.lor_eq_0_iff. split.
    + intros [[Hv Hx] ->]. apply N.lxor_eq in Hx.
      apply to_N_inj in Hx. now subst.
    + intros [Hv E]. injection E as -> ->. now rewrite N.lxor_nilpotent.
Qed.

Lemma ConstantTimeByteEq_zero v :
  v < 2 ^ 8 -> (ConstantTimeByteEq v 0 = 1 <-> v = 0).
Proof.
  intros Hv. unfold ConstantTimeByteEq. rewrite N.lxor_0_r.
  rewrite N.shiftr_div_pow2.
  change (2 ^ 8) with 256 in Hv. change (2 ^ 32) with 4294967296.
  change (2 ^ 31) with 2147483648.
  split; intros H.
  - lia.
  - subst v. reflexivity.
Qed.

Lemma skipn_nth (x : bytes) i :
  (i < length x)%nat -> skipn i x = nth i x x00 :: skipn (S i) x.
Proof.
  revert i. induction x as [|a x IH]; intros [|i] H; cbn [length] in H;
    try lia; [reflexivity|].
  cbn [skipn nth]. rewrite (IH i) by lia. reflexivity.
Qed.

(** The value of the loop, on the elements from index [i]. *)
Lemma accumulate_run_value : forall fuel i v x y,
  length x = length y -> (length x - i <= fuel)%nat ->
  fst (accumulate_run fuel i v x y) = accumulate v (skipn i x) (skipn i y).
Proof.
  induction fuel as [|fuel IH]; intros i v x y Hl Hf;
    cbn [accumulate_run then_run branch load ret fst snd].
  - destruct (Nat.ltb_spec i (length x)) as [H|H]; [lia|].
    rewrite (skipn_all2 x) by lia. destruct (skipn i y); reflexivity.
  - destruct (Nat.ltb_spec i (length x)) as [H|H].
    + rewrite (skipn_nth x i H), (skipn_nth y i) by lia.
      cbn [accumulate]. apply IH; [exact Hl | lia].
    + cbn [fst]. rewrite (skipn_all2 x) by lia.
      destruct (skipn i y); reflexivity.
Qed.

Lemma ConstantTimeCompare_value x y :
  ConstantTimeCompare x y
  = if negb (length x =? length y)%nat then 0
    else ConstantTimeByteEq (accumulate 0 x y) 0.
Proof.
  unfold ConstantTimeCompare, ConstantTimeCompare_run.
  cbn [then_run branch ret fst snd].
  destruct (Nat.eqb_spec (length x) (length y)) as [Hl|Hl]; cbn [negb fst];
    [|reflexivity].
  unfold then_run, ret. cbn [fst].
  now rewrite accumulate_run_value by lia.
Qed.


(** The comparison is exact. *)
Theorem ConstantTimeCompare_eq x y : ConstantTimeCompare x y = 1 <-> x = y.
Proof.
  rewrite ConstantTimeCompare_value.
  destruct (Nat.eqb_spec (length x) (length y)) as [Hl | Hl]; cbn [negb].
  - rewrite ConstantTimeByteEq_zero
      by (apply accumulate_lt; apply N.neq_0_lt_0; discriminate).
    rewrite (accumulate_zero x y 0 Hl). tauto.
  - split; [discriminate|]. intros ->. contradiction.
Qed.



Lemma copy_bytes : forall y,
  map (fun xy : byte * byte =>
         byte_of_N (N.lor (N.land (Byte.to_N (fst xy)) 0)
                          (N.land (Byte.to_N (snd xy)) 255)))
      (combine (repeat x00 (length y)) y) = y.
Proof.
  induction y as [|b y IH]; [reflexivity|].
  cbn [length repeat combine map fst snd]. rewrite IH. f_equal.
  rewrite N.land_0_r, N.lor_0_l. change 255 with (N.ones 8).
  rewrite N.land_ones, N.mod_small by apply byte_lt.
  apply Base64Facts.byte_of_to_N.
Qed.

(** Copying into a fresh slice of the same length gives the bytes. *)
Lemma ConstantTimeCopy_make y :
  ConstantTimeCopy 1 (repeat x00 (length y)) y = Some y.
Proof.
  unfold ConstantTimeCopy. rewrite repeat_length, Nat.eqb_refl. cbn [negb].
  change ((1 + 255) mod 256) with 0. change (N.lxor 0 255) with 255.
  now rewrite copy_bytes.
Qed.

End SubtleFacts.

(** * The hasher *)
Module Argon2Facts.
Import PHC Grammar PHCFacts CodecFacts Strconv StrconvFacts Subtle SubtleFacts.
Import Argon2 Argon2Spec.

Lemma string_eqb_spec a b : reflect (a = b) (string_eqb a b).
Proof.
  unfold string_eqb. destruct (list_eq_dec ascii_dec a b); now constructor.
Qed.

(** *** The parameter binder *)
Lemma parse_loop_le : forall s n maxVal v,
  parse_loop s n maxVal = inr v -> n <= maxVal -> v <= maxVal.
Proof.
  induction s as [|c s IH]; intros n maxVal v H Hn; cbn [parse_loop] in H.
  - injection H as <-. exact Hn.
  - destruct (digit c) as [d|]; [|discriminate].
    destruct (10 <=? d); [discriminate|].
    destruct (maxUint64 / 10 + 1 <=? n); [discriminate|].
    destruct (((n * 10) mod 2 ^ 64 + d) mod 2 ^ 64 <? (n * 10) mod 2 ^ 64);
      [discriminate|].
    destruct (N.ltb_spec maxVal (((n * 10) mod 2 ^ 64 + d) mod 2 ^ 64));
      [discriminate|].
    cbn [orb] in H. apply IH in H; assumption.
Qed.

Lemma ParseUint_lt s bitSize v :
  ParseUint s bitSize = Ok v -> v < 2 ^ bitSize.
Proof.
  unfold ParseUint. destruct s as [|c s]; [discriminate|].
  destruct (parse_loop (c :: s) 0 (N.shiftl 1 bitSize - 1)) as [e|n] eqn:E;
    [discriminate|].
  intros H. injection H as <-. apply parse_loop_le in E; [|lia].
  rewrite N.shiftl_1_l in E.
  assert (0 < 2 ^ bitSize) by (apply N.neq_0_lt_0, N.pow_nonzero; discriminate).
  lia.
Qed.

Lemma ParseUint_no_panic s bitSize : ParseUint s bitSize <> Panic.
Proof.
  unfold ParseUint. destruct s; [discriminate|].
  destruct (parse_loop _ _ _); discriminate.
Qed.

Lemma Argon2_Decode_eq encoded :
  Argon2.Decode encoded
  = match PHC.Decode encoded with
    | Ok decoded =>
        if negb (string_eqb (ID decoded) argon2ID) then
          Err (UnsupportedHashingFunction (ID decoded))
        else if negb (string_eqb (PHC.Version decoded) (Itoa Argon2.Version))
        then Err (UnsupportedVersion (PHC.Version decoded))
        else bind_params decoded
    | Err e => Err (PHCDecodeError e)
    | Panic => Panic
    end.
Proof.
  unfold Argon2.Decode. destruct (PHC.Decode encoded); reflexivity.
Qed.

Lemma Decode_bind_params encoded f :
  PHC.Decode encoded = Ok f -> ID f = argon2ID ->
  PHC.Version f = Itoa Argon2.Version ->
  Argon2.Decode encoded = bind_params f.
Proof.
  intros H Hid Hv. rewrite Argon2_Decode_eq, H, Hid, Hv.
  now rewrite !string_eqb_refl.
Qed.

Lemma bind_params_ok f f' p :
  bind_params f = Ok (f', p) -> f' = f /\ decoded_from f p.
Proof.
  unfold bind_params, decoded_from.
  destruct (Params f) as [|[n0 v0] [|[n1 v1] [|[n2 v2] [|p3 ps]]]];
    try discriminate.
  cbn [Name Value].
  destruct (string_eqb_spec n0 (str "m")); [|discriminate].
  destruct (string_eqb_spec n1 (str "t")); [|discriminate].
  destruct (string_eqb_spec n2 (str "p")); [|discriminate].
  cbn [negb orb]. subst.
  destruct (ParseUint v0 32) as [m| |] eqn:Em; try discriminate.
  destruct (ParseUint v1 32) as [t| |] eqn:Et; try discriminate.
  destruct (ParseUint v2 8) as [q| |] eqn:Eq; try discriminate.
  cbn [map_err bind].
  destruct (N.ltb_spec MaxUint32 (N.of_nat (length (PHC.Hash f)))) as [Hl|Hl];
    [discriminate|].
  pose proof (ParseUint_lt _ _ _ Em) as Bm.
  pose proof (ParseUint_lt _ _ _ Et) as Bt.
  pose proof (ParseUint_lt _ _ _ Eq) as Bq.
  assert (Bl : N.of_nat (length (PHC.Hash f)) < 2 ^ 32)
    by (unfold MaxUint32 in Hl; change (2 ^ 32) with 4294967296; lia).
  intros H. injection H as <- <-. split; [reflexivity|].
  exists v0, v1, v2. cbn [Memory Time Parallelism KeyLength].
  rewrite !N.mod_small by assumption. auto.
Qed.

Lemma bind_params_err f :
  (exists e, bind_params f = Err e)
  <-> schema_error (Params f)
      \/ MaxUint32 < N.of_nat (length (PHC.Hash f)).
Proof.
  unfold bind_params, schema_error.
  destruct (Params f) as [|[n0 v0] [|[n1 v1] [|[n2 v2] [|p3 ps]]]];
    try (split; [intros _; left; left; discriminate | intros _; eauto]).
  cbn [Name Value map nth_error length].
  destruct (string_eqb_spec n0 (str "m")) as [->|N0];
    [|split; [intros _; left; right; left; congruence
           | intros _; cbn [negb orb]; eauto]].
  destruct (string_eqb_spec n1 (str "t")) as [->|N1];
    [|split; [intros _; left; right; left; congruence
           | intros _; cbn [negb orb]; eauto]].
  destruct (string_eqb_spec n2 (str "p")) as [->|N2];
    [|split; [intros _; left; right; left; congruence
           | intros _; cbn [negb orb]; eauto]].
  cbn [negb orb].
  pose proof (ParseUint_no_panic v0 32) as P0.
  pose proof (ParseUint_no_panic v1 32) as P1.
  pose proof (ParseUint_no_panic v2 8) as P2.
  destruct (ParseUint v0 32) as [m|e0|] eqn:Em; [| |contradiction];
    cbn [map_err bind].
  2:{ split; [|eauto]. intros _. left. right. right. left. eauto. }
  destruct (ParseUint v1 32) as [t|e1|] eqn:Et; [| |contradiction];
    cbn [map_err bind].
  2:{ split; [|eauto]. intros _. left. right. right. right. left. eauto. }
  destruct (ParseUint v2 8) as [q|e2|] eqn:Eq; [| |contradiction];
    cbn [map_err bind].
  2:{ split; [|eauto]. intros _. left. right. right. right. right. eauto. }
  destruct (N.ltb_spec MaxUint32 (N.of_nat (length (PHC.Hash f)))) as [Hl|Hl].
  - split; eauto.
  - split; [intros [e He]; discriminate|].
    intros [[H | [H | [H | [H | H]]]] | H].
    + now elim H.
    + now elim H.
    + destruct H as [p0 [e [H1 H2]]]. injection H1 as <-.
      cbn [Value] in H2. congruence.
    + destruct H as [p0 [e [H1 H2]]]. injection H1 as <-.
      cbn [Value] in H2. congruence.
    + destruct H as [p0 [e [H1 H2]]]. injection H1 as <-.
      cbn [Value] in H2. congruence.
    + lia.
Qed.

(** The error of a value that does not parse names its field. *)
Lemma bind_params_field f vm vt vp :
  Params f = [mkParameter (str "m") vm; mkParameter (str "t") vt;
              mkParameter (str "p") vp] ->
  (forall e, ParseUint vm 32 = Err e ->
             bind_params f = Err (MemoryParameterError e))
  /\ (forall m e, ParseUint vm 32 = Ok m -> ParseUint vt 32 = Err e ->
                  bind_params f = Err (TimeParameterError e))
  /\ (forall m t e, ParseUint vm 32 = Ok m -> ParseUint vt 32 = Ok t ->
                    ParseUint vp 8 = Err e ->
                    bind_params f = Err (ParallelismParameterError e)).
Proof.
  intros Hp. unfold bind_params. rewrite Hp. cbn [Name Value].
  rewrite !string_eqb_refl. cbn [negb orb].
  repeat split; intros.
  - now rewrite H.
  - now rewrite H, H0.
  - now rewrite H, H0, H1.
Qed.

(** *** Hashing and verifying *)
Section PartialKDF.
Variable IDKey : PartialKDF.

Lemma EncodeWithSalt_eq password salt p :
  EncodeWithSalt IDKey password salt p
  = match IDKey password salt (Time p) (Memory p) (Parallelism p)
                (KeyLength p) with
    | Some hash =>
        Ok (mkFormat argon2ID (Itoa Argon2.Version) (params_list p) salt hash)
    | None => Panic
    end.
Proof. unfold EncodeWithSalt. now rewrite ConstantTimeCopy_make. Qed.

(** [IsSame] with a key derivation function that may panic. *)
Lemma IsSame_partial h password encoded :
  IsSame IDKey h password encoded
  = match Argon2.Decode encoded with
    | Ok (f, p) =>
        match IDKey (bytes_of_string password) (PHC.Salt f) (Time p)
                    (Memory p) (Parallelism p) (KeyLength p) with
        | Some key => Ok (ConstantTimeCompare (PHC.Hash f) key =? 1)
        | None => Panic
        end
    | Err e => Err e
    | Panic => Panic
    end.
Proof.
  unfold IsSame. destruct (Argon2.Decode encoded) as [[f p]| |]; cbn [bind];
    [|reflexivity..].
  rewrite EncodeWithSalt_eq. cbn [fst snd].
  destruct (IDKey _ _ _ _ _ _); reflexivity.
Qed.

End PartialKDF.

Section KDF.
Variable IDKey : KDF.

Lemma EncodeWithSalt_ok password salt p :
  EncodeWithSalt (returning IDKey) password salt p
  = Ok (mkFormat argon2ID (Itoa Argon2.Version) (params_list p) salt
                 (IDKey password salt (Time p) (Memory p) (Parallelism p)
                        (KeyLength p))).
Proof. now rewrite EncodeWithSalt_eq. Qed.

Lemma IsSame_eq h password encoded :
  IsSame (returning IDKey) h password encoded
  = match Argon2.Decode encoded with
    | Ok (f, p) =>
        Ok (ConstantTimeCompare
              (PHC.Hash f)
              (IDKey (bytes_of_string password) (PHC.Salt f) (Time p)
                     (Memory p) (Parallelism p) (KeyLength p))
            =? 1)
    | Err e => Err e
    | Panic => Panic
    end.
Proof.
  rewrite IsSame_partial.
  destruct (Argon2.Decode encoded) as [[f p]| |]; reflexivity.
Qed.

Lemma Hash_eq h password rnd generate :
  salt h = Some generate ->
  Argon2.Hash (returning IDKey) h password rnd
  = (match fst (generate rnd) with
     | Ok s =>
         Ok (String (hashed_Format
                       (params h) s
                       (IDKey (bytes_of_string password) s (Time (params h))
                              (Memory (params h)) (Parallelism (params h))
                              (KeyLength (params h)))))
     | Err e => Err (SaltGenerationError e)
     | Panic => Panic
     end, snd (generate rnd)).
Proof.
  intros Hs. unfold Argon2.Hash. rewrite Hs.
  destruct (generate rnd) as [[s|e|] rnd']; reflexivity.
Qed.

End KDF.

Lemma New_fold opts :
  New opts = fold_left (fun h opt => opt h) opts (New []).
Proof. unfold New. rewrite app_nil_r. apply fold_left_app. Qed.

Lemma New_default :
  New [] = mkHasher (mkParameters (46 * 1024) 1 1 32)
                    (Some (NewSaltGenerator 16)).
Proof. reflexivity. Qed.

End Argon2Facts.

(** * The properties of the specification *)
Module Claims.
Import PHC Grammar PHCFacts PHCSound CodecFacts Base64 Base64Facts.
Import Strconv StrconvFacts Subtle SubtleFacts.
Import Argon2Spec.

(** *** The codec *)

Lemma parse_params_no_err : forall split e, parse_params split <> Err e.
Proof.
  induction split as [|param split IH]; intros e; cbn [parse_params];
    [discriminate|].
  destruct (Strings.Split param "="%char) as [|kv0 [|kv1 kv]]; try discriminate.
  destruct (parse_params split) as [ps|e'|] eqn:E; cbn [bind]; try discriminate.
  now elim (IH e').
Qed.

Lemma build_err sub e :
  build sub = Err e ->
  (exists e', e = SaltDecodingError e') \/ (exists e', e = HashDecodingError e').
Proof.
  unfold build.
  destruct (if (0 <? length (nth 3 sub []))%nat
            then parse_params (Strings.Split (nth 3 sub []) ","%char)
            else Ok []) as [ps|e'|] eqn:E; cbn [bind].
  - destruct (0 <? length (nth 4 sub []))%nat; [|discriminate].
    destruct (DecodeString (nth 4 sub [])) as [s|e'|]; cbn [map_err bind].
    + destruct (0 <? length (nth 5 sub []))%nat; [|discriminate].
      destruct (DecodeString (nth 5 sub [])) as [h|e'|]; cbn [map_err bind];
        try discriminate.
      intros H. injection H as <-. eauto.
    + intros H. injection H as <-. eauto.
    + discriminate.
  - destruct (0 <? length (nth 3 sub []))%nat; [|discriminate].
    now elim (parse_params_no_err _ _ E).
  - discriminate.
Qed.

Lemma build_header sub f :
  build sub = Ok f -> ID f = nth 1 sub [] /\ PHC.Version f = nth 2 sub [].
Proof.
  unfold build.
  destruct (if (0 <? length (nth 3 sub []))%nat
            then parse_params (Strings.Split (nth 3 sub []) ","%char)
            else Ok []) as [ps|e'|]; cbn [bind]; try discriminate.
  destruct (0 <? length (nth 4 sub []))%nat.
  - destruct (DecodeString (nth 4 sub [])) as [s|e'|]; cbn [map_err bind];
      try discriminate.
    destruct (0 <? length (nth 5 sub []))%nat.
    + destruct (DecodeString (nth 5 sub [])) as [h|e'|]; cbn [map_err bind];
        try discriminate.
      intros H. injection H as <-. split; reflexivity.
    + intros H. injection H as <-. split; reflexivity.
  - intros H. injection H as <-. split; reflexivity.
Qed.

(** The text the decoder accepts is the identifier, then the version
    in a segment of its own, then the other segments. *)
Lemma Decode_text s f :
  PHC.Decode s = Ok f ->
  forallb digit_char (PHC.Version f) = true
  /\ exists ps s64 h64,
       forallb valid_param ps = true
       /\ forallb value_char s64 = true /\ forallb value_char h64 = true
       /\ s = render (ID f) (PHC.Version f) ps s64 h64.
Proof.
  rewrite Decode_eq.
  destruct (Regexp.FindStringSubmatch format s) as [sub|] eqn:E;
    [|discriminate].
  intros B. apply build_header in B. destruct B as [Hid Hver].
  destruct (format_sound s sub E)
    as (id & ver & ps & s64 & h64 & _ & _ & _ & Hd & Hp & Hs & Hh & _ & -> & ->).
  cbn [submatches nth] in Hid, Hver. rewrite Hid, Hver.
  split; [exact Hd|]. exists ps, s64, h64. auto.
Qed.

(** The version of a record with one parameter named v and a value of
    digits is written like a version. *)
Lemma render_v_parameter id d s64 h64 :
  d <> [] ->
  render id [] [mkParameter (str "v") d] s64 h64 = render id d [] s64 h64.
Proof.
  intros Hd. unfold render. f_equal. f_equal.
  destruct d as [|c d]; [contradiction|].
  cbn. now rewrite !app_nil_r.
Qed.

Lemma Decode_String_ambiguous f :
  valid_Format f = true ->
  ambiguous (PHC.Version f) (Params f) = true ->
  PHC.Decode (String f) <> Ok f.
Proof.
  destruct f as [id ver ps salt hash]. unfold valid_Format.
  cbn [ID Version Params Salt Hash]. intros Hv Hamb.
  repeat (apply andb_prop in Hv; let H := fresh "V" in destruct Hv as [Hv H]).
  destruct ver as [|c ver]; [|discriminate].
  destruct ps as [|[n d] [|q ps]]; try discriminate.
  cbn [ambiguous Name Value] in Hamb. apply andb_prop in Hamb.
  destruct Hamb as [Hn Hd]. apply string_eqb_eq in Hn. subst n.
  assert (Hne : d <> []).
  { cbn [forallb valid_param Name Value] in V0.
    destruct d; [|discriminate]. vm_compute in V0. discriminate. }
  assert (Hsh : salt = [] -> hash = []).
  { intros ->. destruct hash; [reflexivity | discriminate]. }
  apply Nat.leb_le in V3.
  rewrite String_render, render_v_parameter by exact Hne.
  rewrite Decode_eq, format_complete; auto using EncodeToString_value_char.
  - intros H. apply build_header in H. destruct H as [_ H]. cbn in H.
    now subst d.
  - intros Es. apply EncodeToString_nil in Es. now rewrite (Hsh Es).
  - destruct d; [contradiction | reflexivity].
Qed.

(** C1, as the specification states it, fails: the encoding of a valid
    record with no version and the single parameter v=19 decodes to a
    record with version 19 and no parameter. *)
Lemma Decode_String_v_parameter :
  valid_Format v_only = true
  /\ PHC.Decode (String v_only)
     = Ok (mkFormat (str "argon2id") (str "19") [] [] [])
  /\ PHC.Decode (String v_only) <> Ok v_only.
Proof.
  split; [reflexivity|]. split; [vm_compute; reflexivity|].
  vm_compute. discriminate.
Qed.

(** C1 (amended).  For every structurally valid record (identifier of 1
    to 32 bytes of [a-z0-9-], version of digits or empty, parameters
    with non-empty names of [a-z0-9-] and non-empty values of
    [a-zA-Z0-9/+.-], a hash only with a salt), decoding the encoding
    gives the record back exactly when the record is not the one shape
    the grammar reads as a version: an empty version with a single
    parameter named v whose value is all digits. *)
Theorem Decode_String_roundtrip f :
  valid_Format f = true ->
  (PHC.Decode (String f) = Ok f <-> ambiguous (PHC.Version f) (Params f) = false).
Proof.
  intros Hv. split.
  - intros H. destruct (ambiguous (PHC.Version f) (Params f)) eqn:E;
      [|reflexivity].
    now elim (Decode_String_ambiguous f Hv E).
  - now apply Decode_String_valid.
Qed.

Lemma Decode_String_roundtrip_witness :
  valid_Format (hashed_Format (Argon2.mkParameters 65536 2 1 32)
                              (bytes_of_string (str "somesalt")) [x09; x31])
  = true
  /\ (PHC.Decode (String (hashed_Format (Argon2.mkParameters 65536 2 1 32)
                                        (bytes_of_string (str "somesalt"))
                                        [x09; x31]))
      = Ok (hashed_Format (Argon2.mkParameters 65536 2 1 32)
                          (bytes_of_string (str "somesalt")) [x09; x31])
      <-> ambiguous (str "19") (Params (hashed_Format
                                          (Argon2.mkParameters 65536 2 1 32)
                                          (bytes_of_string (str "somesalt"))
                                          [x09; x31])) = false).
Proof.
  split; [vm_compute; reflexivity|].
  apply (Decode_String_roundtrip
           (hashed_Format (Argon2.mkParameters 65536 2 1 32)
                          (bytes_of_string (str "somesalt")) [x09; x31])).
  vm_compute. reflexivity.
Defined.

(** C2, as the specification states it, fails: [$a$QR] is accepted, and
    the last byte of its salt segment carries bits that the decoded salt
    does not hold; the record is written back as [$a$QQ]. *)
Lemma String_Decode_trailing_bits :
  PHC.Decode (str "$a$QR") = Ok (mkFormat (str "a") [] [] [x41] [])
  /\ String (mkFormat (str "a") [] [] [x41] []) = str "$a$QQ"
  /\ String (mkFormat (str "a") [] [] [x41] []) <> str "$a$QR".
Proof.
  split; [vm_compute; reflexivity|]. split; [vm_compute; reflexivity|].
  vm_compute. discriminate.
Qed.

(** C2 (amended).  For every text the decoder accepts whose salt and
    hash segments are in canonical form (the unused bits of the last
    byte of the segment are zero), encoding the decoded record gives the
    text back, byte for byte. *)
Theorem String_Decode_roundtrip s f :
  PHC.Decode s = Ok f ->
  canonical (segment 4 s) = true -> canonical (segment 5 s) = true ->
  String f = s.
Proof.
  rewrite Decode_eq. unfold segment.
  destruct (Regexp.FindStringSubmatch format s) as [sub|] eqn:Ef; [|discriminate].
  apply format_sound in Ef.
  destruct Ef as [id [ver [ps [s64 [h64 [Hne [Hlen [Hid [Hv [Hps [Hs [Hh [Hsh [-> ->]]]]]]]]]]]]]].
  unfold build, submatches. cbn [nth]. rewrite (params_of_text ps Hps).
  cbn [bind]. intros H C4 C5.
  destruct s64 as [|x s64].
  - rewrite (Hsh eq_refl). cbn [length Nat.ltb Nat.leb] in H.
    injection H as <-. now rewrite String_render.
  - cbn [length Nat.ltb Nat.leb] in H. unfold DecodeString in H.
    destruct (decode (x :: s64) 0 []) as [salt| |] eqn:Ed; try discriminate.
    cbn [map_err bind] in H.
    pose proof (EncodeToString_decode _ _ _ (value_chars_no_newline _ Hs) Ed C4)
      as Es.
    assert (Hsalt : salt <> []) by (intros ->; discriminate).
    destruct h64 as [|y h64].
    + cbn [length Nat.ltb Nat.leb] in H. injection H as <-.
      rewrite String_render. now rewrite Es.
    + cbn [length Nat.ltb Nat.leb] in H.
      destruct (decode (y :: h64) 0 []) as [hash| |] eqn:Eh; try discriminate.
      cbn [map_err bind] in H. injection H as <-.
      pose proof (EncodeToString_decode _ _ _ (value_chars_no_newline _ Hh) Eh C5)
        as Ehh.
      rewrite String_render. now rewrite Es, Ehh.
Qed.

Lemma String_Decode_roundtrip_witness :
  PHC.Decode sample_text = Ok sample_record
  /\ canonical (segment 4 sample_text) = true
  /\ canonical (segment 5 sample_text) = true
  /\ String sample_record = sample_text.
Proof.
  split; [vm_compute; reflexivity|].
  split; [vm_compute; reflexivity|].
  split; [vm_compute; reflexivity|].
  apply (String_Decode_roundtrip sample_text); vm_compute; reflexivity.
Defined.

(** C3.  A parameter named v is not taken for the version: the two texts
    of the specification decode with an empty version and the parameter
    v first, and [$argon2id$v=19], where the value is all digits and
    nothing follows in the segment, decodes with the version 19.  For
    every text the decoder accepts, the version is all digits and the
    text is the identifier, the segment [$v=] with the version and
    nothing else when there is a version, then the segments of the
    parameters, the salt and the hash. *)
Theorem Decode_v_parameter_examples :
  PHC.Decode (str "$argon2id$v=aparam")
  = Ok (mkFormat (str "argon2id") []
                 [mkParameter (str "v") (str "aparam")] [] [])
  /\ PHC.Decode (str "$argon2id$v=19,m=65536,t=2,p=1")
     = Ok (mkFormat (str "argon2id") []
                    [mkParameter (str "v") (str "19");
                     mkParameter (str "m") (str "65536");
                     mkParameter (str "t") (str "2");
                     mkParameter (str "p") (str "1")] [] [])
  /\ PHC.Decode (str "$argon2id$v=19")
     = Ok (mkFormat (str "argon2id") (str "19") [] [] [])
  /\ (forall s f,
         PHC.Decode s = Ok f ->
         forallb digit_char (PHC.Version f) = true
         /\ exists ps s64 h64,
              forallb valid_param ps = true
              /\ forallb value_char s64 = true
              /\ forallb value_char h64 = true
              /\ s = render (ID f) (PHC.Version f) ps s64 h64).
Proof.
  split; [vm_compute; reflexivity|].
  split; [vm_compute; reflexivity|].
  split; [vm_compute; reflexivity|].
  exact Decode_text.
Qed.

(** C10.  When [UnmarshalText] returns an error, the receiver keeps the
    value it had; the error is the one of a text outside the pattern, of
    the salt segment or of the hash segment. *)
Theorem UnmarshalText_error_unchanged f text e :
  snd (UnmarshalText f text) = Err e ->
  fst (UnmarshalText f text) = f
  /\ (e = NotValidFormat (string_of_bytes text)
      \/ (exists e', e = SaltDecodingError e')
      \/ (exists e', e = HashDecodingError e')).
Proof.
  unfold UnmarshalText.
  destruct (UnmarshalText_ret text) as [ret|e'|] eqn:E; cbn [fst snd];
    try discriminate.
  intros H. injection H as <-. split; [reflexivity|].
  rewrite UnmarshalText_ret_eq in E.
  destruct (Regexp.FindStringSubmatch format (string_of_bytes text)) as [sub|].
  - right. now apply (build_err sub).
  - left. now injection E.
Qed.

Lemma UnmarshalText_error_unchanged_witness :
  snd (UnmarshalText v_only (bytes_of_string (str "$a$Q")))
  = Err (SaltDecodingError (CorruptInputError 0))
  /\ fst (UnmarshalText v_only (bytes_of_string (str "$a$Q"))) = v_only.
Proof.
  split; [vm_compute; reflexivity|].
  apply (UnmarshalText_error_unchanged
           v_only (bytes_of_string (str "$a$Q"))
           (SaltDecodingError (CorruptInputError 0))).
  vm_compute. reflexivity.
Defined.

(** *** The argon2id hasher *)
Import Argon2 Argon2Facts.

Lemma bind_params_no_panic f : bind_params f <> Panic.
Proof.
  unfold bind_params.
  destruct (Params f) as [|p0 [|p1 [|p2 [|p3 ps]]]]; try discriminate.
  destruct (negb (string_eqb (Name p0) (str "m"))
            || negb (string_eqb (Name p1) (str "t"))
            || negb (string_eqb (Name p2) (str "p"))); [discriminate|].
  pose proof (ParseUint_no_panic (Value p0) 32) as P0.
  pose proof (ParseUint_no_panic (Value p1) 32) as P1.
  pose proof (ParseUint_no_panic (Value p2) 8) as P2.
  destruct (ParseUint (Value p0) 32); cbn [map_err bind];
    try discriminate; try contradiction.
  destruct (ParseUint (Value p1) 32); cbn [map_err bind];
    try discriminate; try contradiction.
  destruct (ParseUint (Value p2) 8); cbn [map_err bind];
    try discriminate; try contradiction.
  destruct (MaxUint32 <? N.of_nat (length (PHC.Hash f))); discriminate.
Qed.

(** What a successful [Decode] says of its input. *)
Lemma Argon2_Decode_ok encoded f p :
  Argon2.Decode encoded = Ok (f, p) ->
  PHC.Decode encoded = Ok f /\ ID f = argon2ID
  /\ PHC.Version f = Itoa Argon2.Version /\ decoded_from f p.
Proof.
  rewrite Argon2_Decode_eq.
  destruct (PHC.Decode encoded) as [d|e|]; try discriminate.
  destruct (string_eqb_spec (ID d) argon2ID) as [Hid|Hid]; cbn [negb];
    [|discriminate].
  destruct (string_eqb_spec (PHC.Version d) (Itoa Argon2.Version))
    as [Hv|Hv]; cbn [negb]; [|discriminate].
  intros H. destruct (bind_params_ok d f p H) as [-> Hd]. auto.
Qed.

Lemma record_with_hash_too_long hash :
  MaxUint32 < N.of_nat (length hash) ->
  PHC.Decode (String (record_with_hash hash)) = Ok (record_with_hash hash)
  /\ ~ schema_error (Params (record_with_hash hash))
  /\ Argon2.Decode (String (record_with_hash hash))
     = Err (HashTooLong (length hash)).
Proof.
  intros H.
  assert (D : PHC.Decode (String (record_with_hash hash))
              = Ok (record_with_hash hash))
    by (apply Decode_String_valid; reflexivity).
  assert (P32 : ParseUint (str "1") 32 = Ok 1) by (vm_compute; reflexivity).
  assert (P8 : ParseUint (str "1") 8 = Ok 1) by (vm_compute; reflexivity).
  split; [exact D|]. split.
  - unfold schema_error, record_with_hash. cbn [Params length map Name nth_error].
    intros [H1|[H1|[H1|[H1|H1]]]].
    + now apply H1.
    + now apply H1.
    + destruct H1 as (q & e & Hn & Hp). injection Hn as <-.
      vm_compute in Hp. discriminate.
    + destruct H1 as (q & e & Hn & Hp). injection Hn as <-.
      vm_compute in Hp. discriminate.
    + destruct H1 as (q & e & Hn & Hp). injection Hn as <-.
      vm_compute in Hp. discriminate.
  - rewrite (Decode_bind_params _ _ D eq_refl eq_refl).
    unfold bind_params, record_with_hash. cbn [Params Name Value PHC.Hash].
    rewrite !string_eqb_refl. cbn [negb orb].
    rewrite P32, P8. cbn [map_err bind].
    apply N.ltb_lt in H. now rewrite H.
Qed.

(** C4, as the specification states it, fails: the text of a record with
    the identifier argon2id, the version 19, the parameters m=1,t=1,p=1
    and a hash of 2^32 bytes is a text the codec accepts, none of the
    listed causes holds of it, and [Decode] returns the error of a hash
    too long. *)
Lemma Decode_hash_too_long :
  PHC.Decode (String long_record) = Ok long_record
  /\ ID long_record = argon2ID
  /\ PHC.Version long_record = Itoa Argon2.Version
  /\ ~ schema_error (Params long_record)
  /\ Argon2.Decode (String long_record)
     = Err (HashTooLong (length long_hash)).
Proof.
  assert (H : MaxUint32 < N.of_nat (length long_hash)).
  { unfold long_hash. rewrite repeat_length, N2Nat.id. reflexivity. }
  destruct (record_with_hash_too_long long_hash H) as (A & B & C).
  split; [exact A|]. split; [reflexivity|]. split; [reflexivity|].
  split; [exact B | exact C].
Qed.

(** C4 (amended).  For every text the codec accepts with the identifier
    argon2id and the version 19, [Decode] returns an error if and only
    if the parameter count is not 3, or the names are not m, t, p in
    that order, or m or t does not parse as an unsigned 32-bit decimal,
    or p does not parse as an unsigned 8-bit decimal, or the decoded
    hash is longer than 2^32 - 1 bytes; the error of a value that does
    not parse names its field; otherwise it returns the record with the
    parameters Memory = m, Time = t, Parallelism = p and KeyLength the
    length of the decoded hash. *)
Theorem Decode_binder_errors encoded f :
  PHC.Decode encoded = Ok f -> ID f = argon2ID ->
  PHC.Version f = Itoa Argon2.Version ->
  ((exists e, Argon2.Decode encoded = Err e)
   <-> schema_error (Params f) \/ MaxUint32 < N.of_nat (length (PHC.Hash f)))
  /\ (forall vm vt vp,
         Params f = [mkParameter (str "m") vm; mkParameter (str "t") vt;
                     mkParameter (str "p") vp] ->
         (forall e, ParseUint vm 32 = Err e ->
                    Argon2.Decode encoded = Err (MemoryParameterError e))
         /\ (forall m e, ParseUint vm 32 = Ok m -> ParseUint vt 32 = Err e ->
                         Argon2.Decode encoded = Err (TimeParameterError e))
         /\ (forall m t e, ParseUint vm 32 = Ok m -> ParseUint vt 32 = Ok t ->
                           ParseUint vp 8 = Err e ->
                           Argon2.Decode encoded
                           = Err (ParallelismParameterError e)))
  /\ ((forall e, Argon2.Decode encoded <> Err e) ->
      exists p, Argon2.Decode encoded = Ok (f, p) /\ decoded_from f p).
Proof.
  intros H Hid Hv. rewrite (Decode_bind_params encoded f H Hid Hv).
  split; [apply bind_params_err|]. split; [apply bind_params_field|].
  intros Hne. destruct (bind_params f) as [[f' p]|e|] eqn:E.
  - destruct (bind_params_ok f f' p E) as [-> Hd]. eauto.
  - now elim (Hne e).
  - now elim (bind_params_no_panic f).
Qed.

Lemma Decode_binder_errors_witness :
  PHC.Decode sample_text = Ok sample_record
  /\ ID sample_record = argon2ID
  /\ PHC.Version sample_record = Itoa Argon2.Version
  /\ ((exists e, Argon2.Decode sample_text = Err e)
      <-> schema_error (Params sample_record)
          \/ MaxUint32 < N.of_nat (length (PHC.Hash sample_record))).
Proof.
  split; [vm_compute; reflexivity|].
  split; [reflexivity|]. split; [reflexivity|].
  apply (Decode_binder_errors sample_text sample_record);
    vm_compute; reflexivity.
Defined.

Lemma sample_record_schema : ~ schema_error (Params sample_record).
Proof.
  unfold schema_error, sample_record. cbn [Params length map Name nth_error].
  intros [H|[H|[H|[H|H]]]].
  - now apply H.
  - now apply H.
  - destruct H as (q & e & Hn & Hp). injection Hn as <-.
    vm_compute in Hp. discriminate.
  - destruct H as (q & e & Hn & Hp). injection Hn as <-.
    vm_compute in Hp. discriminate.
  - destruct H as (q & e & Hn & Hp). injection Hn as <-.
    vm_compute in Hp. discriminate.
Qed.

(** C5, as the specification states it, fails.  The text with the
    parameter list m=8,t=0,p=1 decodes with no error, and [IsSame]
    calls the key derivation function with a number of rounds of 0: a
    function that panics there, as the one of the library does, makes
    [IsSame] panic.  And the text of a record with the identifier
    argon2id, the version 19, a valid parameter list and a hash of 2^32
    bytes makes [IsSame] return the error of a hash too long. *)
Lemma IsSame_panics_or_errs :
  Argon2.Decode zero_time_text
  = Ok (mkFormat (str "argon2id") (str "19")
                 [mkParameter (str "m") (str "8");
                  mkParameter (str "t") (str "0");
                  mkParameter (str "p") (str "1")]
                 (bytes_of_string (str "salt")) (bytes_of_string (str "hash")),
        mkParameters 8 0 1 4)
  /\ IsSame guarded_KDF (New []) (str "password") zero_time_text = Panic
  /\ PHC.Decode (String long_record) = Ok long_record
  /\ ID long_record = argon2ID
  /\ PHC.Version long_record = Itoa Argon2.Version
  /\ ~ schema_error (Params long_record)
  /\ IsSame guarded_KDF (New []) (str "password") (String long_record)
     = Err (HashTooLong (length long_hash)).
Proof.
  split; [vm_compute; reflexivity|]. split; [vm_compute; reflexivity|].
  assert (H : MaxUint32 < N.of_nat (length long_hash)).
  { unfold long_hash. rewrite repeat_length, N2Nat.id. reflexivity. }
  destruct (record_with_hash_too_long long_hash H) as (A & B & C).
  split; [exact A|]. split; [reflexivity|]. split; [reflexivity|].
  split; [exact B|].
  rewrite IsSame_partial. unfold long_record. now rewrite C.
Qed.

(** C5 (amended).  For every password and every text the codec accepts
    with the identifier argon2id, the version 19, a valid parameter
    list m, t, p and a decoded hash of at most 2^32 - 1 bytes, [Decode]
    returns the parameters of the text and [IsSame] calls the key
    derivation function with them: when the call returns, [IsSame]
    returns a boolean and no error, true exactly when the decoded hash
    is the key derived again, so false for a password that does not
    match; when the call panics, [IsSame] panics.  An error of [IsSame]
    is an error of [Decode] on its text. *)
Theorem IsSame_mismatch_no_error (IDKey : PartialKDF) h password encoded f :
  PHC.Decode encoded = Ok f -> ID f = argon2ID ->
  PHC.Version f = Itoa Argon2.Version ->
  ~ schema_error (Params f) ->
  N.of_nat (length (PHC.Hash f)) <= MaxUint32 ->
  exists p,
    Argon2.Decode encoded = Ok (f, p) /\ decoded_from f p
    /\ match IDKey (bytes_of_string password) (PHC.Salt f) (Time p)
                   (Memory p) (Parallelism p) (KeyLength p) with
       | Some key =>
           exists b, IsSame IDKey h password encoded = Ok b
                     /\ (b = true <-> PHC.Hash f = key)
       | None => IsSame IDKey h password encoded = Panic
       end
    /\ (forall password' encoded' e,
           IsSame IDKey h password' encoded' = Err e ->
           Argon2.Decode encoded' = Err e).
Proof.
  intros H Hid Hv Hs Hl.
  pose proof (Decode_bind_params encoded f H Hid Hv) as D.
  destruct (bind_params f) as [[f' p]|e|] eqn:E.
  - destruct (bind_params_ok f f' p E) as [-> Hd].
    exists p. split; [exact D|]. split; [exact Hd|]. split.
    + rewrite IsSame_partial, D.
      destruct (IDKey _ _ _ _ _ _) as [key|]; [|reflexivity].
      eexists. split; [reflexivity|].
      rewrite N.eqb_eq. apply ConstantTimeCompare_eq.
    + intros password' encoded' e. rewrite IsSame_partial.
      destruct (Argon2.Decode encoded') as [[f' p']|e'|]; try discriminate.
      * destruct (IDKey _ _ _ _ _ _); discriminate.
      * intros E'. now injection E' as ->.
  - exfalso. destruct (proj1 (bind_params_err f) (ex_intro _ e E)) as [S|L].
    + exact (Hs S).
    + apply N.lt_nge in L. exact (L Hl).
  - now elim (bind_params_no_panic f).
Qed.

Lemma IsSame_mismatch_no_error_witness :
  PHC.Decode sample_text = Ok sample_record
  /\ ID sample_record = argon2ID
  /\ PHC.Version sample_record = Itoa Argon2.Version
  /\ N.of_nat (length (PHC.Hash sample_record)) <= MaxUint32
  /\ exists p,
       Argon2.Decode sample_text = Ok (sample_record, p)
       /\ decoded_from sample_record p
       /\ match guarded_KDF (bytes_of_string (str "password"))
                            (PHC.Salt sample_record) (Time p) (Memory p)
                            (Parallelism p) (KeyLength p) with
          | Some key =>
              exists b,
                IsSame guarded_KDF (New []) (str "password") sample_text = Ok b
                /\ (b = true <-> PHC.Hash sample_record = key)
          | None =>
              IsSame guarded_KDF (New []) (str "password") sample_text = Panic
          end
       /\ (forall password' encoded' e,
              IsSame guarded_KDF (New []) password' encoded' = Err e ->
              Argon2.Decode encoded' = Err e).
Proof.
  split; [vm_compute; reflexivity|].
  split; [reflexivity|]. split; [reflexivity|].
  split; [vm_compute; discriminate|].
  apply (IsSame_mismatch_no_error guarded_KDF (New []) (str "password")
           sample_text sample_record).
  - vm_compute. reflexivity.
  - reflexivity.
  - reflexivity.
  - exact sample_record_schema.
  - vm_compute. discriminate.
Defined.

(** C6.  The result of [IsSame] is the same for any two hashers: it is
    computed from the parameters m, t, p of the text, the decoded salt
    and the length of the decoded hash, and from nothing of the
    hasher. *)
Theorem IsSame_hasher_independent (IDKey : KDF) h1 h2 password encoded :
  IsSame (returning IDKey) h1 password encoded
  = IsSame (returning IDKey) h2 password encoded
  /\ match Argon2.Decode encoded with
     | Ok (f, p) =>
         PHC.Decode encoded = Ok f
         /\ decoded_from f p
         /\ IsSame (returning IDKey) h1 password encoded
            = Ok (ConstantTimeCompare (PHC.Hash f)
                                      (rederived IDKey password f p) =? 1)
     | Err e => IsSame (returning IDKey) h1 password encoded = Err e
     | Panic => IsSame (returning IDKey) h1 password encoded = Panic
     end.
Proof.
  split; [now rewrite !IsSame_eq|].
  rewrite IsSame_eq.
  destruct (Argon2.Decode encoded) as [[f p]|e|] eqn:E; try reflexivity.
  destruct (Argon2_Decode_ok encoded f p E) as (D & _ & _ & Hd).
  repeat split; assumption.
Qed.

(** C7.  [Hash] returns the error of the salt generator, wrapped as a
    salt generation error, and no other error; when the generator
    returns a salt it returns the text of the record with the
    identifier argon2id, the version 19 (the decimal text of the version
    of the key derivation function), the parameters m, t, p in that
    order with the decimal text of Memory, Time and Parallelism, the
    salt and the derived key.  The decimal text is canonical: digits
    only, no leading zero, and it parses back to the value. *)
Theorem Hash_outcome (IDKey : KDF) h password rnd generate :
  salt h = Some generate ->
  uint_Parameters (params h) = true ->
  (forall e, fst (Argon2.Hash (returning IDKey) h password rnd) = Err e
             <-> exists e0, fst (generate rnd) = Err e0
                            /\ e = SaltGenerationError e0)
  /\ (forall s,
         fst (generate rnd) = Ok s ->
         fst (Argon2.Hash (returning IDKey) h password rnd)
         = Ok (String
                 (mkFormat
                    (str "argon2id") (Itoa Argon2.Version)
                    [mkParameter (str "m") (FormatUint (Memory (params h)));
                     mkParameter (str "t") (FormatUint (Time (params h)));
                     mkParameter (str "p")
                                 (FormatUint (Parallelism (params h)))]
                    s
                    (IDKey (bytes_of_string password) s (Time (params h))
                           (Memory (params h)) (Parallelism (params h))
                           (KeyLength (params h))))))
  /\ snd (Argon2.Hash (returning IDKey) h password rnd) = snd (generate rnd)
  /\ Itoa Argon2.Version = str "19"
  /\ (ParseUint (FormatUint (Memory (params h))) 32 = Ok (Memory (params h))
      /\ ParseUint (FormatUint (Time (params h))) 32 = Ok (Time (params h))
      /\ ParseUint (FormatUint (Parallelism (params h))) 8
         = Ok (Parallelism (params h)))
  /\ (forall i, In i [Memory (params h); Time (params h);
                      Parallelism (params h)] ->
                FormatUint i <> []
                /\ forallb PHC.digit_char (FormatUint i) = true
                /\ (0 < i -> hd "0"%char (FormatUint i) <> "0"%char)).
Proof.
  intros Hs Hu. unfold uint_Parameters in Hu.
  repeat (apply andb_prop in Hu; let H := fresh "U" in destruct Hu as [Hu H]).
  apply N.ltb_lt in Hu, U, U0, U1.
  rewrite (Hash_eq IDKey h password rnd generate Hs). cbn [fst snd].
  split; [|split; [|split; [|split; [|split]]]].
  - intros e. destruct (fst (generate rnd)) as [s|e0|]; split.
    + discriminate.
    + intros (e1 & E1 & _). discriminate.
    + intros E. injection E as <-. eauto.
    + intros (e1 & E1 & ->). now injection E1 as ->.
    + discriminate.
    + intros (e1 & E1 & _). discriminate.
  - intros s E. rewrite E. reflexivity.
  - reflexivity.
  - reflexivity.
  - repeat split; apply ParseUint_FormatUint; lia.
  - intros i Hi. apply FormatUint_canonical.
    cbn [In] in Hi. destruct Hi as [<-|[<-|[<-|[]]]]; lia.
Qed.

Lemma Hash_outcome_witness :
  salt (New []) = Some (NewSaltGenerator 16)
  /\ uint_Parameters (params (New [])) = true
  /\ fst (Argon2.Hash (returning sample_KDF) (New []) (str "password")
                      (bytes_of_string (str "0123456789abcdefXYZ")))
     = Ok (String
             (mkFormat
                (str "argon2id") (str "19")
                [mkParameter (str "m") (str "47104");
                 mkParameter (str "t") (str "1");
                 mkParameter (str "p") (str "1")]
                (bytes_of_string (str "0123456789abcdef"))
                (sample_KDF (bytes_of_string (str "password"))
                            (bytes_of_string (str "0123456789abcdef"))
                            1 47104 1 32))).
Proof.
  split; [reflexivity|]. split; [reflexivity|].
  apply (Hash_outcome sample_KDF (New []) (str "password")
           (bytes_of_string (str "0123456789abcdefXYZ"))
           (NewSaltGenerator 16));
    vm_compute; reflexivity.
Defined.

(** C8.  [New] with no option gives the parameters Memory = 46 * 1024,
    Time = 1, Parallelism = 1, KeyLength = 32 and a salt generator that
    returns the next 16 bytes of the randomness source; the options
    given to [New] are applied after these defaults, in order, so that
    the last option of a kind decides. *)
Theorem New_defaults (opts : list Option) (p : Argon2Parameters)
        (g : option SaltGenerator) (rnd : IO.Reader) :
  (16 <= length rnd)%nat ->
  New [] = mkHasher (mkParameters (46 * 1024) 1 1 32)
                    (Some (NewSaltGenerator 16))
  /\ NewSaltGenerator 16 rnd = (Ok (firstn 16 rnd), skipn 16 rnd)
  /\ length (firstn 16 rnd) = 16%nat
  /\ New opts = fold_left (fun h opt => opt h) opts (New [])
  /\ params (New (opts ++ [WithParameters p])) = p
  /\ salt (New (opts ++ [WithParameters p])) = salt (New opts)
  /\ salt (New (opts ++ [WithSaltGenerator g])) = g
  /\ params (New (opts ++ [WithSaltGenerator g])) = params (New opts).
Proof.
  intros Hr.
  split; [reflexivity|]. split.
  { unfold NewSaltGenerator, IO.ReadFull. cbn [Z.ltb Z.compare Z.to_nat].
    apply Nat.leb_le in Hr.
    change (Pos.to_nat 16) with 16%nat. now rewrite Hr. }
  split; [now apply firstn_length_le|].
  split; [apply New_fold|].
  rewrite !(New_fold (opts ++ _)), !fold_left_app, <- !New_fold.
  repeat split.
Qed.

Lemma New_defaults_witness :
  (16 <= length (bytes_of_string (str "0123456789abcdefXYZ")))%nat
  /\ NewSaltGenerator 16 (bytes_of_string (str "0123456789abcdefXYZ"))
     = (Ok (firstn 16 (bytes_of_string (str "0123456789abcdefXYZ"))),
        skipn 16 (bytes_of_string (str "0123456789abcdefXYZ")))
  /\ params (New ([WithParameters (mkParameters 8 3 2 16)]
                  ++ [WithParameters (mkParameters 65536 2 1 32)]))
     = mkParameters 65536 2 1 32.
Proof.
  assert (H : (16 <= length (bytes_of_string (str "0123456789abcdefXYZ")))%nat)
    by (vm_compute; lia).
  split; [exact H|].
  pose proof (New_defaults [WithParameters (mkParameters 8 3 2 16)]
                           (mkParameters 65536 2 1 32) None
                           (bytes_of_string (str "0123456789abcdefXYZ")) H)
    as (_ & A & _ & _ & B & _).
  split; [exact A | exact B].
Defined.



End Claims.

(** * Further properties of the codec *)
Module CodecProperties.
Import PHC Grammar PHCFacts PHCSound CodecFacts Base64 Base64Facts Segments.
Import Argon2Spec Samples.

Ltac Zify.zify_post_hook ::= Z.to_euclidean_division_equations.

(** *** What [DecodeString] accepts *)

Lemma quantum_length dbuf :
  (2 <= length dbuf <= 4)%nat -> length (quantum dbuf) = (length dbuf - 1)%nat.
Proof.
  intros H. unfold quantum.
  destruct (length dbuf) as [|[|[|[|[|n]]]]]; try lia; reflexivity.
Qed.

Lemma decode_Ok : forall src si dbuf b,
  forallb (fun c => negb (is_newline c)) src = true ->
  (length dbuf < 4)%nat ->
  decode src si dbuf = Ok b ->
  forallb alphabet_char src = true
  /\ ((length dbuf + length src) mod 4 <> 1)%nat
  /\ length b = (3 * (length dbuf + length src) / 4)%nat.
Proof.
  induction src as [|c src IH]; intros si dbuf b Hnl Hlen H.
  - cbn [decode] in H. cbn [forallb length].
    destruct dbuf as [|d0 [|d1 dbuf]].
    + injection H as <-. cbn. repeat split. discriminate.
    + discriminate.
    + injection H as <-. rewrite quantum_length by (cbn [length] in *; lia).
      cbn [length] in *. repeat split; lia.
  - cbn [forallb] in Hnl. apply andb_prop in Hnl. destruct Hnl as [Hc Hnl].
    apply negb_true_iff in Hc.
    cbn [decode] in H. cbn [forallb length]. unfold alphabet_char at 1.
    destruct (negb (decodeMap c =? 255)) eqn:Ea.
    + destruct (length (dbuf ++ [decodeMap c]) =? 4)%nat eqn:E4.
      * apply Nat.eqb_eq in E4.
        destruct (decode src (si + 1) []) as [tl|e|] eqn:Ed; cbn [bind] in H;
          try discriminate.
        injection H as <-.
        destruct (IH (si + 1) [] tl Hnl ltac:(cbn; lia) Ed) as (A & B & C).
        rewrite length_app in E4. cbn [length] in E4.
        rewrite length_app, quantum_length, C, length_app
          by (rewrite length_app; cbn [length]; lia).
        cbn [length] in *.
        repeat split; [exact A | lia | lia].
      * apply Nat.eqb_neq in E4. rewrite length_app in E4. cbn [length] in E4.
        destruct (IH (si + 1) (dbuf ++ [decodeMap c]) b Hnl
                     ltac:(rewrite length_app; cbn [length]; lia) H)
          as (A & B & C).
        rewrite length_app in B, C. cbn [length] in B, C.
        replace (length dbuf + S (length src))%nat
          with (length dbuf + 1 + length src)%nat by lia.
        repeat split; assumption.
    + rewrite Hc in H. discriminate.
Qed.

Lemma decode_accepts : forall src si dbuf,
  forallb alphabet_char src = true ->
  (length dbuf < 4)%nat ->
  ((length dbuf + length src) mod 4 <> 1)%nat ->
  exists b, decode src si dbuf = Ok b.
Proof.
  induction src as [|c src IH]; intros si dbuf Ha Hlen Hm.
  - cbn [decode]. destruct dbuf as [|d0 [|d1 dbuf]]; eauto.
    cbn in Hm. contradiction.
  - cbn [forallb] in Ha. apply andb_prop in Ha. destruct Ha as [Hc Ha].
    unfold alphabet_char in Hc. cbn [decode]. rewrite Hc.
    cbn [length] in Hm.
    destruct (length (dbuf ++ [decodeMap c]) =? 4)%nat eqn:E4.
    + apply Nat.eqb_eq in E4. rewrite length_app in E4. cbn [length] in E4.
      destruct (IH (si + 1) [] Ha ltac:(cbn; lia)
                   ltac:(cbn [length]; lia)) as [tl ->].
      cbn [bind]. eauto.
    + apply Nat.eqb_neq in E4. rewrite length_app in E4. cbn [length] in E4.
      apply IH; [exact Ha | |]; rewrite length_app; cbn [length]; lia.
Qed.

(** *** What [Decode] accepts *)

(** A successful [Decode], read backwards: the text by segments, and
    the salt and the hash as the decoded segments. *)
Lemma Decode_inv s f :
  PHC.Decode s = Ok f ->
  exists s64 h64,
    nonempty (ID f) = true /\ (length (ID f) <= 32)%nat
    /\ forallb name_char (ID f) = true
    /\ forallb digit_char (PHC.Version f) = true
    /\ forallb valid_param (Params f) = true
    /\ forallb value_char s64 = true /\ forallb value_char h64 = true
    /\ (s64 = [] -> h64 = [])
    /\ s = render (ID f) (PHC.Version f) (Params f) s64 h64
    /\ Regexp.FindStringSubmatch format s
       = Some (submatches (ID f) (PHC.Version f) (Params f) s64 h64)
    /\ (if nonempty s64 then DecodeString s64 else Ok []) = Ok (Salt f)
    /\ (if nonempty h64 then DecodeString h64 else Ok []) = Ok (PHC.Hash f).
Proof.
  rewrite Decode_eq.
  destruct (Regexp.FindStringSubmatch format s) as [sub|] eqn:Ef;
    [|discriminate].
  destruct (format_sound s sub Ef)
    as (id & ver & ps & s64 & h64 & Hne & Hlen & Hid & Hv & Hps & Hs & Hh
        & Hsh & -> & ->).
  unfold build, submatches. cbn [nth]. rewrite (params_of_text ps Hps).
  cbn [bind]. intros H. exists s64, h64.
  destruct s64 as [|x s64].
  - rewrite (Hsh eq_refl) in *. cbn [length Nat.ltb Nat.leb] in H.
    injection H as <-. cbn [ID Version Params Salt Hash nonempty].
    repeat split; auto.
  - cbn [length Nat.ltb Nat.leb] in H.
    destruct (DecodeString (x :: s64)) as [salt|e|] eqn:Ed;
      cbn [map_err bind] in H; try discriminate.
    destruct h64 as [|y h64].
    + cbn [length Nat.ltb Nat.leb] in H. injection H as <-.
      cbn [ID Version Params Salt Hash nonempty].
      repeat split; auto.
    + cbn [length Nat.ltb Nat.leb] in H.
      destruct (DecodeString (y :: h64)) as [hash|e|] eqn:Eh;
        cbn [map_err bind] in H; try discriminate.
      injection H as <-. cbn [ID Version Params Salt Hash nonempty].
      repeat split; auto.
Qed.

(** The decoder never returns a record with no version and the single
    parameter v of digits: that text is read as a version. *)
Lemma Decode_unambiguous s f :
  PHC.Decode s = Ok f -> ambiguous (PHC.Version f) (Params f) = false.
Proof.
  intros H.
  destruct (Decode_inv s f H)
    as (s64 & h64 & Hne & Hlen & Hid & Hv & Hps & Hs & Hh & Hsh & -> & Ef & _).
  destruct (ambiguous (PHC.Version f) (Params f)) eqn:Ea; [|reflexivity].
  exfalso. destruct f as [id ver ps salt hash].
  cbn [ID Version Params] in *.
  destruct ver as [|c ver]; [|discriminate].
  destruct ps as [|[n d] [|q ps]]; try discriminate.
  cbn [ambiguous Name Value] in Ea. apply andb_prop in Ea.
  destruct Ea as [Hn Hd]. apply string_eqb_eq in Hn. subst n.
  assert (Hd0 : d <> []).
  { destruct d; [|discriminate]. vm_compute in Hps. discriminate. }
  rewrite (Claims.render_v_parameter id d s64 h64 Hd0) in Ef.
  rewrite format_complete in Ef; auto.
  - injection Ef as E. now subst d.
  - destruct d; [contradiction | reflexivity].
Qed.

Lemma DecodeString_nonempty s b :
  forallb value_char s = true -> s <> [] -> DecodeString s = Ok b -> b <> [].
Proof.
  intros Hs Hne H.
  destruct (decode_Ok s 0 [] b (value_chars_no_newline s Hs)
                      ltac:(cbn; lia) H) as (_ & Hm & Hl).
  intros ->. cbn [length] in *. destruct s as [|c s]; [contradiction|].
  cbn [length] in *. lia.
Qed.

Lemma decode_Err : forall src si dbuf e,
  decode src si dbuf = Err e -> exists off, e = CorruptInputError off.
Proof.
  induction src as [|c src IH]; intros si dbuf e H; cbn [decode] in H.
  - destruct dbuf as [|d0 [|d1 dbuf]]; try discriminate.
    injection H as <-. eauto.
  - destruct (negb (decodeMap c =? 255)).
    + destruct (length (dbuf ++ [decodeMap c]) =? 4)%nat.
      * destruct (decode src (si + 1) []) as [tl|e'|] eqn:Ed; cbn [bind] in H;
          try discriminate.
        injection H as <-. eauto.
      * eauto.
    + destruct (is_newline c); [eauto|]. injection H as <-. eauto.
Qed.

Lemma decode_no_panic : forall src si dbuf, decode src si dbuf <> Panic.
Proof.
  induction src as [|c src IH]; intros si dbuf; cbn [decode].
  - destruct dbuf as [|d0 [|d1 dbuf]]; discriminate.
  - destruct (negb (decodeMap c =? 255)).
    + destruct (length (dbuf ++ [decodeMap c]) =? 4)%nat; [|apply IH].
      pose proof (IH (si + 1) []) as P.
      destruct (decode src (si + 1) []); cbn [bind];
        try discriminate; try contradiction.
    + destruct (is_newline c); [apply IH | discriminate].
Qed.

(** [DecodeString] on a text of the characters of the pattern: the bytes,
    three for four characters, or a corrupt input error. *)
Lemma DecodeString_cases s :
  forallb value_char s = true ->
  (base64_text s = true
   /\ exists b, DecodeString s = Ok b
                /\ length b = (3 * length s / 4)%nat)
  \/ (base64_text s = false
      /\ exists off, DecodeString s = Err (CorruptInputError off)).
Proof.
  intros Hs. pose proof (value_chars_no_newline s Hs) as Hnl.
  unfold DecodeString.
  destruct (decode s 0 []) as [b|e|] eqn:E.
  - left. destruct (decode_Ok s 0 [] b Hnl ltac:(cbn; lia) E) as (A & B & C).
    cbn [length] in B, C. split; [|eauto].
    unfold base64_text. rewrite A. cbn [andb].
    apply negb_true_iff, Nat.eqb_neq. exact B.
  - right. destruct (decode_Err s 0 [] e E) as [off ->]. split; [|eauto].
    destruct (base64_text s) eqn:Eb; [|reflexivity].
    unfold base64_text in Eb. apply andb_prop in Eb. destruct Eb as [A B].
    apply negb_true_iff, Nat.eqb_neq in B.
    destruct (decode_accepts s 0 [] A ltac:(cbn; lia) B) as [b Hb].
    congruence.
  - now elim (decode_no_panic s 0 []).
Qed.

(** [Decode] on a text the pattern matches. *)
Lemma Decode_matched s sub :
  Regexp.FindStringSubmatch format s = Some sub ->
  forallb value_char (nth 4 sub []) = true
  /\ forallb value_char (nth 5 sub []) = true
  /\ (nth 4 sub [] = [] -> nth 5 sub [] = [])
  /\ exists id ver ps,
       PHC.Decode s
       = (if nonempty (nth 4 sub []) then
            salt <- map_err SaltDecodingError (DecodeString (nth 4 sub [])) ;;
            if nonempty (nth 5 sub []) then
              hash <- map_err HashDecodingError
                              (DecodeString (nth 5 sub [])) ;;
              Ok (mkFormat id ver ps salt hash)
            else Ok (mkFormat id ver ps salt [])
          else Ok (mkFormat id ver ps [] [])).
Proof.
  intros Ef. rewrite Decode_eq, Ef.
  destruct (format_sound s sub Ef)
    as (id & ver & ps & s64 & h64 & Hne & Hlen & Hid & Hv & Hps & Hs & Hh
        & Hsh & -> & ->).
  unfold build, submatches. cbn [nth]. rewrite (params_of_text ps Hps).
  cbn [bind]. repeat split; auto.
  exists id, ver, ps.
  destruct s64; [reflexivity|]. destruct h64; reflexivity.
Qed.

Lemma Decode_no_panic s : PHC.Decode s <> Panic.
Proof.
  destruct (Regexp.FindStringSubmatch format s) as [sub|] eqn:Ef.
  - destruct (Decode_matched s sub Ef) as (_ & _ & _ & id & ver & ps & ->).
    pose proof (decode_no_panic (nth 4 sub []) 0 []) as P4.
    pose proof (decode_no_panic (nth 5 sub []) 0 []) as P5.
    unfold DecodeString.
    destruct (nonempty (nth 4 sub [])); [|discriminate].
    destruct (decode (nth 4 sub []) 0 []); cbn [map_err bind];
      try discriminate; try contradiction.
    destruct (nonempty (nth 5 sub [])); [|discriminate].
    destruct (decode (nth 5 sub []) 0 []); cbn [map_err bind];
      try discriminate; try contradiction.
  - rewrite Decode_eq, Ef. discriminate.
Qed.

Lemma bytes_of_string_of_bytes b : bytes_of_string (string_of_bytes b) = b.
Proof.
  unfold bytes_of_string, string_of_bytes. rewrite map_map.
  rewrite <- (map_id b) at 2. apply map_ext. intros x.
  apply byte_of_ascii_of_byte.
Qed.

Lemma UnmarshalText_ret_Decode text :
  UnmarshalText_ret text = PHC.Decode (string_of_bytes text).
Proof.
  unfold PHC.Decode, UnmarshalText. rewrite bytes_of_string_of_bytes.
  destruct (UnmarshalText_ret text); reflexivity.
Qed.

(** X1.  [UnmarshalText] never panics: the pattern leaves an equals
    sign in every piece of the parameter segment, so the index [kv[1]]
    is always in range. *)
Theorem UnmarshalText_never_panics f text :
  snd (UnmarshalText f text) <> Panic
  /\ PHC.Decode (string_of_bytes text) <> Panic.
Proof.
  split; [|apply Decode_no_panic].
  unfold UnmarshalText. rewrite UnmarshalText_ret_Decode.
  pose proof (Decode_no_panic (string_of_bytes text)) as P.
  destruct (PHC.Decode (string_of_bytes text)); cbn [snd];
    try discriminate; try contradiction.
Qed.

(** The record [Decode] returns is one the grammar can carry. *)
Lemma Decode_valid s f : PHC.Decode s = Ok f -> valid_Format f = true.
Proof.
  intros H.
  destruct (Decode_inv s f H)
    as (s64 & h64 & Hne & Hlen & Hid & Hv & Hps & Hs & Hh & Hsh & _ & _
        & Ds & Dh).
  unfold valid_Format. rewrite Hne, Hid, Hv, Hps.
  apply Nat.leb_le in Hlen. rewrite Hlen. cbn [andb].
  destruct s64 as [|x s64].
  - rewrite (Hsh eq_refl) in Dh. cbn [nonempty] in Dh.
    injection Dh as <-. apply orb_true_r.
  - cbn [nonempty] in Ds.
    pose proof (DecodeString_nonempty (x :: s64) (Salt f) Hs
                                      ltac:(discriminate) Ds) as Hn.
    destruct (Salt f); [contradiction | reflexivity].
Qed.

(** X2.  Every record [Decode] returns keeps the invariant of the
    format: an identifier of 1 to 32 bytes of [a-z0-9-], a version of
    digits, parameters with non-empty names and values of the two
    character sets, and a hash only with a salt; and it is never the
    record with no version and the single parameter v of digits. *)
Theorem Decode_valid_Format s f :
  PHC.Decode s = Ok f ->
  valid_Format f = true /\ ambiguous (PHC.Version f) (Params f) = false.
Proof.
  intros H. split.
  - exact (Decode_valid s f H).
  - exact (Decode_unambiguous s f H).
Qed.

Lemma Decode_valid_Format_witness :
  PHC.Decode sample_text_short = Ok sample_record_short
  /\ valid_Format sample_record_short = true.
Proof.
  split; [vm_compute; reflexivity|].
  apply (Decode_valid_Format sample_text_short sample_record_short).
  vm_compute. reflexivity.
Defined.

(** X3.  Writing a decoded record and decoding the text again gives the
    same record: the text may change (the unused bits of a base64
    segment are dropped), the record does not. *)
Theorem Decode_String_stable s f :
  PHC.Decode s = Ok f -> PHC.Decode (String f) = Ok f.
Proof.
  intros H. apply Decode_String_valid.
  - exact (Decode_valid s f H).
  - exact (Decode_unambiguous s f H).
Qed.

Lemma Decode_String_stable_witness :
  PHC.Decode (str "$a$QR") = Ok (mkFormat (str "a") [] [] [x41] [])
  /\ PHC.Decode (String (mkFormat (str "a") [] [] [x41] []))
     = Ok (mkFormat (str "a") [] [] [x41] []).
Proof.
  split; [vm_compute; reflexivity|].
  apply (Decode_String_stable (str "$a$QR")). vm_compute. reflexivity.
Defined.

(** X4.  [String] is injective on the valid records that are not of the
    one shape read as a version: two such records with the same text are
    the same record. *)
Theorem String_injective f g :
  valid_Format f = true -> ambiguous (PHC.Version f) (Params f) = false ->
  valid_Format g = true -> ambiguous (PHC.Version g) (Params g) = false ->
  String f = String g -> f = g.
Proof.
  intros Hf Af Hg Ag E.
  pose proof (Decode_String_valid f Hf Af) as Df.
  pose proof (Decode_String_valid g Hg Ag) as Dg.
  rewrite E in Df. congruence.
Qed.

Lemma String_injective_witness :
  String sample_record_short = String sample_record_short
  /\ sample_record_short = sample_record_short.
Proof.
  split; [reflexivity|].
  apply (String_injective sample_record_short sample_record_short);
    vm_compute; reflexivity.
Defined.

(** X5.  [MarshalText] never fails, and [UnmarshalText] on the bytes it
    returns for a valid record (not of the shape read as a version)
    stores that record in the receiver, whatever the receiver held, and
    returns no error. *)
Theorem UnmarshalText_MarshalText f g :
  valid_Format f = true -> ambiguous (PHC.Version f) (Params f) = false ->
  exists text, MarshalText f = Ok text
               /\ text = bytes_of_string (String f)
               /\ UnmarshalText g text = (f, Ok tt).
Proof.
  intros Hv Ha. eexists. split; [reflexivity|]. split; [reflexivity|].
  unfold UnmarshalText.
  rewrite UnmarshalText_ret_Decode, string_of_bytes_of_string.
  now rewrite (Decode_String_valid f Hv Ha).
Qed.

Lemma UnmarshalText_MarshalText_witness :
  exists text, MarshalText sample_record_short = Ok text
               /\ text = bytes_of_string (String sample_record_short)
               /\ UnmarshalText v_only text = (sample_record_short, Ok tt).
Proof.
  apply (UnmarshalText_MarshalText sample_record_short v_only);
    vm_compute; reflexivity.
Defined.

(** X6.  [Decode] accepts a text exactly when the pattern matches it
    and the salt and hash segments are texts of the standard base64
    alphabet whose length is not 1 modulo 4: the characters [.] and [-],
    which the pattern lets through, are rejected there. *)
Theorem Decode_accepts s :
  (exists f, PHC.Decode s = Ok f)
  <-> Regexp.FindStringSubmatch format s <> None
      /\ base64_text (segment 4 s) = true
      /\ base64_text (segment 5 s) = true.
Proof.
  unfold segment.
  destruct (Regexp.FindStringSubmatch format s) as [sub|] eqn:Ef.
  - destruct (Decode_matched s sub Ef) as (Hs & Hh & Hsh & id & ver & ps & ->).
    destruct (nth 4 sub []) as [|x s64] eqn:E4.
    + rewrite (Hsh eq_refl). cbn [nonempty]. split; [|eauto].
      intros _. repeat split. discriminate.
    + cbn [nonempty].
      destruct (DecodeString_cases (x :: s64) Hs)
        as [(B4 & b & -> & _) | (B4 & off & ->)]; cbn [map_err bind].
      * destruct (nth 5 sub []) as [|y h64] eqn:E5.
        { cbn [nonempty]. split; [|eauto].
          intros _. repeat split; [discriminate | exact B4]. }
        cbn [nonempty].
        destruct (DecodeString_cases (y :: h64) Hh)
          as [(B5 & b' & -> & _) | (B5 & off & ->)]; cbn [map_err bind].
        { split; [|eauto]. intros _. repeat split; [discriminate | | ];
            assumption. }
        split; [intros [f Hf]; discriminate|].
        intros (_ & _ & B). congruence.
      * split; [intros [f Hf]; discriminate|].
        intros (_ & B & _). congruence.
  - rewrite Decode_eq, Ef. split; [intros [f Hf]; discriminate|].
    intros (H & _). now elim H.
Qed.

(** X7.  The error of [Decode]: the error of a text outside the format,
    with the text, when the pattern does not match; otherwise the salt
    decoding error, with a corrupt input error of base64, when the salt
    segment is not a base64 text; otherwise the hash decoding error when
    the hash segment is not one.  The salt is checked before the
    hash. *)
Theorem Decode_errors s :
  (Regexp.FindStringSubmatch format s = None ->
   PHC.Decode s = Err (NotValidFormat s))
  /\ (Regexp.FindStringSubmatch format s <> None ->
      base64_text (segment 4 s) = false ->
      exists off,
        PHC.Decode s = Err (SaltDecodingError (CorruptInputError off)))
  /\ (Regexp.FindStringSubmatch format s <> None ->
      base64_text (segment 4 s) = true ->
      base64_text (segment 5 s) = false ->
      exists off,
        PHC.Decode s = Err (HashDecodingError (CorruptInputError off))).
Proof.
  unfold segment.
  destruct (Regexp.FindStringSubmatch format s) as [sub|] eqn:Ef.
  - split; [discriminate|].
    destruct (Decode_matched s sub Ef) as (Hs & Hh & Hsh & id & ver & ps & ->).
    destruct (nth 4 sub []) as [|x s64] eqn:E4.
    + rewrite (Hsh eq_refl). split; intros _; discriminate.
    + cbn [nonempty].
      destruct (DecodeString_cases (x :: s64) Hs)
        as [(B4 & b & -> & _) | (B4 & off & ->)]; cbn [map_err bind].
      * split; [intros _ B; congruence|]. intros _ _.
        destruct (nth 5 sub []) as [|y h64] eqn:E5; [discriminate|].
        cbn [nonempty].
        destruct (DecodeString_cases (y :: h64) Hh)
          as [(B5 & b' & -> & _) | (B5 & off & ->)]; cbn [map_err bind].
        { intros B. congruence. }
        eauto.
      * split; [eauto|]. intros _ B. congruence.
  - rewrite Decode_eq, Ef. split; [reflexivity|].
    split; intros H; now elim H.
Qed.

(** X8.  The decoded salt and hash hold three bytes for four characters
    of their segments, rounded down. *)
Theorem Decode_lengths s f :
  PHC.Decode s = Ok f ->
  length (Salt f) = (3 * length (segment 4 s) / 4)%nat
  /\ length (PHC.Hash f) = (3 * length (segment 5 s) / 4)%nat.
Proof.
  intros H.
  destruct (Decode_inv s f H)
    as (s64 & h64 & _ & _ & _ & _ & _ & Hs & Hh & _ & _ & Ef & Ds & Dh).
  unfold segment. rewrite Ef. cbn [submatches nth].
  assert (L : forall t b, forallb value_char t = true ->
                          (if nonempty t then DecodeString t else Ok []) = Ok b ->
                          length b = (3 * length t / 4)%nat).
  { intros t b Ht Hd. destruct t as [|c t].
    - injection Hd as <-. reflexivity.
    - cbn [nonempty] in Hd.
      destruct (decode_Ok (c :: t) 0 [] b (value_chars_no_newline _ Ht)
                          ltac:(cbn; lia) Hd) as (_ & _ & C).
      exact C. }
  split; apply L; assumption.
Qed.

Lemma Decode_lengths_witness :
  PHC.Decode sample_text_short = Ok sample_record_short
  /\ length (Salt sample_record_short)
     = (3 * length (segment 4 sample_text_short) / 4)%nat.
Proof.
  split; [vm_compute; reflexivity|].
  apply (Decode_lengths sample_text_short sample_record_short).
  vm_compute. reflexivity.
Defined.

End CodecProperties.

(** * Further properties of the hasher *)
Module HasherProperties.
Import PHC Grammar PHCFacts CodecFacts Base64 Base64Facts.
Import Strconv StrconvFacts Subtle SubtleFacts.
Import Argon2Spec Argon2 Argon2Facts CodecProperties.

(** *** The text of a hash is decoded to what was hashed *)

Lemma valid_param_FormatUint n i :
  i < 2 ^ 64 -> nonempty n = true -> forallb name_char n = true ->
  valid_param (mkParameter n (FormatUint i)) = true.
Proof.
  intros Hi Hn Hc. destruct (FormatUint_canonical i Hi) as (Hne & Hd & _).
  unfold valid_param. cbn [Name Value]. rewrite Hn, Hc.
  rewrite (forallb_impl _ _ _ digit_is_value Hd).
  destruct (FormatUint i); [contradiction | reflexivity].
Qed.

Lemma uint_Parameters_lt p :
  uint_Parameters p = true ->
  Memory p < 2 ^ 32 /\ Time p < 2 ^ 32 /\ Parallelism p < 2 ^ 8
  /\ KeyLength p < 2 ^ 32.
Proof.
  unfold uint_Parameters. intros H.
  repeat (apply andb_prop in H; let U := fresh "U" in destruct H as [H U]).
  apply N.ltb_lt in H, U, U0, U1. auto.
Qed.

Lemma hashed_Format_valid p s derived :
  uint_Parameters p = true -> s <> [] ->
  valid_Format (hashed_Format p s derived) = true.
Proof.
  intros Hu Hs. apply uint_Parameters_lt in Hu.
  destruct Hu as (Hm & Ht & Hp & _).
  unfold valid_Format, hashed_Format. cbn [ID PHC.Version Params Salt PHC.Hash].
  cbn [forallb].
  rewrite !valid_param_FormatUint by (try reflexivity; lia).
  destruct s; [contradiction | reflexivity].
Qed.

Lemma Decode_hashed_Format p s derived :
  uint_Parameters p = true -> s <> [] ->
  length derived = N.to_nat (KeyLength p) ->
  Argon2.Decode (String (hashed_Format p s derived))
  = Ok (hashed_Format p s derived, p).
Proof.
  intros Hu Hs Hl.
  pose proof (hashed_Format_valid p s derived Hu Hs) as Hv.
  apply uint_Parameters_lt in Hu. destruct Hu as (Hm & Ht & Hp & Hk).
  rewrite (Decode_bind_params _ (hashed_Format p s derived)
             (Decode_String_valid _ Hv eq_refl) eq_refl eq_refl).
  unfold bind_params, hashed_Format. cbn [Params Name Value PHC.Hash].
  rewrite !string_eqb_refl. cbn [negb orb].
  rewrite !ParseUint_FormatUint by lia. cbn [map_err bind].
  rewrite Hl, N2Nat.id.
  replace (MaxUint32 <? KeyLength p) with false
    by (symmetry; apply N.ltb_ge; unfold MaxUint32; lia).
  rewrite !N.mod_small by assumption. now destruct p.
Qed.

(** X9.  Parameter fidelity: when the salt generator returns a
    non-empty salt, the parameters are within their types and the key
    derivation function returns [KeyLength] bytes, [Decode] on the text
    [Hash] returns gives back the record that was written and the
    parameters of the hasher, the key length included. *)
Theorem Decode_Hash (IDKey : KDF) h password rnd generate s :
  salt h = Some generate -> fst (generate rnd) = Ok s -> s <> [] ->
  uint_Parameters (params h) = true ->
  length (IDKey (bytes_of_string password) s (Time (params h))
                (Memory (params h)) (Parallelism (params h))
                (KeyLength (params h)))
  = N.to_nat (KeyLength (params h)) ->
  exists text,
    fst (Argon2.Hash (returning IDKey) h password rnd) = Ok text
    /\ Argon2.Decode text
       = Ok (mkFormat (str "argon2id") (str "19")
                      [mkParameter (str "m") (FormatUint (Memory (params h)));
                       mkParameter (str "t") (FormatUint (Time (params h)));
                       mkParameter (str "p")
                                   (FormatUint (Parallelism (params h)))]
                      s
                      (IDKey (bytes_of_string password) s (Time (params h))
                             (Memory (params h)) (Parallelism (params h))
                             (KeyLength (params h))),
             params h).
Proof.
  intros Hs Hg Hne Hu Hl.
  rewrite (Hash_eq IDKey h password rnd generate Hs), Hg. cbn [fst].
  eexists. split; [reflexivity|].
  exact (Decode_hashed_Format (params h) s _ Hu Hne Hl).
Qed.

Lemma Decode_Hash_witness :
  exists text,
    fst (Argon2.Hash (returning sample_KDF) (New []) (str "password")
                     (bytes_of_string (str "0123456789abcdefXYZ")))
    = Ok text
    /\ Argon2.Decode text
       = Ok (mkFormat (str "argon2id") (str "19")
                      [mkParameter (str "m") (FormatUint 47104);
                       mkParameter (str "t") (FormatUint 1);
                       mkParameter (str "p") (FormatUint 1)]
                      (bytes_of_string (str "0123456789abcdef"))
                      (sample_KDF (bytes_of_string (str "password"))
                                  (bytes_of_string (str "0123456789abcdef"))
                                  1 47104 1 32),
             mkParameters 47104 1 1 32).
Proof.
  apply (Decode_Hash sample_KDF (New []) (str "password")
           (bytes_of_string (str "0123456789abcdefXYZ"))
           (NewSaltGenerator 16)
           (bytes_of_string (str "0123456789abcdef"))).
  - reflexivity.
  - vm_compute. reflexivity.
  - discriminate.
  - reflexivity.
  - vm_compute. reflexivity.
Defined.

(** X10.  A hash verifies: under the same conditions, [IsSame], of any
    hasher, returns true for the password that was hashed, and for
    another password it returns true exactly when the key derived from
    it, with the same salt and parameters, is the same key. *)
Theorem IsSame_Hash (IDKey : KDF) h h' password password' rnd generate s :
  salt h = Some generate -> fst (generate rnd) = Ok s -> s <> [] ->
  uint_Parameters (params h) = true ->
  length (IDKey (bytes_of_string password) s (Time (params h))
                (Memory (params h)) (Parallelism (params h))
                (KeyLength (params h)))
  = N.to_nat (KeyLength (params h)) ->
  exists text,
    fst (Argon2.Hash (returning IDKey) h password rnd) = Ok text
    /\ IsSame (returning IDKey) h' password text = Ok true
    /\ exists b,
         IsSame (returning IDKey) h' password' text = Ok b
         /\ (b = true
             <-> IDKey (bytes_of_string password') s (Time (params h))
                       (Memory (params h)) (Parallelism (params h))
                       (KeyLength (params h))
                 = IDKey (bytes_of_string password) s (Time (params h))
                         (Memory (params h)) (Parallelism (params h))
                         (KeyLength (params h))).
Proof.
  intros Hs Hg Hne Hu Hl.
  rewrite (Hash_eq IDKey h password rnd generate Hs), Hg. cbn [fst].
  eexists. split; [reflexivity|].
  rewrite !IsSame_eq, (Decode_hashed_Format (params h) s _ Hu Hne Hl).
  unfold hashed_Format. cbn [Salt PHC.Hash]. split.
  - f_equal. apply N.eqb_eq. now apply ConstantTimeCompare_eq.
  - eexists. split; [reflexivity|].
    rewrite N.eqb_eq, ConstantTimeCompare_eq. split; congruence.
Qed.

Lemma IsSame_Hash_witness :
  exists text,
    fst (Argon2.Hash (returning sample_KDF) (New []) (str "password")
                     (bytes_of_string (str "0123456789abcdefXYZ")))
    = Ok text
    /\ IsSame (returning sample_KDF)
              (New [WithParameters (mkParameters 8 3 2 16)])
              (str "password") text = Ok true.
Proof.
  destruct (IsSame_Hash sample_KDF (New [])
              (New [WithParameters (mkParameters 8 3 2 16)])
              (str "password") (str "other")
              (bytes_of_string (str "0123456789abcdefXYZ"))
              (NewSaltGenerator 16)
              (bytes_of_string (str "0123456789abcdef"))
              eq_refl eq_refl ltac:(discriminate) eq_refl eq_refl)
    as (text & A & B & _).
  exists text. split; [exact A | exact B].
Defined.

(** *** [EncodeWithSalt], the salt generator, panics *)

(** X11.  The copy of the salt in [EncodeWithSalt] never panics (the
    buffer has the length of the salt); the function returns the
    record with the identifier
    argon2id, the version 19, the parameters m, t, p, a salt equal to
    the one given and the derived key; the text [Hash] returns is the
    text of the record [EncodeWithSalt] builds from the generated salt
    and the parameters of the hasher. *)
Theorem Hash_EncodeWithSalt (IDKey : KDF) h password rnd generate s :
  salt h = Some generate -> fst (generate rnd) = Ok s ->
  (forall pw slt p,
      EncodeWithSalt (returning IDKey) pw slt p
      = Ok (mkFormat (str "argon2id") (str "19")
                     [mkParameter (str "m") (FormatUint (Memory p));
                      mkParameter (str "t") (FormatUint (Time p));
                      mkParameter (str "p") (FormatUint (Parallelism p))]
                     slt
                     (IDKey pw slt (Time p) (Memory p) (Parallelism p)
                            (KeyLength p))))
  /\ exists r,
       EncodeWithSalt (returning IDKey) (bytes_of_string password) s (params h)
       = Ok r
       /\ fst (Argon2.Hash (returning IDKey) h password rnd) = Ok (String r).
Proof.
  intros Hs Hg. split.
  - intros pw slt p. apply EncodeWithSalt_ok.
  - rewrite EncodeWithSalt_ok. eexists. split; [reflexivity|].
    rewrite (Hash_eq IDKey h password rnd generate Hs), Hg. reflexivity.
Qed.

Lemma Hash_EncodeWithSalt_witness :
  exists r,
    EncodeWithSalt (returning sample_KDF) (bytes_of_string (str "password"))
                   (bytes_of_string (str "0123456789abcdef"))
                   (params (New [])) = Ok r
    /\ fst (Argon2.Hash (returning sample_KDF) (New []) (str "password")
                        (bytes_of_string (str "0123456789abcdefXYZ")))
       = Ok (String r).
Proof.
  apply (Hash_EncodeWithSalt sample_KDF (New []) (str "password")
           (bytes_of_string (str "0123456789abcdefXYZ"))
           (NewSaltGenerator 16)
           (bytes_of_string (str "0123456789abcdef")));
    reflexivity.
Defined.



(** X14.  [Decode] never panics: the three parameters are read after
    the check of their count, and the codec under it does not panic. *)
Theorem Decode_never_panics encoded : Argon2.Decode encoded <> Panic.
Proof.
  rewrite Argon2_Decode_eq.
  pose proof (Decode_no_panic encoded) as P.
  destruct (PHC.Decode encoded) as [d|e|]; try discriminate;
    try contradiction.
  destruct (negb (string_eqb (ID d) argon2ID)); [discriminate|].
  destruct (negb (string_eqb (PHC.Version d) (Itoa Argon2.Version)));
    [discriminate|].
  apply Claims.bind_params_no_panic.
Qed.

(** X15.  The texts [Decode] accepts: the identifier argon2id, the
    version 19, the three parameters m, t, p in this order, then the
    salt and hash segments; the parameters returned are within the
    width of their fields, so that no conversion loses a bit, and the
    key length is the length of the decoded hash. *)
Theorem Decode_accepted_text encoded f p :
  Argon2.Decode encoded = Ok (f, p) ->
  uint_Parameters p = true
  /\ KeyLength p = N.of_nat (length (PHC.Hash f))
  /\ exists vm vt vp s64 h64,
       encoded = str "$argon2id$v=19$m=" ++ vm ++ str ",t=" ++ vt
                 ++ str ",p=" ++ vp ++ render_salt_hash s64 h64
       /\ ParseUint vm 32 = Ok (Memory p)
       /\ ParseUint vt 32 = Ok (Time p)
       /\ ParseUint vp 8 = Ok (Parallelism p).
Proof.
  intros H.
  destruct (Claims.Argon2_Decode_ok encoded f p H)
    as (D & Hid & Hv & vm & vt & vp & Hp & Pm & Pt & Pp & Hk).
  assert (Hlen : N.of_nat (length (PHC.Hash f)) <= MaxUint32).
  { apply N.le_ngt. intros Hlt.
    destruct (proj2 (bind_params_err f) (or_intror Hlt)) as [e He].
    rewrite (Decode_bind_params encoded f D Hid Hv) in H. congruence. }
  split; [|split; [exact Hk|]].
  - unfold uint_Parameters.
    apply ParseUint_lt in Pm, Pt, Pp. unfold MaxUint32 in Hlen.
    repeat (apply andb_true_intro; split); apply N.ltb_lt; lia.
  - destruct (Decode_inv encoded f D)
      as (s64 & h64 & _ & _ & _ & _ & _ & _ & _ & _ & Ht & _).
    exists vm, vt, vp, s64, h64. repeat split; try assumption.
    rewrite Ht, Hid, Hv, Hp. unfold render.
    cbn [render_version render_params write_params Name Value Itoa
         Nat.ltb Nat.leb app].
    change (render_version (Itoa Argon2.Version)) with (str "$v=19").
    unfold argon2ID. rewrite app_nil_r. simpl.
    repeat (rewrite <- app_assoc; simpl). reflexivity.
Qed.

Lemma Decode_accepted_text_witness :
  Argon2.Decode sample_text = Ok (sample_record, mkParameters 65536 2 1 32)
  /\ uint_Parameters (mkParameters 65536 2 1 32) = true.
Proof.
  split; [vm_compute; reflexivity|].
  apply (Decode_accepted_text sample_text sample_record
                              (mkParameters 65536 2 1 32)).
  vm_compute. reflexivity.
Defined.

(** X16.  [IsSame] reads its text through the decoded record only: a
    text and the text [String] writes for its record, which differ when
    a base64 segment carries unused bits, are accepted or rejected
    alike and verify the same passwords. *)
Theorem IsSame_reencoded (IDKey : KDF) h password encoded f :
  PHC.Decode encoded = Ok f ->
  Argon2.Decode (String f) = Argon2.Decode encoded
  /\ IsSame (returning IDKey) h password (String f)
     = IsSame (returning IDKey) h password encoded.
Proof.
  intros H.
  pose proof (Decode_String_valid f (Decode_valid encoded f H)
                                  (Decode_unambiguous encoded f H)) as H'.
  assert (D : Argon2.Decode (String f) = Argon2.Decode encoded)
    by now rewrite !Argon2_Decode_eq, H, H'.
  split; [exact D|]. now rewrite !IsSame_eq, D.
Qed.

Lemma IsSame_reencoded_witness :
  PHC.Decode (str "$argon2id$v=19$m=8,t=1,p=1$QR$QUI")
  = Ok (mkFormat (str "argon2id") (str "19")
                 [mkParameter (str "m") (str "8");
                  mkParameter (str "t") (str "1");
                  mkParameter (str "p") (str "1")] [x41] [x41; x42])
  /\ String (mkFormat (str "argon2id") (str "19")
                      [mkParameter (str "m") (str "8");
                       mkParameter (str "t") (str "1");
                       mkParameter (str "p") (str "1")] [x41] [x41; x42])
     = str "$argon2id$v=19$m=8,t=1,p=1$QQ$QUI"
  /\ IsSame (returning sample_KDF) (New []) (str "password")
            (String (mkFormat (str "argon2id") (str "19")
                              [mkParameter (str "m") (str "8");
                               mkParameter (str "t") (str "1");
                               mkParameter (str "p") (str "1")]
                              [x41] [x41; x42]))
     = IsSame (returning sample_KDF) (New []) (str "password")
              (str "$argon2id$v=19$m=8,t=1,p=1$QR$QUI").
Proof.
  split; [vm_compute; reflexivity|]. split; [vm_compute; reflexivity|].
  apply (IsSame_reencoded sample_KDF (New []) (str "password")
           (str "$argon2id$v=19$m=8,t=1,p=1$QR$QUI")).
  vm_compute. reflexivity.
Defined.

End HasherProperties.
